(** * CasADi: symbolic QR linear solver, WORHP adapter and structural nodes

    A shallow embedding of
    - [symbolic_qr.cpp]   (plugin [symbolicqr] of the linear-solver interface),
    - [worhp_interface.cpp] (the WORHP adapter of the NLP-solver interface),
    - [rank1.hpp] and [repmat.hpp] (declarations of three structural nodes),
    together with the properties of these units that the specification states.

    Conventions.
    - [std::vector<T>] is a [list]; [v.resize(n)] is stdpp's [resize n d v]
      with [d] the value-initialised element.  [v[i] = x] is [<[i:=x]> v];
      out of range the C++ code has undefined behaviour and the model leaves
      the vector unchanged, the bounds being the subject of separate lemmas.
    - [size_t] quantities are [nat]; [int] quantities are [Z].
    - [double] (and [SXElem]) in the linear solver and in the adapter is an
      arbitrary commutative ring [K : Scalar]: rounding is left out, so [≈]
      in the specification reads [=] there.  The structural nodes take the
      arithmetic of their element type as a parameter, the exact one of a
      ring or that of binary64. *)

From Stdlib Require PrimFloat.
From Stdlib Require Import ZArith Ring Permutation.
From stdpp Require Import base tactics list strings gmap.

(** ** Scalars *)

Record Scalar : Type := mkScalar {
  D :> Type;
  zero : D;
  one : D;
  add : D → D → D;
  mul : D → D → D;
  sub : D → D → D;
  opp : D → D;
  ring_laws : ring_theory zero one add mul sub opp (@eq D)
}.

Arguments zero {_}.
Arguments one {_}.
Arguments add {_} _ _.
Arguments mul {_} _ _.
Arguments sub {_} _ _.
Arguments opp {_} _.

Declare Scope scalar_scope.
Delimit Scope scalar_scope with K.
Notation "x + y" := (add x y) : scalar_scope.
Notation "x * y" := (mul x y) : scalar_scope.
Notation "x - y" := (sub x y) : scalar_scope.
Notation "0" := zero : scalar_scope.
Notation "1" := one : scalar_scope.

(** The integers, used to run the definitions on concrete inputs. *)
Definition Zscalar : Scalar := mkScalar Z 0%Z 1%Z Z.add Z.mul Z.sub Z.opp Zth.

(** ** The Function container, as far as the solver uses it

    [Function] is declared outside the files at hand.  The solver uses its
    arities, its four scratch-size queries, [nnz_out] and its call operator;
    a call is a pure map from the nonzero buffers of the inputs to the
    nonzero buffers of the outputs.  What a call leaves in the scratch it is
    handed is unspecified and never read by the solver; the model leaves
    the scratch as it was. *)

Record Function (K : Scalar) : Type := mkFunction {
  name : string;
  n_in : nat;
  n_out : nat;
  nnz_out : nat → nat;
  sz_arg : nat;
  sz_res : nat;
  sz_iw : nat;
  sz_w : nat;
  eval : list (list K) → list (list K)
}.

Arguments mkFunction {K}.
Arguments name {K}.
Arguments n_in {K}.
Arguments n_out {K}.
Arguments nnz_out {K}.
Arguments sz_arg {K}.
Arguments sz_res {K}.
Arguments sz_iw {K}.
Arguments sz_w {K}.
Arguments eval {K}.

(** Targets of the entries of the [arg] and [res] pointer vectors: the
    caller's matrix [A], the stored factors, an offset into the scratch [w],
    an offset into the caller's right-hand-side buffer [x]. *)
Inductive ptr : Type :=
  | nullptr
  | ptr_A
  | ptr_q
  | ptr_r
  | ptr_w (off : nat)
  | ptr_x (off : nat).

(** [fill_n(first, n, value)] on the front of a vector. *)
Definition fill_n {A : Type} (n : nat) (v : A) (l : list A) : list A :=
  list_inserts 0 (replicate (n `min` length l) v) l.

(** ** Buffers

    Writing a block into a buffer and reading the blocks of a buffer of
    contiguous vectors. *)

Lemma list_inserts_split {A : Type} (off : nat) (k l : list A) :
  off + length k ≤ length l →
  list_inserts off k l = take off l ++ k ++ drop (off + length k) l.
Proof.
  intros H.
  rewrite <- (take_drop off l) at 1.
  replace off with (length (take off l) + 0) at 1 by (rewrite length_take; lia).
  rewrite list_inserts_app_r. f_equal.
  rewrite <- (take_drop (length k) (drop off l)) at 1.
  rewrite list_inserts_0_r by (rewrite length_take, length_drop; lia).
  by rewrite drop_drop.
Qed.

Lemma list_inserts_whole {A : Type} (k l : list A) :
  length k = length l → list_inserts 0 k l = k.
Proof.
  intros H. rewrite list_inserts_split by (simpl; lia). simpl.
  rewrite drop_ge by lia. apply app_nil_r.
Qed.

Lemma take_list_inserts_0 {A : Type} (k l : list A) :
  length k ≤ length l → take (length k) (list_inserts 0 k l) = k.
Proof.
  intros H. rewrite list_inserts_split by (simpl; lia). simpl.
  by rewrite take_app_length.
Qed.

Lemma length_fill_n {A : Type} (n : nat) (v : A) (l : list A) :
  length (fill_n n v l) = length l.
Proof. unfold fill_n. apply length_inserts. Qed.

Lemma segment_concat {A : Type} (n : nat) (ls : list (list A)) : ∀ i l,
  Forall (λ l, length l = n) ls → ls !! i = Some l →
  take n (drop (i * n) (concat ls)) = l.
Proof.
  induction ls as [|l0 ls IH]; intros i l Hall Hi; [by rewrite lookup_nil in Hi|].
  apply Forall_cons in Hall as [Hl0 Hall]. destruct i as [|i].
  - injection Hi as <-. change (0 * n) with 0. rewrite drop_0. cbn [concat].
    by rewrite take_app_length'.
  - cbn [concat]. rewrite drop_app_ge by lia.
    replace (S i * n - length l0) with (i * n) by lia. by apply IH.
Qed.

Lemma length_concat_const {A : Type} (n : nat) (ls : list (list A)) :
  Forall (λ l, length l = n) ls → length (concat ls) = length ls * n.
Proof.
  induction 1 as [|l ls Hl _ IH]; [done|]. simpl. rewrite length_app. lia.
Qed.

(** A vector that [fill_n] has gone over reads [v] in front. *)
Lemma lookup_fill_n {A : Type} (n : nat) (v : A) (l : list A) i :
  fill_n n v l !! i = if decide (i < n) then (λ _, v) <$> l !! i else l !! i.
Proof.
  unfold fill_n. case_decide as Hi.
  - destruct (decide (i < length l)) as [Hl|Hl].
    + rewrite list_lookup_inserts by (rewrite ?length_replicate; lia).
      rewrite lookup_replicate_2 by lia.
      destruct (lookup_lt_is_Some_2 l i Hl) as [x ->]. done.
    + rewrite !lookup_ge_None_2; [done | lia |].
      rewrite length_inserts. lia.
  - destruct (decide (i < length l)) as [Hl|Hl].
    + apply list_lookup_inserts_ge. rewrite length_replicate. lia.
    + rewrite !lookup_ge_None_2; [done | lia |].
      rewrite length_inserts. lia.
Qed.

(** A block written over a block of the same size at the same place. *)
Lemma list_inserts_again {A : Type} (k1 k2 l : list A) :
  length k1 = length k2 →
  list_inserts 0 k2 (list_inserts 0 k1 l) = list_inserts 0 k2 l.
Proof.
  intros Hk. apply list_eq. intros i.
  destruct (decide (i < length l)) as [Hl|Hl].
  - destruct (decide (i < length k2)) as [Hi|Hi].
    + rewrite !list_lookup_inserts; rewrite ?length_inserts; try lia. done.
    + rewrite !list_lookup_inserts_ge by (simpl; lia). done.
  - rewrite !lookup_ge_None_2; [done | |]; rewrite ?length_inserts; lia.
Qed.

(** An entry written just in front of a block. *)
Lemma list_inserts_front {A : Type} (i : nat) (x : A) (k l : list A) :
  list_inserts (S i) k (<[i := x]> l) = list_inserts i (x :: k) l.
Proof. simpl. by rewrite list_insert_inserts_lt by lia. Qed.

Lemma seq_0_add (a b : nat) :
  seq 0 (a + b) = seq 0 a ++ ((λ i, a + i) <$> seq 0 b).
Proof. rewrite seq_app, fmap_add_seq. do 2 f_equal. lia. Qed.

(** Growing a vector to the larger of its size and [k] appends the
    missing entries and keeps what it holds. *)
Lemma resize_max_app {A : Type} (l : list A) (k : nat) (d : A) :
  resize (length l `max` k) d l = l ++ replicate (k - length l) d.
Proof. rewrite resize_ge by lia. do 2 f_equal. lia. Qed.

Lemma resize_max_max {A : Type} (l : list A) (a b : nat) (d : A) :
  resize (length (resize (length l `max` a) d l) `max` b) d
    (resize (length l `max` a) d l) =
  resize (length l `max` (a `max` b)) d l.
Proof.
  rewrite length_resize, !resize_max_app.
  rewrite resize_ge by (rewrite length_app, length_replicate; lia).
  rewrite <- app_assoc, <- replicate_add. do 2 f_equal.
  rewrite length_app, length_replicate. lia.
Qed.

(** ** SymbolicQrMemory *)

Module SymbolicQrMemory.

Record t (K : Scalar) : Type := mk {
  sparsity : list Z;
  arg : list ptr;
  res : list ptr;
  iw : list Z;
  w : list K;
  factorize : Function K;
  solve : Function K;
  solveT : Function K;
  q : list K;
  r : list K
}.

Arguments mk {K}.
Arguments sparsity {K}.
Arguments arg {K}.
Arguments res {K}.
Arguments iw {K}.
Arguments w {K}.
Arguments factorize {K}.
Arguments solve {K}.
Arguments solveT {K}.
Arguments q {K}.
Arguments r {K}.

(** Modelled from the spec: [LinsolMemory::nrow()], declared in the base
    class header; the compressed pattern stores the row count first, then
    the column count, the column offsets and the row indices. *)
Definition nrow {K} (m : t K) : nat := Z.to_nat (nth 0 (sparsity m) 0%Z).

(** [SymbolicQrMemory::alloc]:
    [arg.resize(max(arg.size(), f.sz_arg()))] and likewise for [res], [iw]
    and [w]. *)
Definition alloc {K} (m : t K) (f : Function K) : t K :=
  mk (sparsity m)
     (resize (length (arg m) `max` sz_arg f) nullptr (arg m))
     (resize (length (res m) `max` sz_res f) nullptr (res m))
     (resize (length (iw m) `max` sz_iw f) 0%Z (iw m))
     (resize (length (w m) `max` sz_w f) 0%K (w m))
     (factorize m) (solve m) (solveT m) (q m) (r m).

(** The four array sizes of a Memory. *)
Definition sizes {K} (m : t K) : nat * nat * nat * nat :=
  (length (arg m), length (res m), length (iw m), length (w m)).

(** A Memory provides what [f] asks for. *)
Definition provides {K} (m : t K) (f : Function K) : Prop :=
  sz_arg f ≤ length (arg m) ∧ sz_res f ≤ length (res m) ∧
  sz_iw f ≤ length (iw m) ∧ sz_w f ≤ length (w m).

(** No array is smaller in [m'] than in [m]. *)
Definition grows {K} (m m' : t K) : Prop :=
  length (arg m) ≤ length (arg m') ∧ length (res m) ≤ length (res m') ∧
  length (iw m) ≤ length (iw m') ∧ length (w m) ≤ length (w m').

Section Alloc.
Context {K : Scalar}.
Implicit Types (m : t K) (f : Function K).

Lemma alloc_sizes m f :
  sizes (alloc m f) =
  (length (arg m) `max` sz_arg f, length (res m) `max` sz_res f,
   length (iw m) `max` sz_iw f, length (w m) `max` sz_w f).
Proof. unfold sizes, alloc; simpl. by rewrite !length_resize. Qed.

Lemma alloc_grows m f : grows m (alloc m f).
Proof. unfold grows, alloc; simpl. rewrite !length_resize. lia. Qed.

Lemma alloc_provides m f : provides (alloc m f) f.
Proof. unfold provides, alloc; simpl. rewrite !length_resize. lia. Qed.

Lemma grows_refl m : grows m m.
Proof. unfold grows. lia. Qed.

Lemma grows_trans m1 m2 m3 : grows m1 m2 → grows m2 m3 → grows m1 m3.
Proof. unfold grows. lia. Qed.

Lemma provides_grows m m' f : provides m f → grows m m' → provides m' f.
Proof. unfold provides, grows. lia. Qed.

(** An old prefix of a vector survives [alloc]: [resize] to a larger size
    only appends. *)
Lemma alloc_keeps_w m f i : i < length (w m) → w (alloc m f) !! i = w m !! i.
Proof.
  intros Hi. unfold alloc; simpl.
  rewrite resize_ge by lia. by rewrite lookup_app_l.
Qed.

Lemma foldl_alloc_grows fs m : grows m (foldl alloc m fs).
Proof.
  revert m. induction fs as [|f fs IH]; intros m; simpl.
  - apply grows_refl.
  - eapply grows_trans; [apply alloc_grows | apply IH].
Qed.

Lemma foldl_alloc_provides fs m :
  Forall (provides (foldl alloc m fs)) fs.
Proof.
  revert m. induction fs as [|f fs IH]; intros m; simpl; constructor.
  - eapply provides_grows; [apply alloc_provides | apply foldl_alloc_grows].
  - apply IH.
Qed.

(** C10. [alloc] never shrinks a buffer: after [alloc(f)] each of the four
    arrays has size the maximum of its previous size and [f]'s
    requirement, and after any sequence of [alloc] calls every array is
    at least as large as it was and as every Function allocated needs. *)
Theorem alloc_monotone :
  (∀ m f,
     length (arg (alloc m f)) = length (arg m) `max` sz_arg f ∧
     length (res (alloc m f)) = length (res m) `max` sz_res f ∧
     length (iw (alloc m f)) = length (iw m) `max` sz_iw f ∧
     length (w (alloc m f)) = length (w m) `max` sz_w f) ∧
  (∀ m fs,
     grows m (foldl alloc m fs) ∧
     Forall (provides (foldl alloc m fs)) fs).
Proof.
  split.
  - intros m f. unfold alloc; simpl. by rewrite !length_resize.
  - intros m fs. split; [apply foldl_alloc_grows | apply foldl_alloc_provides].
Qed.

Lemma alloc_alloc m f g :
  alloc (alloc m f) g =
  mk (sparsity m)
     (resize (length (arg m) `max` (sz_arg f `max` sz_arg g)) nullptr (arg m))
     (resize (length (res m) `max` (sz_res f `max` sz_res g)) nullptr (res m))
     (resize (length (iw m) `max` (sz_iw f `max` sz_iw g)) 0%Z (iw m))
     (resize (length (w m) `max` (sz_w f `max` sz_w g)) 0%K (w m))
     (factorize m) (solve m) (solveT m) (q m) (r m).
Proof. unfold alloc; simpl. by rewrite !resize_max_max. Qed.

Lemma alloc_comm m f g : alloc (alloc m f) g = alloc (alloc m g) f.
Proof.
  rewrite !alloc_alloc.
  by rewrite (Nat.max_comm (sz_arg f)), (Nat.max_comm (sz_res f)),
    (Nat.max_comm (sz_iw f)), (Nat.max_comm (sz_w f)).
Qed.

Lemma alloc_idemp m f : alloc (alloc m f) f = alloc m f.
Proof. rewrite alloc_alloc. unfold alloc. by rewrite !Nat.max_id. Qed.

Lemma foldl_alloc_perm fs fs' : fs ≡ₚ fs' → ∀ m, foldl alloc m fs = foldl alloc m fs'.
Proof.
  induction 1 as [|f fs fs' _ IH|f g fs|fs1 fs2 fs3 _ IH1 _ IH2]; intros m; simpl.
  - done.
  - apply IH.
  - by rewrite alloc_comm.
  - by rewrite IH1.
Qed.

(** [alloc] only appends. *)
Lemma alloc_appends m f :
  arg (alloc m f) = arg m ++ replicate (sz_arg f - length (arg m)) nullptr ∧
  res (alloc m f) = res m ++ replicate (sz_res f - length (res m)) nullptr ∧
  iw (alloc m f) = iw m ++ replicate (sz_iw f - length (iw m)) 0%Z ∧
  w (alloc m f) = w m ++ replicate (sz_w f - length (w m)) 0%K.
Proof. unfold alloc; simpl. rewrite !resize_max_app. repeat split. Qed.

Lemma app_replicate_grow {A : Type} (l l1 l2 : list A) (d : A) (a : nat) :
  l1 = l ++ replicate a d →
  length l1 ≤ length l2 →
  l2 = l1 ++ replicate (length l2 - length l1) d →
  l2 = l ++ replicate (length l2 - length l) d.
Proof.
  intros H1 Hle H2. rewrite H2 at 1. rewrite H1 at 1.
  rewrite <- app_assoc, <- replicate_add. do 2 f_equal.
  rewrite H1, length_app, length_replicate in Hle.
  rewrite H1, length_app, length_replicate. lia.
Qed.

(** X1. No series of [alloc] calls disturbs what the Memory holds: each of
    the four arrays keeps its entries and gains null pointers,
    respectively zeros, behind them, and the pattern, the three Functions
    and the stored factors are not touched. *)
Theorem allocs_keep_contents m fs :
  let m' := foldl alloc m fs in
  arg m' = arg m ++ replicate (length (arg m') - length (arg m)) nullptr ∧
  res m' = res m ++ replicate (length (res m') - length (res m)) nullptr ∧
  iw m' = iw m ++ replicate (length (iw m') - length (iw m)) 0%Z ∧
  w m' = w m ++ replicate (length (w m') - length (w m)) 0%K ∧
  sparsity m' = sparsity m ∧ factorize m' = factorize m ∧
  solve m' = solve m ∧ solveT m' = solveT m ∧ q m' = q m ∧ r m' = r m.
Proof.
  cbn zeta. revert m. induction fs as [|f fs IH]; intros m.
  - simpl. rewrite !Nat.sub_diag. simpl. by rewrite !app_nil_r.
  - cbn [foldl].
    destruct (IH (alloc m f)) as (Ha & Hr & Hi & Hw & Hrest).
    destruct (alloc_appends m f) as (Ha1 & Hr1 & Hi1 & Hw1).
    destruct (foldl_alloc_grows fs (alloc m f)) as (Ga & Gr & Gi & Gw).
    split; [by eapply app_replicate_grow|].
    split; [by eapply app_replicate_grow|].
    split; [by eapply app_replicate_grow|].
    split; [by eapply app_replicate_grow|].
    exact Hrest.
Qed.

(** X2. The Memory after a series of [alloc] calls does not depend on the
    order of the calls nor on repetitions: allocating for the same
    Functions in another order, or for a Function a second time, gives the
    same Memory, contents included. *)
Theorem alloc_order_irrelevant m fs fs' :
  fs ≡ₚ fs' →
  foldl alloc m fs = foldl alloc m fs' ∧
  Forall (λ f, alloc (foldl alloc m fs) f = foldl alloc m fs) fs.
Proof.
  intros Hp. split; [by apply foldl_alloc_perm|].
  apply Forall_forall. intros f Hf.
  apply elem_of_Permutation in Hf as [fs0 Hfs].
  rewrite (foldl_alloc_perm _ _ Hfs). simpl.
  change (alloc (foldl alloc (alloc m f) fs0) f)
    with (foldl alloc (foldl alloc (alloc m f) fs0) [f]).
  rewrite <- foldl_app.
  rewrite (foldl_alloc_perm (fs0 ++ [f]) (f :: fs0)).
  - simpl. by rewrite alloc_idemp.
  - by rewrite Permutation_app_comm.
Qed.

End Alloc.

End SymbolicQrMemory.

(** ** Index vectors and permutations

    [btf.rowperm] and [btf.colperm] are [std::vector<int>].  [ix v i] is the
    index held at position [i]; [is_perm n v] says that [v] lists the
    indices [0 .. n-1] in some order, the invariant of a BTF permutation. *)

Definition ix (v : list Z) (i : nat) : nat := Z.to_nat (nth i v 0%Z).

Definition is_perm (n : nat) (v : list Z) : Prop :=
  v ≡ₚ Z.of_nat <$> seq 0 n.

(** [v[i] = x] for an [int] index: nothing is written out of range. *)
Definition vset (i : Z) (x : Z) (v : list Z) : list Z :=
  if decide (0 ≤ i)%Z then <[Z.to_nat i := x]> v else v.

(** The loop [for (int k=0; k<perm.size(); ++k) inv[perm[k]] = k;] entered
    at position [k] with the entries [perm] still to visit. *)
Fixpoint invert_loop (perm : list Z) (k : Z) (inv : list Z) : list Z :=
  match perm with
  | [] => inv
  | p :: perm' => invert_loop perm' (k + 1) (vset p k inv)
  end.

(** [std::vector<int> inv(perm.size());] followed by the loop. *)
Definition invert (perm : list Z) : list Z :=
  invert_loop perm 0 (replicate (length perm) 0%Z).

Section Invert.

Lemma is_perm_length n v : is_perm n v → length v = n.
Proof.
  intros H. rewrite (Permutation_length H), length_fmap. apply length_seq.
Qed.

Lemma is_perm_NoDup n v : is_perm n v → NoDup v.
Proof.
  intros H. rewrite H. apply NoDup_fmap; [apply _ | apply NoDup_seq].
Qed.

Lemma is_perm_elem n v p : is_perm n v → p ∈ v ↔ (0 ≤ p < Z.of_nat n)%Z.
Proof.
  intros H. rewrite H, list_elem_of_fmap. split.
  - intros (i & -> & Hi). apply elem_of_seq in Hi. lia.
  - intros Hp. exists (Z.to_nat p). split; [lia|]. apply elem_of_seq. lia.
Qed.

Lemma is_perm_lookup n v i : is_perm n v → i < n → ∃ p, v !! i = Some p ∧ nth i v 0%Z = p ∧ (0 ≤ p < Z.of_nat n)%Z.
Proof.
  intros H Hi. destruct (lookup_lt_is_Some_2 v i) as [p Hp].
  { rewrite (is_perm_length n v H). done. }
  exists p. split; [done|]. split.
  - by apply nth_lookup_Some with (d := 0%Z) in Hp.
  - apply (is_perm_elem n v p H). by eapply list_elem_of_lookup_2.
Qed.

Lemma is_perm_ix_lt n v i : is_perm n v → i < n → ix v i < n.
Proof.
  intros H Hi. destruct (is_perm_lookup n v i H Hi) as (p & _ & Hn & Hp).
  unfold ix. rewrite Hn. lia.
Qed.

(** The index map of a permutation enumerates [0 .. n-1]. *)
Lemma is_perm_ix_seq n v : is_perm n v → ix v <$> seq 0 n ≡ₚ seq 0 n.
Proof.
  intros H.
  assert (ix v <$> seq 0 n = Z.to_nat <$> v) as ->.
  { apply list_eq. intros i. rewrite !list_lookup_fmap.
    destruct (decide (i < n)) as [Hi|Hi].
    - destruct (is_perm_lookup n v i H Hi) as (p & Hp & Hn & _).
      rewrite lookup_seq_lt, Hp by done. simpl. unfold ix. by rewrite Hn.
    - rewrite lookup_seq_ge by lia.
      rewrite lookup_ge_None_2; [done|]. rewrite (is_perm_length n v H). lia. }
  rewrite H, <- list_fmap_compose.
  rewrite (list_fmap_ext (Z.to_nat ∘ Z.of_nat) id).
  - by rewrite list_fmap_id.
  - intros i x _. simpl. lia.
Qed.

Lemma invert_loop_spec perm : ∀ k inv,
  NoDup perm →
  (∀ p, p ∈ perm → (0 ≤ p < Z.of_nat (length inv))%Z) →
  length (invert_loop perm k inv) = length inv ∧
  (∀ i p, perm !! i = Some p →
     invert_loop perm k inv !! Z.to_nat p = Some (k + Z.of_nat i)%Z) ∧
  (∀ j, Z.of_nat j ∉ perm → invert_loop perm k inv !! j = inv !! j).
Proof.
  induction perm as [|p perm IH]; intros k inv Hnd Hin; simpl.
  - split; [done|]. split; [|done]. intros i p Hp. by rewrite lookup_nil in Hp.
  - apply NoDup_cons in Hnd as [Hp Hnd].
    assert (0 ≤ p < Z.of_nat (length inv))%Z as Hpr by (apply Hin; left).
    assert (vset p k inv = <[Z.to_nat p := k]> inv) as Hset.
    { unfold vset. by rewrite decide_True by lia. }
    destruct (IH (k + 1)%Z (vset p k inv)) as (Hlen & Hhit & Hmiss).
    { done. }
    { intros p' Hp'. rewrite Hset, length_insert. apply Hin. by right. }
    split; [by rewrite Hlen, Hset, length_insert|]. split.
    + intros [|i] p' Hp'; simpl in Hp'.
      * injection Hp' as <-. rewrite Hmiss.
        -- rewrite Hset, list_lookup_insert_eq by lia. f_equal. lia.
        -- by rewrite Z2Nat.id by lia.
      * rewrite (Hhit i p' Hp'). f_equal. lia.
    + intros j Hj. apply not_elem_of_cons in Hj as [Hne Hj].
      rewrite (Hmiss j Hj), Hset. apply list_lookup_insert_ne. lia.
Qed.

Lemma invert_length n perm : is_perm n perm → length (invert perm) = n.
Proof.
  intros H. unfold invert.
  destruct (invert_loop_spec perm 0%Z (replicate (length perm) 0%Z)) as (Hl & _).
  - by eapply is_perm_NoDup.
  - intros p Hp. rewrite length_replicate, (is_perm_length n perm H).
    by apply (is_perm_elem n perm p H).
  - by rewrite Hl, length_replicate, (is_perm_length n perm H).
Qed.

(** [inv[perm[k]] = k]. *)
Lemma invert_left n perm k :
  is_perm n perm → k < n → ix (invert perm) (ix perm k) = k.
Proof.
  intros H Hk. unfold invert.
  destruct (invert_loop_spec perm 0%Z (replicate (length perm) 0%Z)) as (_ & Hhit & _).
  - by eapply is_perm_NoDup.
  - intros p Hp. rewrite length_replicate, (is_perm_length n perm H).
    by apply (is_perm_elem n perm p H).
  - destruct (is_perm_lookup n perm k H Hk) as (p & Hp & Hn & _).
    unfold ix at 2. rewrite Hn. unfold ix.
    apply Hhit in Hp. apply nth_lookup_Some with (d := 0%Z) in Hp.
    rewrite Hp. lia.
Qed.

(** [perm[inv[j]] = j]. *)
Lemma invert_right n perm j :
  is_perm n perm → j < n → ix perm (ix (invert perm) j) = j.
Proof.
  intros H Hj.
  assert (Z.of_nat j ∈ perm) as Hin by (apply (is_perm_elem n perm _ H); lia).
  apply list_elem_of_lookup in Hin as [k Hk].
  assert (k < n) as Hkn.
  { rewrite <- (is_perm_length n perm H). by eapply lookup_lt_Some. }
  assert (ix perm k = j) as Hix.
  { unfold ix. apply nth_lookup_Some with (d := 0%Z) in Hk. rewrite Hk. lia. }
  rewrite <- Hix at 1. by rewrite (invert_left n perm k H Hkn).
Qed.

(** The inverse of a permutation of [0 .. n-1] is one too. *)
Lemma invert_is_perm n perm : is_perm n perm → is_perm n (invert perm).
Proof.
  intros H. unfold is_perm. symmetry.
  apply NoDup_Permutation_bis.
  - apply NoDup_ListNoDup, NoDup_fmap_2; [apply _ | apply NoDup_seq].
  - rewrite length_fmap, length_seq, (invert_length n perm H). done.
  - intros z Hz. apply list_elem_of_In, list_elem_of_fmap in Hz as (j & -> & Hj).
    apply elem_of_seq in Hj. apply list_elem_of_In.
    destruct (is_perm_lookup n perm j H) as (p & Hp & _ & Hpr); [lia|].
    unfold invert.
    destruct (invert_loop_spec perm 0%Z (replicate (length perm) 0%Z)) as (_ & Hhit & _).
    + by eapply is_perm_NoDup.
    + intros p' Hp'. rewrite length_replicate, (is_perm_length n perm H).
      by apply (is_perm_elem n perm p' H).
    + apply Hhit in Hp. eapply list_elem_of_lookup_2.
      rewrite Hp. f_equal.
Qed.

(** C2. For a BTF permutation [perm] that is a bijection on [0, n), the
    vector computed by the inversion loop of [reset] has [n] entries and
    satisfies [inv[perm[k]] = k] for every [k]: composed with [perm], on
    either side, it is the identity on [0, n).  The statement serves
    [colperm] and [rowperm] alike. *)
Theorem invert_perm_identity n perm :
  is_perm n perm →
  length (invert perm) = n ∧
  (∀ k, k < n → ix (invert perm) (ix perm k) = k) ∧
  (∀ j, j < n → ix perm (ix (invert perm) j) = j).
Proof.
  intros H. split; [by apply invert_length|].
  split; intros k Hk; [by apply (invert_left n) | by apply (invert_right n)].
Qed.

(** X3. Inverting twice gives the permutation back: for a bijection [perm]
    on [0, n) the loop of [reset] applied to its own result returns
    [perm]. *)
Theorem invert_involutive n perm :
  is_perm n perm → invert (invert perm) = perm.
Proof.
  intros H.
  pose proof (invert_is_perm n perm H) as Hi.
  pose proof (invert_is_perm n _ Hi) as Hii.
  apply (list_eq_same_length _ _ n);
    [by apply is_perm_length | by apply is_perm_length |].
  intros j x y Hj Hx Hy.
  destruct (is_perm_lookup n _ j Hii Hj) as (x' & Hx' & _ & Hxr).
  destruct (is_perm_lookup n _ j H Hj) as (y' & Hy' & _ & Hyr).
  assert (x' = x) as -> by congruence. assert (y' = y) as -> by congruence.
  assert (ix (invert (invert perm)) j = ix perm j) as Hix.
  { pose proof (invert_left n (invert perm) (ix perm j) Hi
                  (is_perm_ix_lt n perm j H Hj)) as E.
    by rewrite (invert_left n perm j H Hj) in E. }
  unfold ix in Hix.
  apply nth_lookup_Some with (d := 0%Z) in Hx, Hy.
  rewrite Hx, Hy in Hix. lia.
Qed.

End Invert.

(** ** Matrices

    A matrix is the map from a position to its entry (structural zeros read
    [0]); products carry the inner dimension.  [getSub A rr cc] is CasADi's
    [A(rr, cc)], [getRows A rr] is [A(rr, Slice())], [column v] the dense
    column with nonzeros [v] and [column_nonzeros n x] the nonzeros of a
    dense column of [n] rows. *)

Definition Mat (K : Scalar) : Type := nat → nat → K.

Fixpoint bigsum {K : Scalar} (l : list nat) (f : nat → K) : K :=
  match l with
  | [] => 0%K
  | i :: l' => (f i + bigsum l' f)%K
  end.

Definition mtimes {K : Scalar} (n : nat) (A B : Mat K) : Mat K :=
  λ i j, bigsum (seq 0 n) (λ k, A i k * B k j)%K.

Definition T {K : Scalar} (A : Mat K) : Mat K := λ i j, A j i.

Definition eye {K : Scalar} : Mat K :=
  λ i j, if decide (i = j) then 1%K else 0%K.

Definition getSub {K : Scalar} (A : Mat K) (rr cc : list Z) : Mat K :=
  λ i j, A (ix rr i) (ix cc j).

Definition getRows {K : Scalar} (A : Mat K) (rr : list Z) : Mat K :=
  λ i j, A (ix rr i) j.

Definition column {K : Scalar} (v : list K) : Mat K :=
  λ i j, if decide (j = 0) then nth i v 0%K else 0%K.

Definition column_nonzeros {K : Scalar} (n : nat) (x : Mat K) : list K :=
  (λ i, x i 0) <$> seq 0 n.

(** Equality of the leading [n1 × n2] blocks. *)
Definition mat_eq {K : Scalar} (n1 n2 : nat) (A B : Mat K) : Prop :=
  ∀ i j, i < n1 → j < n2 → A i j = B i j.

Section Matrix.
Context {K : Scalar}.
Add Ring Kring : (ring_laws K).
Implicit Types (f g : nat → K) (l : list nat) (A B Q R : Mat K).

Lemma bigsum_ext l f g :
  (∀ i, i ∈ l → f i = g i) → bigsum l f = bigsum l g.
Proof.
  induction l as [|i l IH]; intros H; simpl; [done|].
  rewrite (H i) by left. rewrite IH; [done|]. intros j Hj. apply H. by right.
Qed.

Lemma bigsum_perm l l' f : l ≡ₚ l' → bigsum l f = bigsum l' f.
Proof. induction 1; simpl; [done | congruence | ring | congruence]. Qed.

Lemma bigsum_fmap (h : nat → nat) l f :
  bigsum (h <$> l) f = bigsum l (λ i, f (h i)).
Proof. induction l as [|i l IH]; csimpl; [done | by rewrite IH]. Qed.

Lemma bigsum_zero l : @bigsum K l (λ _, 0%K) = 0%K.
Proof. induction l as [|i l IH]; simpl; [done|]. rewrite IH. ring. Qed.

Lemma bigsum_add l f g :
  bigsum l (λ i, f i + g i)%K = (bigsum l f + bigsum l g)%K.
Proof. induction l as [|i l IH]; simpl; [ring|]. rewrite IH. ring. Qed.

Lemma bigsum_scale_l l (c : K) f :
  bigsum l (λ i, c * f i)%K = (c * bigsum l f)%K.
Proof. induction l as [|i l IH]; simpl; [ring|]. rewrite IH. ring. Qed.

Lemma bigsum_scale_r l (c : K) f :
  bigsum l (λ i, f i * c)%K = (bigsum l f * c)%K.
Proof. induction l as [|i l IH]; simpl; [ring|]. rewrite IH. ring. Qed.

Lemma bigsum_swap l l' (h : nat → nat → K) :
  bigsum l (λ i, bigsum l' (λ j, h i j)) =
  bigsum l' (λ j, bigsum l (λ i, h i j)).
Proof.
  induction l as [|i l IH]; simpl.
  - by rewrite bigsum_zero.
  - by rewrite IH, bigsum_add.
Qed.

(** A sum against a row of the identity picks one term. *)
Lemma bigsum_eye l i f :
  NoDup l → i ∈ l → bigsum l (λ k, eye i k * f k)%K = f i.
Proof.
  induction l as [|k l IH]; intros Hnd Hi; simpl.
  - by apply elem_of_nil in Hi.
  - apply NoDup_cons in Hnd as [Hk Hnd]. unfold eye at 1.
    destruct (decide (i = k)) as [->|Hne].
    + rewrite (bigsum_ext l _ (λ _, 0%K)).
      * rewrite bigsum_zero. ring.
      * intros j Hj. unfold eye. rewrite decide_False by (intros ->; done). ring.
    + apply elem_of_cons in Hi as [?|Hi]; [done|]. rewrite IH by done. ring.
Qed.

Lemma bigsum_eye_seq n i f :
  i < n → bigsum (seq 0 n) (λ k, eye i k * f k)%K = f i.
Proof.
  intros Hi. apply bigsum_eye; [apply NoDup_seq | apply elem_of_seq; lia].
Qed.

(** Summation over [0 .. n-1] may follow a permutation. *)
Lemma bigsum_reindex n v f :
  is_perm n v → bigsum (seq 0 n) f = bigsum (seq 0 n) (λ k, f (ix v k)).
Proof.
  intros H. rewrite <- (bigsum_fmap (ix v) (seq 0 n) f). apply bigsum_perm. symmetry.
  by apply is_perm_ix_seq.
Qed.

Lemma mtimes_ext n A A' B B' i j :
  (∀ k, k < n → A i k = A' i k) → (∀ k, k < n → B k j = B' k j) →
  mtimes n A B i j = mtimes n A' B' i j.
Proof.
  intros HA HB. unfold mtimes. apply bigsum_ext. intros k Hk.
  apply elem_of_seq in Hk. rewrite HA, HB by lia. done.
Qed.

(** [(A·B)·x = A·(B·x)] entrywise. *)
Lemma mtimes_assoc n A B (x : Mat K) i j :
  mtimes n (mtimes n A B) x i j = mtimes n A (mtimes n B x) i j.
Proof.
  unfold mtimes.
  rewrite (bigsum_ext _ _ (λ k, bigsum (seq 0 n) (λ h, A i h * B h k * x k j)%K)).
  2:{ intros k _. by rewrite <- bigsum_scale_r. }
  rewrite bigsum_swap. apply bigsum_ext. intros h _.
  rewrite <- bigsum_scale_l. apply bigsum_ext. intros k _. ring.
Qed.

Lemma mtimes_eye_l n (x : Mat K) i j : i < n → mtimes n eye x i j = x i j.
Proof. intros Hi. unfold mtimes. apply (bigsum_eye_seq n i (λ k, x k j) Hi). Qed.

(** *** Permute, solve, un-permute

    With [Q·R = A(rowperm, colperm)] and [Q·Qᵗ = I], a solution [y] of
    [R·y = Qᵗ·b(rowperm)] read through the inverted column permutation
    solves [A·x = b]. *)
Lemma permute_solve_unpermute n A rowperm colperm Q R (b y : Mat K) c :
  is_perm n rowperm → is_perm n colperm →
  mat_eq n n (mtimes n Q R) (getSub A rowperm colperm) →
  mat_eq n n (mtimes n Q (T Q)) eye →
  (∀ k, k < n → mtimes n R y k c = mtimes n (T Q) (getRows b rowperm) k c) →
  ∀ i, i < n → mtimes n A (getRows y (invert colperm)) i c = b i c.
Proof.
  intros Hr Hc HQR HQ Hy.
  assert (∀ i, i < n →
    mtimes n (getSub A rowperm colperm) y i c = getRows b rowperm i c) as Hperm.
  { intros i Hi.
    rewrite <- (mtimes_ext n (mtimes n Q R) _ y y i c) by (intros; by try apply HQR).
    rewrite mtimes_assoc.
    rewrite (mtimes_ext n Q Q _ (mtimes n (T Q) (getRows b rowperm)) i c)
      by (intros; by try apply Hy).
    rewrite <- mtimes_assoc.
    rewrite (mtimes_ext n _ eye _ (getRows b rowperm) i c) by (intros; by try apply HQ).
    by apply mtimes_eye_l. }
  intros i Hi.
  rewrite <- (invert_right n rowperm i Hr Hi).
  set (i' := ix (invert rowperm) i).
  assert (i' < n) as Hi'.
  { apply is_perm_ix_lt; [by apply invert_is_perm | done]. }
  change (b (ix rowperm i') c) with (getRows b rowperm i' c).
  rewrite <- (Hperm i' Hi'). unfold mtimes.
  rewrite (bigsum_reindex n colperm _ Hc). apply bigsum_ext. intros k Hk.
  apply elem_of_seq in Hk. unfold getSub, getRows.
  rewrite (invert_left n colperm k Hc) by lia. done.
Qed.

(** The transposed system: with [Qᵗ·Q = I], a solution [z] of
    [Rᵗ·z = b(colperm)], multiplied by [Q] and read through the inverted
    row permutation, solves [Aᵗ·x = b]. *)
Lemma permute_solve_unpermute_T n A rowperm colperm Q R (b z : Mat K) c :
  is_perm n rowperm → is_perm n colperm →
  mat_eq n n (mtimes n Q R) (getSub A rowperm colperm) →
  mat_eq n n (mtimes n (T Q) Q) eye →
  (∀ k, k < n → mtimes n (T R) z k c = getRows b colperm k c) →
  ∀ i, i < n →
    mtimes n (T A) (getRows (mtimes n Q z) (invert rowperm)) i c = b i c.
Proof.
  intros Hr Hc HQR HQ Hz.
  assert (∀ j, j < n →
    mtimes n (T (getSub A rowperm colperm)) (mtimes n Q z) j c =
    getRows b colperm j c) as Hperm.
  { intros j Hj.
    rewrite <- (mtimes_ext n (mtimes n (T R) (T Q)) _ (mtimes n Q z) (mtimes n Q z) j c).
    2:{ intros k Hk. unfold T at 3. rewrite <- HQR by done.
        unfold mtimes, T. apply bigsum_ext. intros h _. ring. }
    2:{ done. }
    rewrite mtimes_assoc.
    rewrite (mtimes_ext n (T R) (T R) _ z j c); [by apply Hz | done |].
    intros k Hk. rewrite <- mtimes_assoc.
    rewrite (mtimes_ext n _ eye z z k c) by (intros; by try apply HQ).
    by apply mtimes_eye_l. }
  intros i Hi.
  rewrite <- (invert_right n colperm i Hc Hi).
  set (i' := ix (invert colperm) i).
  assert (i' < n) as Hi'.
  { apply is_perm_ix_lt; [by apply invert_is_perm | done]. }
  change (b (ix colperm i') c) with (getRows b colperm i' c).
  rewrite <- (Hperm i' Hi'). unfold mtimes at 1 3.
  rewrite (bigsum_reindex n rowperm _ Hr). apply bigsum_ext. intros k Hk.
  apply elem_of_seq in Hk. unfold T, getSub, getRows.
  rewrite (invert_left n rowperm k Hr) by lia. done.
Qed.

End Matrix.

(** ** The core library, as far as [SymbolicQr] calls it

    [Sparsity::btf], [qr], [SX::solve], the storage of a matrix as the
    nonzeros of its pattern and the scratch requirement of a generated
    Function are defined in the core library, outside the files at hand.
    They are taken as they come:
    - [btf s]: the BTF permutations of the compressed pattern [s];
    - [qr n1 n2 A]: the factors [(Q, R)] of the [n1 × n2] matrix [A];
    - [SXsolve n A b]: the solution of the [n × n] system [A·x = b];
    - [nonzeros s M]: the nonzero buffer of [M] stored with pattern [s];
      [matrix s v]: the matrix with pattern [s] and nonzero buffer [v];
      [nnz s]: the number of nonzeros of [s];
    - [Q_sparsity s], [R_sparsity s]: the patterns of the symbolic factors
      of the permuted placeholder of pattern [s];
    - [work name s]: the scratch requirement of the Function [name]
      generated for pattern [s]. *)

Record Btf : Type := mkBtf {
  rowperm : list Z;
  colperm : list Z
}.

Record Work : Type := mkWork {
  work_arg : nat;
  work_res : nat;
  work_iw : nat;
  work_w : nat
}.

Record Core (K : Scalar) : Type := mkCore {
  btf : list Z → Btf;
  qr : nat → nat → Mat K → Mat K * Mat K;
  SXsolve : nat → Mat K → Mat K → Mat K;
  nonzeros : list Z → Mat K → list K;
  matrix : list Z → list K → Mat K;
  nnz : list Z → nat;
  Q_sparsity : list Z → list Z;
  R_sparsity : list Z → list Z;
  work : string → list Z → Work
}.

Arguments mkCore {K}.
Arguments btf {K}.
Arguments qr {K}.
Arguments SXsolve {K}.
Arguments nonzeros {K}.
Arguments matrix {K}.
Arguments nnz {K}.
Arguments Q_sparsity {K}.
Arguments R_sparsity {K}.
Arguments work {K}.

(** Modelled from the spec: [Sparsity::size1] and [Sparsity::size2] of the
    pattern built by [Sparsity::compressed], whose compressed form starts
    with the row count and the column count. *)
Definition size1 (s : list Z) : nat := Z.to_nat (nth 0 s 0%Z).

Definition size2 (s : list Z) : nat := Z.to_nat (nth 1 s 0%Z).

(** [Function(name, ins, outs, fopts_)]: the generated Function with its
    arities, the nonzero counts of its outputs, its scratch requirement and
    the numeric meaning of its symbolic outputs. *)
Definition generated {K : Scalar} (name : string) (n_in n_out : nat)
    (nnz_out : nat → nat) (wk : Work)
    (eval : list (list K) → list (list K)) : Function K :=
  mkFunction name n_in n_out nnz_out
    (work_arg wk) (work_res wk) (work_iw wk) (work_w wk) eval.

(** ** Options and errors

    [casadi_error(msg)] throws; a method that may throw returns a [result].
    A [Dict] is a [std::map<std::string, GenericType>], visited in the
    order of its keys: a list of entries.  [GenericType] and its
    conversions are declared in the core library; they are parameters, and
    a conversion may throw. *)

Inductive result (A : Type) : Type :=
  | Ok (a : A)
  | Error (msg : string).

Arguments Ok {A} a.
Arguments Error {A} msg.

#[global] Instance result_bind : MBind result :=
  λ A B f r, match r with Ok a => f a | Error msg => Error msg end.

Definition is_error {A : Type} (r : result A) : Prop := ∃ msg, r = Error msg.

(** The double-quote character, for messages that quote a name. *)
Definition dq : string := String (Ascii.ascii_of_nat 34) EmptyString.

Record GenericOps (G F : Type) : Type := mkGenericOps {
  to_bool : G → result bool;
  to_int : G → result Z;
  to_double : G → result F;
  to_dict : G → result (list (string * G))
}.

Arguments to_bool {G F}.
Arguments to_int {G F}.
Arguments to_double {G F}.
Arguments to_dict {G F}.

Inductive OptionType : Type :=
  | OT_BOOL
  | OT_STRING
  | OT_DICT.

(** An option table, as the two [options_] initializers build it:
    [{{&Base::options_}, {{name, {type, description}}, ...}}], the tables
    of the base classes and the entries of the class itself. *)
#[local] Unset Elimination Schemes.
Inductive Options : Type :=
  | mkOptions (bases : list Options)
              (entries : list (string * (OptionType * string))).
#[local] Set Elimination Schemes.

(** Modelled from the spec: the "recognized keys" of a class, those that
    its table lists and those that the tables of its base classes list. *)
Fixpoint recognized (table : Options) : list string :=
  match table with
  | mkOptions bases entries => entries.*1 ++ concat (recognized <$> bases)
  end.

(** Modelled from the spec: the text of the error for a key that no option
    table lists ([UnknownOptionError], "a descriptive error"); the reader
    of the tables is in the core library, not among the sources. *)
Definition unknown_option_error (key : string) : string :=
  "UnknownOptionError: " +:+ key.

(** Modelled from the spec: the validation of the keys of a dictionary
    against the option table of a class, which the core library performs
    and the sources do not contain: "unknown keys fail with
    [UnknownOptionError]", "detected eagerly at ... init time and abort
    that operation with a descriptive error".  The keys are visited in the
    order of the dictionary and the first one that the table does not list
    aborts. *)
Fixpoint check_options {G : Type} (table : Options)
    (opts : list (string * G)) : result unit :=
  match opts with
  | [] => Ok tt
  | (key, _) :: opts' =>
      if decide (key ∈ recognized table) then check_options table opts'
      else Error (unknown_option_error key)
  end.

Lemma check_options_accepts {G : Type} table (opts : list (string * G)) :
  (∀ key, key ∈ opts.*1 → key ∈ recognized table) →
  check_options table opts = Ok tt.
Proof.
  induction opts as [|[key value] opts IH]; intros H; [done|]. simpl.
  rewrite decide_True by (apply H; left).
  apply IH. intros key' Hin. apply H. by right.
Qed.

Lemma check_options_first_unknown {G : Type} table
    (pre post : list (string * G)) key value :
  (∀ k, k ∈ pre.*1 → k ∈ recognized table) → key ∉ recognized table →
  check_options table (pre ++ (key, value) :: post) =
    Error (unknown_option_error key).
Proof.
  induction pre as [|[k v] pre IH]; intros Hpre Hkey; simpl.
  - by rewrite decide_False.
  - rewrite decide_True by (apply Hpre; left).
    apply IH; [|done]. intros k' Hin. apply Hpre. by right.
Qed.

Lemma check_options_rejects {G : Type} table (opts : list (string * G)) key :
  key ∈ opts.*1 → key ∉ recognized table →
  is_error (check_options table opts).
Proof.
  induction opts as [|[k v] opts IH]; intros Hin Hkey; simpl in *.
  - by apply elem_of_nil in Hin.
  - case_decide as Hk; [|by eexists].
    apply elem_of_cons in Hin as [->|Hin]; [done | by apply IH].
Qed.

(** ** SymbolicQr *)

Module SymbolicQr.

Module M := SymbolicQrMemory.

(** *** Initialization *)

(** The member [init] writes, [fopts_], with the state [base] of the base
    classes, which holds the members [compilerplugin_] and
    [jit_options_]. *)
Record t (G B : Type) : Type := mk {
  base : B;
  fopts : gmap string G
}.

Arguments mk {G B}.
Arguments base {G B}.
Arguments fopts {G B}.

(** [SymbolicQr::options_]: the table of [FunctionInternal] and the two
    options the class declares. *)
Definition options_ (FunctionInternal_options : Options) : Options :=
  mkOptions [FunctionInternal_options]
    [("codegen", (OT_BOOL, "C-code generation"));
     ("compiler",
      (OT_STRING, "Compiler command to be used for compiling generated code"))].

Definition compiler_removed : string :=
  "Option " +:+ dq +:+ "compiler" +:+ dq +:+ " has been removed".

Section Init.
Context {G F B : Type} (ops : GenericOps G F).
Context (LinsolInternal_init : B → list (string * G) → result B).
Context (compilerplugin_ jit_options_ : B → G).

(** The loop [for (auto&& op : opts)]: [codegen = op.second] on the key
    [codegen], [casadi_error] on the key [compiler], nothing on any other
    key. *)
Fixpoint read_options (opts : list (string * G)) (codegen : bool)
    : result bool :=
  match opts with
  | [] => Ok codegen
  | (key, value) :: opts' =>
      if String.eqb key "codegen" then
        b ← to_bool ops value; read_options opts' b
      else if String.eqb key "compiler" then
        Error compiler_removed
      else read_options opts' codegen
  end.

(** [if (codegen) { fopts_["compiler"] = compilerplugin_;
    fopts_["jit_options"] = jit_options_; }], the two members being read
    from the base class state. *)
Definition codegen_options (codegen : bool) (o : t G B) : t G B :=
  if codegen then
    mk (base o)
       (<["jit_options" := jit_options_ (base o)]>
          (<["compiler" := compilerplugin_ (base o)]> (fopts o)))
  else o.

(** [SymbolicQr::init]: the base class initializer on the dictionary, then
    the loop over the same dictionary, then the code generation options,
    read from the state the base class initializer left. *)
Definition init (o : t G B) (opts : list (string * G)) : result (t G B) :=
  b ← LinsolInternal_init (base o) opts;
  let o := mk b (fopts o) in
  codegen ← read_options opts false;
  Ok (codegen_options codegen o).

(** Modelled from the spec: the initialization of a [SymbolicQr] with a
    dictionary, as the core library drives it: the validation of the keys
    against the option table, then [init]. *)
Definition construct (FunctionInternal_options : Options)
    (o : t G B) (opts : list (string * G)) : result (t G B) :=
  _ ← check_options (options_ FunctionInternal_options) opts;
  init o opts.

Lemma read_options_compiler opts : ∀ codegen,
  "compiler" ∈ opts.*1 → is_error (read_options opts codegen).
Proof.
  induction opts as [|[key value] opts IH]; intros codegen Hin; simpl in *.
  - by apply elem_of_nil in Hin.
  - destruct (String.eqb_spec key "codegen") as [->|Hc].
    + apply elem_of_cons in Hin as [Hin|Hin]; [done|].
      destruct (to_bool ops value) as [b|msg]; simpl; [by apply IH | by eexists].
    + destruct (String.eqb_spec key "compiler") as [->|Hk]; [by eexists|].
      apply elem_of_cons in Hin as [Hin|Hin]; [done | by apply IH].
Qed.

(** With every value of [codegen] convertible, the loop ends at the key
    [compiler] with the message that the option has been removed. *)
Lemma read_options_compiler_removed opts : ∀ codegen,
  "compiler" ∈ opts.*1 →
  (∀ value, ("codegen", value) ∈ opts → ∃ c, to_bool ops value = Ok c) →
  read_options opts codegen = Error compiler_removed.
Proof.
  induction opts as [|[key value] opts IH]; intros codegen Hin Hconv; simpl in *.
  - by apply elem_of_nil in Hin.
  - destruct (String.eqb_spec key "codegen") as [->|Hc].
    + apply elem_of_cons in Hin as [Hin|Hin]; [done|].
      destruct (Hconv value) as [c ->]; [left|]. simpl.
      apply IH; [done|]. intros v Hv. apply Hconv. by right.
    + destruct (String.eqb_spec key "compiler") as [->|Hk]; [done|].
      apply elem_of_cons in Hin as [Hin|Hin]; [done|].
      apply IH; [done|]. intros v Hv. apply Hconv. by right.
Qed.

(** A key other than the two is passed over. *)
Lemma read_options_other key value opts codegen :
  key ≠ "codegen" → key ≠ "compiler" →
  read_options ((key, value) :: opts) codegen = read_options opts codegen.
Proof.
  intros Hc Hk. simpl.
  destruct (String.eqb_spec key "codegen"); [done|].
  by destruct (String.eqb_spec key "compiler").
Qed.

(** A dictionary without the two keys leaves [codegen] as it was. *)
Lemma read_options_passes_over opts codegen :
  (∀ key, key ∈ opts.*1 → key ≠ "codegen" ∧ key ≠ "compiler") →
  read_options opts codegen = Ok codegen.
Proof.
  induction opts as [|[key value] opts IH]; intros H; [done|].
  destruct (H key) as [Hc Hk]; [left|].
  rewrite read_options_other by done. apply IH.
  intros key' Hin. apply H. by right.
Qed.

Lemma init_linsol_error o opts msg :
  LinsolInternal_init (base o) opts = Error msg → init o opts = Error msg.
Proof. intros H. unfold init. by rewrite H. Qed.

Lemma init_compiler o opts :
  "compiler" ∈ opts.*1 → is_error (init o opts).
Proof.
  intros Hin. unfold init.
  destruct (LinsolInternal_init (base o) opts) as [b|msg]; simpl; [|by eexists].
  destruct (read_options_compiler opts false Hin) as [msg ->]. by eexists.
Qed.

Lemma init_compiler_removed o opts b :
  LinsolInternal_init (base o) opts = Ok b →
  "compiler" ∈ opts.*1 →
  (∀ value, ("codegen", value) ∈ opts → ∃ c, to_bool ops value = Ok c) →
  init o opts = Error compiler_removed.
Proof.
  intros Hb Hin Hconv. unfold init. rewrite Hb. simpl.
  by rewrite read_options_compiler_removed.
Qed.

(** The loop on a dictionary that holds the key [codegen] and not the key
    [compiler]: the value of [codegen] is converted, and the loop reads
    nothing else. *)
Lemma read_options_codegen opts : ∀ codegen value,
  NoDup opts.*1 → "compiler" ∉ opts.*1 → ("codegen", value) ∈ opts →
  read_options opts codegen =
    match to_bool ops value with Ok c => Ok c | Error msg => Error msg end.
Proof.
  induction opts as [|[k v] opts IH]; intros codegen value Hnd Hc Hin.
  { by apply elem_of_nil in Hin. }
  simpl in Hnd, Hc. apply NoDup_cons in Hnd as [Hk Hnd].
  apply not_elem_of_cons in Hc as [Hkc Hc].
  apply elem_of_cons in Hin as [Heq|Hin].
  - injection Heq as <- <-. simpl.
    destruct (to_bool ops value) as [c|msg]; simpl; [|done].
    apply read_options_passes_over. intros key Hkey. split.
    + intros ->. by apply Hk.
    + intros ->. by apply Hc.
  - assert (k ≠ "codegen") as Hne.
    { intros ->. apply Hk. apply list_elem_of_fmap. by exists ("codegen", value). }
    rewrite read_options_other by done. by apply IH.
Qed.

Lemma init_codegen o opts b value :
  NoDup opts.*1 → "compiler" ∉ opts.*1 → ("codegen", value) ∈ opts →
  LinsolInternal_init (base o) opts = Ok b →
  init o opts =
    match to_bool ops value with
    | Ok c => Ok (codegen_options c (mk b (fopts o)))
    | Error msg => Error msg
    end.
Proof.
  intros Hnd Hc Hin Hb. unfold init. rewrite Hb. simpl.
  rewrite (read_options_codegen opts false value Hnd Hc Hin).
  by destruct (to_bool ops value).
Qed.

(** Past the validation of its keys, [init] runs. *)
Lemma construct_init parent o opts :
  (∀ key, key ∈ opts.*1 → key ∈ recognized (options_ parent)) →
  construct parent o opts = init o opts.
Proof. intros H. unfold construct. by rewrite check_options_accepts. Qed.

Lemma construct_first_unknown parent o pre post key value :
  (∀ k, k ∈ pre.*1 → k ∈ recognized (options_ parent)) →
  key ∉ recognized (options_ parent) →
  construct parent o (pre ++ (key, value) :: post) =
    Error (unknown_option_error key).
Proof.
  intros Hpre Hkey. unfold construct.
  by rewrite check_options_first_unknown.
Qed.

Lemma construct_rejects parent o opts key :
  key ∈ opts.*1 → key ∉ recognized (options_ parent) →
  is_error (construct parent o opts).
Proof.
  intros Hin Hkey. unfold construct.
  destruct (check_options_rejects (options_ parent) opts key Hin Hkey)
    as [msg ->].
  by eexists.
Qed.

(** X4. [init] on any dictionary (a [std::map]: no key twice) that holds
    the key [codegen] and not the key [compiler], the base class
    initializer returning normally on it with the state [b]: the loop of
    [init] reads the value of [codegen] and no other entry, the other keys
    counting only through the base class initializer.  When the value does
    not convert to [bool] the conversion error is the result; otherwise
    the result is the object with the base class state [b], in which, when
    the value is true, [fopts_] has under [compiler] and [jit_options] the
    members [compilerplugin_] and [jit_options_] as the base class
    initializer left them and is unchanged at every other key, and, when
    it is false, [fopts_] is unchanged. *)
Theorem init_reads_codegen (o : t G B) opts b value :
  NoDup opts.*1 → "compiler" ∉ opts.*1 → ("codegen", value) ∈ opts →
  LinsolInternal_init (base o) opts = Ok b →
  match to_bool ops value with
  | Error msg => init o opts = Error msg
  | Ok c =>
      ∃ o', init o opts = Ok o' ∧ base o' = b ∧
        if c then
          fopts o' !! "compiler" = Some (compilerplugin_ b) ∧
          fopts o' !! "jit_options" = Some (jit_options_ b) ∧
          ∀ key, key ≠ "compiler" → key ≠ "jit_options" →
            fopts o' !! key = fopts o !! key
        else fopts o' = fopts o
  end.
Proof.
  intros Hnd Hc Hin Hb. unfold init. rewrite Hb. simpl.
  rewrite (read_options_codegen opts false value Hnd Hc Hin).
  destruct (to_bool ops value) as [c|msg]; simpl; [|done].
  eexists. split; [reflexivity|].
  destruct c; simpl; [|done].
  split; [done|]. split; [|split].
  - rewrite lookup_insert_ne by done. by rewrite lookup_insert_eq.
  - by rewrite lookup_insert_eq.
  - intros key H1 H2. by rewrite !lookup_insert_ne.
Qed.

End Init.

(** One invocation of a Function: its name and the input buffers. *)
Definition Call (K : Scalar) : Type := string * list (list K).

Section Solver.
Context {K : Scalar}.
Implicit Types (m : M.t K) (C : Core K).

Definition set_sparsity m (s : list Z) : M.t K :=
  M.mk s (M.arg m) (M.res m) (M.iw m) (M.w m)
    (M.factorize m) (M.solve m) (M.solveT m) (M.q m) (M.r m).

Definition set_arg m (a : list ptr) : M.t K :=
  M.mk (M.sparsity m) a (M.res m) (M.iw m) (M.w m)
    (M.factorize m) (M.solve m) (M.solveT m) (M.q m) (M.r m).

Definition set_res m (a : list ptr) : M.t K :=
  M.mk (M.sparsity m) (M.arg m) a (M.iw m) (M.w m)
    (M.factorize m) (M.solve m) (M.solveT m) (M.q m) (M.r m).

Definition set_w m (v : list K) : M.t K :=
  M.mk (M.sparsity m) (M.arg m) (M.res m) (M.iw m) v
    (M.factorize m) (M.solve m) (M.solveT m) (M.q m) (M.r m).

Definition set_factorize m (f : Function K) : M.t K :=
  M.mk (M.sparsity m) (M.arg m) (M.res m) (M.iw m) (M.w m)
    f (M.solve m) (M.solveT m) (M.q m) (M.r m).

Definition set_solve m (f : Function K) : M.t K :=
  M.mk (M.sparsity m) (M.arg m) (M.res m) (M.iw m) (M.w m)
    (M.factorize m) f (M.solveT m) (M.q m) (M.r m).

Definition set_solveT m (f : Function K) : M.t K :=
  M.mk (M.sparsity m) (M.arg m) (M.res m) (M.iw m) (M.w m)
    (M.factorize m) (M.solve m) f (M.q m) (M.r m).

Definition set_q m (v : list K) : M.t K :=
  M.mk (M.sparsity m) (M.arg m) (M.res m) (M.iw m) (M.w m)
    (M.factorize m) (M.solve m) (M.solveT m) v (M.r m).

Definition set_r m (v : list K) : M.t K :=
  M.mk (M.sparsity m) (M.arg m) (M.res m) (M.iw m) (M.w m)
    (M.factorize m) (M.solve m) (M.solveT m) (M.q m) v.

(** The Function [QR_fact]: [{A} ↦ {Q1, R1}] with
    [Aperm = A(btf.rowperm, btf.colperm)] and [qr(Aperm, Q1, R1)]. *)
Definition QR_fact C (s : list Z) : Function K :=
  let bt := btf C s in
  generated "QR_fact" 1 2
    (λ i, match i with
          | 0 => nnz C (Q_sparsity C s)
          | 1 => nnz C (R_sparsity C s)
          | _ => 0
          end)
    (work C "QR_fact" s)
    (λ args,
       let A := matrix C s (nth 0 args []) in
       let Aperm := getSub A (rowperm bt) (colperm bt) in
       let QR := qr C (size1 s) (size2 s) Aperm in
       [nonzeros C (Q_sparsity C s) (fst QR);
        nonzeros C (R_sparsity C s) (snd QR)]).

(** The Function [QR_solv]: [{Q, R, b} ↦ {x}] with
    [bperm = b(btf.rowperm, Slice())],
    [xperm = SX::solve(R, mtimes(Q.T(), bperm))] and
    [x = xperm(inv_colperm, Slice())]. *)
Definition QR_solv C (s : list Z) : Function K :=
  let bt := btf C s in
  let inv_colperm := invert (colperm bt) in
  generated "QR_solv" 3 1 (λ _, length inv_colperm)
    (work C "QR_solv" s)
    (λ args,
       let Q := matrix C (Q_sparsity C s) (nth 0 args []) in
       let R := matrix C (R_sparsity C s) (nth 1 args []) in
       let b := column (nth 2 args []) in
       let bperm := getRows b (rowperm bt) in
       let xperm := SXsolve C (size2 s) R (mtimes (size1 s) (T Q) bperm) in
       let x := getRows xperm inv_colperm in
       [column_nonzeros (length inv_colperm) x]).

(** The Function [QR_solv_T]: [{Q, R, b} ↦ {x}] with
    [bperm = b(btf.colperm, Slice())],
    [xperm = mtimes(Q, SX::solve(R.T(), bperm))] and
    [x = xperm(inv_rowperm, Slice())]. *)
Definition QR_solv_T C (s : list Z) : Function K :=
  let bt := btf C s in
  let inv_rowperm := invert (rowperm bt) in
  generated "QR_solv_T" 3 1 (λ _, length inv_rowperm)
    (work C "QR_solv_T" s)
    (λ args,
       let Q := matrix C (Q_sparsity C s) (nth 0 args []) in
       let R := matrix C (R_sparsity C s) (nth 1 args []) in
       let b := column (nth 2 args []) in
       let bperm := getRows b (colperm bt) in
       let xperm := mtimes (size2 s) Q (SXsolve C (size2 s) (T R) bperm) in
       let x := getRows xperm inv_rowperm in
       [column_nonzeros (length inv_rowperm) x]).

(** [SymbolicQr::reset]: the base class stores the pattern; the three
    Functions are generated and allocated for in turn; [w] grows by
    [s.size1()] entries for the temporary; [q] and [r] take the sizes of
    the two outputs of [QR_fact]. *)
Definition reset C m (sp : list Z) : M.t K :=
  let m := set_sparsity m sp in
  let s := M.sparsity m in
  let m := set_factorize m (QR_fact C s) in
  let m := M.alloc m (M.factorize m) in
  let m := set_solve m (QR_solv C s) in
  let m := M.alloc m (M.solve m) in
  let m := set_solveT m (QR_solv_T C s) in
  let m := M.alloc m (M.solveT m) in
  let m := set_w m (resize (length (M.w m) + size1 s) 0%K (M.w m)) in
  let m := set_q m (resize (nnz_out (M.factorize m) 0) 0%K (M.q m)) in
  set_r m (resize (nnz_out (M.factorize m) 1) 0%K (M.r m)).

(** [SymbolicQr::factorize]: [arg[0] = A], [res[0] = q], [res[1] = r], then
    the call of [m->factorize], which writes its two outputs where [res]
    points: over the stored factors.  The method returns [void]. *)
Definition factorize m (A : list K) : M.t K :=
  let f := M.factorize m in
  let m := set_arg m (<[0 := ptr_A]> (fill_n (n_in f) nullptr (M.arg m))) in
  let m := set_res m (<[1 := ptr_r]> (<[0 := ptr_q]>
                        (fill_n (n_out f) nullptr (M.res m)))) in
  let out := eval f [A] in
  let m := set_q m (list_inserts 0 (nth 0 out []) (M.q m)) in
  set_r m (list_inserts 0 (nth 1 out []) (M.r m)).

(** One pass of the loop of [SymbolicQr::solve], [x] having been advanced
    to offset [off]: [copy_n(x, nrow, w)], [arg[2] = w], [res[0] = x], the
    call of [solv] with scratch [w + nrow], which writes the solution where
    [res[0]] points. *)
Definition solve_one (solv : Function K) m (x : list K) (off : nat)
    : M.t K * list K * Call K :=
  let m := set_w m (list_inserts 0 (take (M.nrow m) (drop off x)) (M.w m)) in
  let m := set_arg m (<[2 := ptr_w 0]> (M.arg m)) in
  let m := set_res m (<[0 := ptr_x off]> (M.res m)) in
  let ins := [M.q m; M.r m; take (M.nrow m) (M.w m)] in
  let out := eval solv ins in
  (m, list_inserts off (nth 0 out []) x, (name solv, ins)).

(** The loop [for (int i=0; i<nrhs; ++i) { ...; x += m->nrow(); }] with
    [count] passes left; the invocations are recorded in order. *)
Fixpoint solve_loop (solv : Function K) (count : nat) m (x : list K)
    (off : nat) : M.t K * list K * list (Call K) :=
  match count with
  | 0 => (m, x, [])
  | S count' =>
      let '(m1, x1, c) := solve_one solv m x off in
      let '(m2, x2, cs) := solve_loop solv count' m1 x1 (off + M.nrow m) in
      (m2, x2, c :: cs)
  end.

(** [SymbolicQr::solve]. *)
Definition solve m (x : list K) (nrhs : Z) (tr : bool)
    : M.t K * list K * list (Call K) :=
  let solv := if tr then M.solveT m else M.solve m in
  let m := set_arg m (<[1 := ptr_r]> (<[0 := ptr_q]>
                        (fill_n (n_in solv) nullptr (M.arg m)))) in
  let m := set_res m (fill_n (n_out solv) nullptr (M.res m)) in
  solve_loop solv (Z.to_nat nrhs) m x 0.

(** The [i]-th right-hand side of a buffer of contiguous vectors. *)
Definition segment (n : nat) (x : list K) (i : nat) : list K :=
  take n (drop (i * n) x).

Lemma length_segment n (x : list K) i :
  i * n + n ≤ length x → length (segment n x i) = n.
Proof. intros H. unfold segment. rewrite length_take, length_drop. lia. Qed.

(** *** The loop of [solve] *)

(** The solution of one right-hand side [b], as the selected Function
    computes it from the stored factors. *)
Definition solution (solv : Function K) m (b : list K) : list K :=
  nth 0 (eval solv [M.q m; M.r m; b]) [].

Lemma solve_loop_S (solv : Function K) count m x off :
  solve_loop solv (S count) m x off =
  let '(m1, x1, c) := solve_one solv m x off in
  let '(m2, x2, cs) := solve_loop solv count m1 x1 (off + M.nrow m) in
  (m2, x2, c :: cs).
Proof. reflexivity. Qed.

Lemma solve_loop_spec (solv : Function K) : ∀ count m x off,
  (∀ ins, length (nth 0 (eval solv ins) []) = M.nrow m) →
  M.nrow m ≤ length (M.w m) →
  off + count * M.nrow m ≤ length x →
  ∃ m',
    solve_loop solv count m x off =
      (m',
       take off x ++
       concat ((λ i, solution solv m (take (M.nrow m) (drop (off + i * M.nrow m) x)))
                 <$> seq 0 count) ++
       drop (off + count * M.nrow m) x,
       (λ i, (name solv,
              [M.q m; M.r m; take (M.nrow m) (drop (off + i * M.nrow m) x)]))
         <$> seq 0 count) ∧
    M.q m' = M.q m ∧ M.r m' = M.r m ∧ M.sparsity m' = M.sparsity m ∧
    M.factorize m' = M.factorize m ∧ M.solve m' = M.solve m ∧
    M.solveT m' = M.solveT m ∧ M.sizes m' = M.sizes m.
Proof.
  induction count as [|count IH]; intros m x off Hout Hw Hx.
  - exists m. simpl. rewrite Nat.add_0_r, take_drop. done.
  - set (n := M.nrow m) in *.
    set (b := take n (drop off x)).
    assert (length b = n) as Hb.
    { unfold b. rewrite length_take, length_drop. lia. }
    set (m1 := set_res (set_arg (set_w m (list_inserts 0 b (M.w m)))
                          (<[2 := ptr_w 0]> (M.arg m)))
                 (<[0 := ptr_x off]> (M.res m))).
    assert (take n (list_inserts 0 b (M.w m)) = b) as Hw1.
    { rewrite <- Hb at 1. apply take_list_inserts_0. lia. }
    set (x1 := list_inserts off (solution solv m b) x).
    assert (solve_one solv m x off = (m1, x1, (name solv, [M.q m; M.r m; b]))) as Hone.
    { unfold solve_one, x1, solution. fold n. fold b. simpl. fold b.
      change (M.nrow _) with n. rewrite Hw1. done. }
    assert (length (solution solv m b) = n) as Hsol by apply Hout.
    assert (x1 = take off x ++ solution solv m b ++ drop (off + n) x) as Hx1.
    { unfold x1. rewrite list_inserts_split by lia. by rewrite Hsol. }
    destruct (IH m1 x1 (off + n)) as (m' & Hloop & Hq & Hr & Hs & Hf & Hsv & HsT & Hsz).
    { done. }
    { simpl. rewrite length_inserts. done. }
    { change (M.nrow m1) with n. rewrite Hx1, !length_app, length_take, length_drop. lia. }
    assert (take (off + n) x1 = take off x ++ solution solv m b) as Ha.
    { rewrite Hx1, app_assoc. rewrite take_app_length'; [done|].
      rewrite length_app, length_take. lia. }
    assert (∀ j, drop (off + n + j) x1 = drop (off + n + j) x) as Hc.
    { intros j. rewrite Hx1, app_assoc.
      rewrite drop_app_ge by (rewrite length_app, length_take; lia).
      rewrite length_app, length_take, Hsol, drop_drop. f_equal. lia. }
    assert (∀ i, take n (drop (off + n + i * n) x1) =
                 take n (drop (off + S i * n) x)) as Hseg.
    { intros i. rewrite Hc. do 2 f_equal. lia. }
    exists m'. split.
    + rewrite solve_loop_S, Hone. change (M.nrow m1) with n in Hloop.
      fold n. rewrite Hloop, Ha, Hc. clear Hloop.
      replace (off + n + count * n) with (off + S count * n) by lia.
      cbn [seq]. rewrite <- !(fmap_S_seq 0). csimpl.
      rewrite <- !list_fmap_compose, Nat.add_0_r. fold b.
      rewrite <- !app_assoc. simpl.
      apply (f_equal2 pair); [apply (f_equal2 pair); [done|] |].
      * do 2 (apply (f_equal2 app); [done|]).
        apply (f_equal2 app); [|done]. apply (f_equal (@concat K)).
        apply list_fmap_ext. intros j i _. simpl.
        unfold solution. simpl. by rewrite Hseg.
      * apply (f_equal2 cons); [done|].
        apply list_fmap_ext. intros j i _. simpl. by rewrite Hseg.
    + rewrite Hq, Hr, Hs, Hf, Hsv, HsT, Hsz. repeat split; try done.
      unfold M.sizes. simpl. by rewrite length_inserts, !length_insert.
Qed.

(** The loop leaves the stored factors, the pattern, the Functions and the
    array sizes alone, whatever the buffers hold. *)
Lemma solve_loop_frame (solv : Function K) : ∀ count m x off,
  let m' := (solve_loop solv count m x off).1.1 in
  M.q m' = M.q m ∧ M.r m' = M.r m ∧ M.sparsity m' = M.sparsity m ∧
  M.factorize m' = M.factorize m ∧ M.solve m' = M.solve m ∧
  M.solveT m' = M.solveT m ∧ M.sizes m' = M.sizes m.
Proof.
  induction count as [|count IH]; intros m x off; [done|].
  rewrite solve_loop_S.
  destruct (solve_one solv m x off) as [[m1 x1] c] eqn:Hone.
  specialize (IH m1 x1 (off + M.nrow m)).
  destruct (solve_loop solv count m1 x1 (off + M.nrow m)) as [[m2 x2] cs].
  simpl in *. unfold solve_one in Hone. injection Hone as <- _ _.
  destruct IH as (-> & -> & -> & -> & -> & -> & ->). repeat split.
  unfold M.sizes. simpl. by rewrite length_inserts, !length_insert.
Qed.

(** [solve] on a buffer of [count] right-hand sides of [nrow] entries. *)
Lemma solve_spec m (y : list K) (nrhs : Z) (tr : bool) :
  let solv := if tr then M.solveT m else M.solve m in
  let n := M.nrow m in
  let count := Z.to_nat nrhs in
  length y = count * n →
  n ≤ length (M.w m) →
  (∀ ins, length (nth 0 (eval solv ins) []) = n) →
  ∃ m', solve m y nrhs tr =
    (m', concat ((λ i, solution solv m (segment n y i)) <$> seq 0 count),
     (λ i, (name solv, [M.q m; M.r m; segment n y i])) <$> seq 0 count) ∧
    M.q m' = M.q m ∧ M.r m' = M.r m.
Proof.
  intros solv n count Hy Hw Hout.
  set (m0 := set_res (set_arg m (<[1 := ptr_r]> (<[0 := ptr_q]>
               (fill_n (n_in solv) nullptr (M.arg m)))))
               (fill_n (n_out solv) nullptr (M.res m))).
  destruct (solve_loop_spec solv count m0 y 0) as (m' & Hloop & Hq & Hr & _);
    [done | done | change (M.nrow m0) with n; lia |].
  exists m'. split; [|done].
  change (solve m y nrhs tr) with (solve_loop solv count m0 y 0).
  rewrite Hloop.
  change (M.nrow m0) with n. simpl.
  rewrite drop_ge by lia. by rewrite app_nil_r.
Qed.

(** The loop unrolled at its last pass. *)
Lemma solve_loop_snoc (solv : Function K) : ∀ count m x off,
  solve_loop solv (S count) m x off =
  let '(m1, x1, cs) := solve_loop solv count m x off in
  let '(m2, x2, c) := solve_one solv m1 x1 (off + count * M.nrow m) in
  (m2, x2, cs ++ [c]).
Proof.
  induction count as [|count IH]; intros m x off.
  - simpl. rewrite Nat.add_0_r. by destruct (solve_one solv m x off) as [[? ?] ?].
  - rewrite solve_loop_S.
    destruct (solve_one solv m x off) as [[m1 x1] c] eqn:Hone.
    assert (M.nrow m1 = M.nrow m) as Hn.
    { unfold solve_one in Hone. by injection Hone as <- _ _. }
    rewrite IH, solve_loop_S, Hone, Hn.
    destruct (solve_loop solv count m1 x1 (off + M.nrow m)) as [[m2 x2] cs].
    replace (off + M.nrow m + count * M.nrow m) with (off + S count * M.nrow m) by lia.
    by destruct (solve_one solv m2 x2 (off + S count * M.nrow m)) as [[? ?] ?].
Qed.

(** The loop leaves [arg[0]] and [arg[1]] as [solve] set them. *)
Lemma solve_loop_arg (solv : Function K) : ∀ count m x off,
  let m' := (solve_loop solv count m x off).1.1 in
  M.arg m' !! 0 = M.arg m !! 0 ∧ M.arg m' !! 1 = M.arg m !! 1.
Proof.
  induction count as [|count IH]; intros m x off; [done|].
  rewrite solve_loop_S.
  destruct (solve_one solv m x off) as [[m1 x1] c] eqn:Hone.
  specialize (IH m1 x1 (off + M.nrow m)).
  destruct (solve_loop solv count m1 x1 (off + M.nrow m)) as [[m2 x2] cs].
  simpl in *. unfold solve_one in Hone. injection Hone as <- _ _.
  destruct IH as [-> ->]. simpl.
  by rewrite !list_lookup_insert_ne.
Qed.

(** One pass of the loop, entered after [i] passes of [solve]: the [i]-th
    right-hand side is copied to the front of [w], [arg[2]] is set to [w]
    and [res[0]] to the segment, the Function is called on the stored
    factors and on what [w] then holds, and its output is written over the
    segment. *)
Lemma solve_pass m (x : list K) (tr : bool) (count i : nat) :
  let solv := if tr then M.solveT m else M.solve m in
  let n := M.nrow m in
  length x = count * n →
  n ≤ length (M.w m) →
  (∀ ins, length (nth 0 (eval solv ins) []) = n) →
  i < count →
  ∃ m0 x0 cs m1 x1 c,
    solve m x (Z.of_nat i) tr = (m0, x0, cs) ∧
    solve_one solv m0 x0 (i * n) = (m1, x1, c) ∧
    solve m x (Z.of_nat (S i)) tr = (m1, x1, cs ++ [c]) ∧
    M.w m1 = list_inserts 0 (segment n x i) (M.w m0) ∧
    take n (M.w m1) = segment n x i ∧
    M.arg m1 = <[2 := ptr_w 0]> (M.arg m0) ∧
    M.res m1 = <[0 := ptr_x (i * n)]> (M.res m0) ∧
    (3 ≤ length (M.arg m) →
       M.arg m1 !! 0 = Some ptr_q ∧ M.arg m1 !! 1 = Some ptr_r ∧
       M.arg m1 !! 2 = Some (ptr_w 0)) ∧
    (1 ≤ length (M.res m) → M.res m1 !! 0 = Some (ptr_x (i * n))) ∧
    c = (name solv, [M.q m; M.r m; take n (M.w m1)]) ∧
    x1 = list_inserts (i * n) (solution solv m (take n (M.w m1))) x0.
Proof.
  intros solv n Hx Hw Hout Hi.
  set (ms := set_res (set_arg m (<[1 := ptr_r]> (<[0 := ptr_q]>
               (fill_n (n_in solv) nullptr (M.arg m)))))
               (fill_n (n_out solv) nullptr (M.res m))).
  assert (∀ k, solve m x (Z.of_nat k) tr = solve_loop solv k ms x 0) as Hsolve.
  { intros k. unfold solve. by rewrite Nat2Z.id. }
  destruct (solve_loop_spec solv i ms x 0)
    as (m0 & Hloop & Hq & Hr & Hsp & _ & _ & _ & Hsz);
    [done | done | change (M.nrow ms) with n; nia |].
  change (M.nrow ms) with n in Hloop. simpl in Hloop.
  set (x0 := concat ((λ i0, solution solv ms (take n (drop (i0 * n) x))) <$> seq 0 i)
               ++ drop (i * n) x) in *.
  set (cs := (λ i0, (name solv, [M.q ms; M.r ms; take n (drop (i0 * n) x)]))
               <$> seq 0 i) in *.
  assert (M.nrow m0 = n) as Hn0 by (unfold M.nrow; by rewrite Hsp).
  assert (length (M.w m0) = length (M.w m) ∧ length (M.arg m0) = length (M.arg m) ∧
          length (M.res m0) = length (M.res m)) as (Hlw & Hla & Hlr).
  { unfold M.sizes in Hsz. simpl in Hsz. injection Hsz as H1 H2 H3 H4.
    rewrite !length_insert, length_fill_n in H1. rewrite length_fill_n in H2. done. }
  assert (take n (drop (i * n) x0) = segment n x i) as Hseg.
  { unfold x0, segment. rewrite drop_app_length'; [done|].
    rewrite (length_concat_const n).
    - by rewrite length_fmap, length_seq.
    - apply Forall_fmap, Forall_forall. intros j _. apply Hout. }
  assert (length (segment n x i) = n) as Hls by (apply length_segment; nia).
  assert (take n (list_inserts 0 (segment n x i) (M.w m0)) = segment n x i) as Htake.
  { rewrite <- Hls at 1. apply take_list_inserts_0. lia. }
  destruct (solve_one solv m0 x0 (i * n)) as [[m1 x1] c] eqn:Hone.
  pose proof Hone as Hone'.
  unfold solve_one in Hone'. rewrite Hn0, Hseg in Hone'. simpl in Hone'.
  change (M.nrow (set_res _ _)) with (M.nrow m0) in Hone'.
  rewrite Hn0, Hq, Hr, Htake in Hone'. injection Hone' as <- <- <-. simpl.
  exists m0, x0, cs. eexists _, _, _. split; [by rewrite Hsolve|].
  split; [exact Hone|]. split.
  { rewrite Hsolve, solve_loop_snoc, Hloop. change (M.nrow ms) with n.
    lazy beta iota. change (0 + i * n) with (i * n). by rewrite Hone. }
  cbn [M.w M.arg M.res set_res set_arg set_w].
  rewrite Htake.
  split; [done|]. split; [done|]. split; [done|]. split; [done|]. split.
  { intros Ha.
    destruct (solve_loop_arg solv i ms x 0) as [H0 H1].
    rewrite Hloop in H0, H1. simpl in H0, H1.
    rewrite !list_lookup_insert_ne by done. rewrite H0, H1.
    rewrite list_lookup_insert_ne by done.
    rewrite !list_lookup_insert_eq by (rewrite ?length_insert, ?length_fill_n; lia).
    done. }
  split; [|done].
  intros Hr1. apply list_lookup_insert_eq. lia.
Qed.

(** C3. [solve] handles the [nrhs] contiguous right-hand sides one after
    the other, in ascending order.  Pass [i], entered in the state that [i]
    passes leave, copies the [nrow] entries of the [i]-th segment to the
    front of the temporary [w], sets [arg[2]] to [w] beside [arg[0]], the
    stored [q], and [arg[1]], the stored [r], sets [res[0]] to the segment,
    and invokes the selected Function ([solveT] when [tr], [solve]
    otherwise) on the stored [q], the stored [r] and what the temporary
    holds; the output is written over that same segment, and so depends on
    no other right-hand side. *)
Theorem solve_processes_each_rhs m (x : list K) (nrhs : Z) (tr : bool) :
  let solv := if tr then M.solveT m else M.solve m in
  let n := M.nrow m in
  let count := Z.to_nat nrhs in
  length x = count * n →
  n ≤ length (M.w m) →
  (∀ ins, length (nth 0 (eval solv ins) []) = n) →
  ∃ m' x' calls,
    solve m x nrhs tr = (m', x', calls) ∧
    calls = (λ i, (name solv, [M.q m; M.r m; segment n x i])) <$> seq 0 count ∧
    x' = concat ((λ i, solution solv m (segment n x i)) <$> seq 0 count) ∧
    (∀ i, i < count → segment n x' i = solution solv m (segment n x i)) ∧
    (∀ y i, length y = length x → i < count →
       segment n y i = segment n x i →
       segment n (solve m y nrhs tr).1.2 i = segment n x' i) ∧
    length x' = length x ∧ M.q m' = M.q m ∧ M.r m' = M.r m ∧
    (∀ i, i < count →
       ∃ m0 x0 cs m1 x1 c,
         solve m x (Z.of_nat i) tr = (m0, x0, cs) ∧
         solve_one solv m0 x0 (i * n) = (m1, x1, c) ∧
         solve m x (Z.of_nat (S i)) tr = (m1, x1, cs ++ [c]) ∧
         calls !! i = Some c ∧
         M.w m1 = list_inserts 0 (segment n x i) (M.w m0) ∧
         take n (M.w m1) = segment n x i ∧
         M.arg m1 = <[2 := ptr_w 0]> (M.arg m0) ∧
         M.res m1 = <[0 := ptr_x (i * n)]> (M.res m0) ∧
         (3 ≤ length (M.arg m) →
            M.arg m1 !! 0 = Some ptr_q ∧ M.arg m1 !! 1 = Some ptr_r ∧
            M.arg m1 !! 2 = Some (ptr_w 0)) ∧
         (1 ≤ length (M.res m) → M.res m1 !! 0 = Some (ptr_x (i * n))) ∧
         c = (name solv, [M.q m; M.r m; take n (M.w m1)]) ∧
         x1 = list_inserts (i * n) (solution solv m (take n (M.w m1))) x0).
Proof.
  intros solv n count Hx Hw Hout.
  assert (∀ y, length y = count * n →
    ∃ m', solve m y nrhs tr =
      (m', concat ((λ i, solution solv m (segment n y i)) <$> seq 0 count),
       (λ i, (name solv, [M.q m; M.r m; segment n y i])) <$> seq 0 count) ∧
      M.q m' = M.q m ∧ M.r m' = M.r m) as Hrun.
  { intros y Hy. by apply solve_spec. }
  assert (∀ y i, length y = count * n → i < count →
    segment n (concat ((λ i, solution solv m (segment n y i)) <$> seq 0 count)) i
    = solution solv m (segment n y i)) as Hseg.
  { intros y i Hy Hi. unfold segment at 1. apply segment_concat.
    - apply Forall_fmap, Forall_forall. intros j _. apply Hout.
    - rewrite list_lookup_fmap, lookup_seq_lt by done. done. }
  destruct (Hrun x Hx) as (m' & Hsolve & Hq & Hr).
  eexists m', _, _. split; [exact Hsolve|].
  split; [done|]. split; [done|]. split; [by intros i Hi; apply Hseg|].
  split.
  - intros y i Hy Hi Hyx.
    destruct (Hrun y) as (m'' & -> & _); [lia|]. simpl.
    rewrite !Hseg by (done || lia). by rewrite Hyx.
  - split.
    { rewrite (length_concat_const n), Hx.
      + by rewrite length_fmap, length_seq.
      + apply Forall_fmap, Forall_forall. intros j _. apply Hout. }
    split; [done|]. split; [done|].
    intros i Hi.
    destruct (solve_pass m x tr count i Hx Hw Hout Hi)
      as (m0 & x0 & cs & m1 & x1 & c & H0 & Hone & HS & Hw1 & Htake & Harg &
          Hres & Ha & Hr1 & Hc & Hx1).
    exists m0, x0, cs, m1, x1, c.
    split; [done|]. split; [done|]. split; [done|]. split.
    { rewrite list_lookup_fmap, lookup_seq_lt by done. by rewrite Hc, Htake. }
    repeat (split; [done|]). done.
Qed.

(** What [factorize] leaves in the Memory. *)
Lemma factorize_spec m (A : list K) :
  let out := eval (M.factorize m) [A] in
  M.q (factorize m A) = list_inserts 0 (nth 0 out []) (M.q m) ∧
  M.r (factorize m A) = list_inserts 0 (nth 1 out []) (M.r m) ∧
  (length (nth 0 out []) = length (M.q m) → M.q (factorize m A) = nth 0 out []) ∧
  (length (nth 1 out []) = length (M.r m) → M.r (factorize m A) = nth 1 out []) ∧
  M.factorize (factorize m A) = M.factorize m ∧
  M.solve (factorize m A) = M.solve m ∧
  M.solveT (factorize m A) = M.solveT m ∧
  M.sparsity (factorize m A) = M.sparsity m ∧
  M.w (factorize m A) = M.w m ∧
  M.sizes (factorize m A) = M.sizes m.
Proof.
  intros out. unfold factorize. fold out. simpl.
  repeat split; try done.
  - intros H. by apply list_inserts_whole.
  - intros H. by apply list_inserts_whole.
  - unfold M.sizes. simpl. by rewrite !length_insert, !length_fill_n.
Qed.

(** C5 (as amended). [factorize] calls the QR Function on the buffer [A]
    alone and writes the two outputs over the stored [q] and [r]: the
    stored factors after the call are the outputs of the Function, whatever
    they and the factors stored before are.  The method has no result and
    no test of the outputs: nothing is reported and nothing of the old
    factors is kept. *)
Theorem factorize_overwrites_factors m (A : list K) :
  let out := eval (M.factorize m) [A] in
  M.q (factorize m A) = list_inserts 0 (nth 0 out []) (M.q m) ∧
  M.r (factorize m A) = list_inserts 0 (nth 1 out []) (M.r m) ∧
  (length (nth 0 out []) = length (M.q m) → M.q (factorize m A) = nth 0 out []) ∧
  (length (nth 1 out []) = length (M.r m) → M.r (factorize m A) = nth 1 out []) ∧
  M.factorize (factorize m A) = M.factorize m ∧
  M.solve (factorize m A) = M.solve m ∧
  M.solveT (factorize m A) = M.solveT m ∧
  M.sparsity (factorize m A) = M.sparsity m ∧
  M.sizes (factorize m A) = M.sizes m.
Proof.
  destruct (factorize_spec m A) as (Hq & Hr & Hq' & Hr' & Hf & Hs & HsT & Hsp & _ & Hsz).
  repeat split; done.
Qed.

(** *** Scratch after [reset] *)

(** A call of [f] with its floating scratch starting at [w + off] stays
    within the four arrays of [m]. *)
Definition within m (f : Function K) (off : nat) : Prop :=
  sz_arg f ≤ length (M.arg m) ∧ sz_res f ≤ length (M.res m) ∧
  sz_iw f ≤ length (M.iw m) ∧ off + sz_w f ≤ length (M.w m).

Lemma reset_spec C m sp :
  let m' := reset C m sp in
  let f1 := QR_fact C sp in
  let f2 := QR_solv C sp in
  let f3 := QR_solv_T C sp in
  M.sparsity m' = sp ∧
  M.factorize m' = f1 ∧ M.solve m' = f2 ∧ M.solveT m' = f3 ∧
  length (M.arg m') =
    Nat.max (Nat.max (Nat.max (length (M.arg m)) (sz_arg f1)) (sz_arg f2)) (sz_arg f3) ∧
  length (M.res m') =
    Nat.max (Nat.max (Nat.max (length (M.res m)) (sz_res f1)) (sz_res f2)) (sz_res f3) ∧
  length (M.iw m') =
    Nat.max (Nat.max (Nat.max (length (M.iw m)) (sz_iw f1)) (sz_iw f2)) (sz_iw f3) ∧
  length (M.w m') =
    Nat.max (Nat.max (Nat.max (length (M.w m)) (sz_w f1)) (sz_w f2)) (sz_w f3)
    + size1 sp ∧
  length (M.q m') = nnz C (Q_sparsity C sp) ∧
  length (M.r m') = nnz C (R_sparsity C sp).
Proof.
  unfold reset. simpl. rewrite !length_resize. repeat split; done.
Qed.

(** C4 (as amended). After [reset] the argument-pointer, result-pointer
    and integer scratch arrays have the elementwise maximum of their
    previous sizes and of the requirements of the three generated
    Functions; the floating scratch has that maximum plus one temporary of
    [size1] entries, one in all, whatever the number of right-hand sides.
    [factorize], with scratch [w], and [solve], with the temporary in front
    and scratch [w + nrow], stay within the arrays, and neither changes a
    size: the bounds hold for every later call. *)
Theorem reset_allocates_scratch C m sp :
  let m' := reset C m sp in
  let f1 := M.factorize m' in
  let f2 := M.solve m' in
  let f3 := M.solveT m' in
  length (M.arg m') =
    Nat.max (Nat.max (Nat.max (length (M.arg m)) (sz_arg f1)) (sz_arg f2)) (sz_arg f3) ∧
  length (M.res m') =
    Nat.max (Nat.max (Nat.max (length (M.res m)) (sz_res f1)) (sz_res f2)) (sz_res f3) ∧
  length (M.iw m') =
    Nat.max (Nat.max (Nat.max (length (M.iw m)) (sz_iw f1)) (sz_iw f2)) (sz_iw f3) ∧
  length (M.w m') =
    Nat.max (Nat.max (Nat.max (length (M.w m)) (sz_w f1)) (sz_w f2)) (sz_w f3)
    + size1 sp ∧
  M.nrow m' = size1 sp ∧
  within m' f1 0 ∧ within m' f2 (M.nrow m') ∧ within m' f3 (M.nrow m') ∧
  (∀ A, M.sizes (factorize m' A) = M.sizes m') ∧
  (∀ x nrhs tr, M.sizes (solve m' x nrhs tr).1.1 = M.sizes m').
Proof.
  intros m' f1 f2 f3.
  destruct (reset_spec C m sp) as (Hsp & H1 & H2 & H3 & Ha & Hr & Hi & Hw & _).
  fold m' in Hsp, H1, H2, H3, Ha, Hr, Hi, Hw.
  assert (M.nrow m' = size1 sp) as Hn by (unfold M.nrow; by rewrite Hsp).
  unfold f1, f2, f3. rewrite H1, H2, H3.
  split; [done|]. split; [done|]. split; [done|]. split; [done|].
  split; [done|].
  split; [|split; [|split; [|split]]].
  - unfold within. rewrite Ha, Hr, Hi, Hw. lia.
  - unfold within. rewrite Ha, Hr, Hi, Hw, Hn. lia.
  - unfold within. rewrite Ha, Hr, Hi, Hw, Hn. lia.
  - intros A. apply factorize_spec.
  - intros x nrhs tr. unfold solve.
    match goal with |- M.sizes (solve_loop ?s ?c ?m0 ?x0 ?o).1.1 = _ =>
      destruct (solve_loop_frame s c m0 x0 o) as (_ & _ & _ & _ & _ & _ & ->)
    end.
    unfold M.sizes. simpl. by rewrite !length_insert, !length_fill_n.
Qed.

(** *** A factorized system solved

    The contracts of the library routines along the path of one
    [factorize] and one [solve], each stated on the very arguments the code
    passes. *)

(** The symbolic factors of the permuted matrix, evaluated at [A]. *)
Definition factors C (sp : list Z) (A : list K) : Mat K * Mat K :=
  let bt := btf C sp in
  qr C (size1 sp) (size2 sp)
    (getSub (matrix C sp A) (rowperm bt) (colperm bt)).

(** [qr] returned a factorization: [Q·R] is the permuted matrix and [Q] is
    orthogonal. *)
Definition qr_ok C (sp : list Z) (A : list K) (n : nat) : Prop :=
  let bt := btf C sp in
  let Q1 := (factors C sp A).1 in
  let R1 := (factors C sp A).2 in
  mat_eq n n (mtimes n Q1 R1)
    (getSub (matrix C sp A) (rowperm bt) (colperm bt)) ∧
  mat_eq n n (mtimes n Q1 (T Q1)) eye ∧
  mat_eq n n (mtimes n (T Q1) Q1) eye.

(** The factors as [solve] reads them back from the stored nonzeros. *)
Definition stored_Q C (sp : list Z) (A : list K) : Mat K :=
  matrix C (Q_sparsity C sp) (nonzeros C (Q_sparsity C sp) (factors C sp A).1).

Definition stored_R C (sp : list Z) (A : list K) : Mat K :=
  matrix C (R_sparsity C sp) (nonzeros C (R_sparsity C sp) (factors C sp A).2).

(** The patterns of the factors hold the factors: the nonzero buffers have
    the sizes of the patterns and read back as the matrices stored. *)
Definition storage_ok C (sp : list Z) (A : list K) (n : nat) : Prop :=
  length (nonzeros C (Q_sparsity C sp) (factors C sp A).1) = nnz C (Q_sparsity C sp) ∧
  length (nonzeros C (R_sparsity C sp) (factors C sp A).2) = nnz C (R_sparsity C sp) ∧
  mat_eq n n (stored_Q C sp A) (factors C sp A).1 ∧
  mat_eq n n (stored_R C sp A) (factors C sp A).2.

(** [SX::solve] returned a solution of the triangular system it was given
    (as it does when no diagonal entry of [R] vanishes). *)
Definition solve_ok C (sp : list Z) (A b : list K) (n : nat) (tr : bool) : Prop :=
  let bt := btf C sp in
  let Q := stored_Q C sp A in
  let R := stored_R C sp A in
  if tr then
    let bperm := getRows (column b) (colperm bt) in
    ∀ k, k < n → mtimes n (T R) (SXsolve C n (T R) bperm) k 0 = bperm k 0
  else
    let rhs := mtimes n (T Q) (getRows (column b) (rowperm bt)) in
    ∀ k, k < n → mtimes n R (SXsolve C n R rhs) k 0 = rhs k 0.

Lemma column_column_nonzeros n (X : Mat K) i :
  i < n → column (column_nonzeros n X) i 0 = X i 0.
Proof.
  intros Hi. unfold column, column_nonzeros. simpl.
  apply nth_lookup_Some with (d := 0%K).
  rewrite list_lookup_fmap, lookup_seq_lt by done. done.
Qed.

Lemma length_column_nonzeros n (X : Mat K) : length (column_nonzeros n X) = n.
Proof. unfold column_nonzeros. by rewrite length_fmap, length_seq. Qed.

Lemma column_nth (b : list K) i : column b i 0 = nth i b 0%K.
Proof. done. Qed.

Lemma factorize_reset_spec C m0 sp (A : list K) n :
  size1 sp = n → storage_ok C sp A n →
  let m := factorize (reset C m0 sp) A in
  M.nrow m = n ∧ n ≤ length (M.w m) ∧
  M.solve m = QR_solv C sp ∧ M.solveT m = QR_solv_T C sp ∧
  M.q m = nonzeros C (Q_sparsity C sp) (factors C sp A).1 ∧
  M.r m = nonzeros C (R_sparsity C sp) (factors C sp A).2.
Proof.
  intros Hn (HlQ & HlR & _) m.
  destruct (reset_spec C m0 sp) as (Hsp & H1 & H2 & H3 & _ & _ & _ & Hw & Hq & Hr).
  destruct (factorize_spec (reset C m0 sp) A)
    as (_ & _ & Hq' & Hr' & _ & Hs & HsT & Hsp' & Hw' & _).
  fold m in Hq', Hr', Hs, HsT, Hsp', Hw'.
  rewrite H1 in Hq', Hr'.
  split; [unfold M.nrow; by rewrite Hsp', Hsp|].
  split; [rewrite Hw', Hw; lia|].
  split; [by rewrite Hs|]. split; [by rewrite HsT|].
  split.
  - apply Hq'. rewrite Hq. exact HlQ.
  - apply Hr'. rewrite Hr. exact HlR.
Qed.

(** C1 (as amended). Let [A] be the nonzeros of a square matrix of pattern
    [sp] whose BTF permutations are bijections, and suppose the library
    routines met their contracts on it: [qr] returned an orthogonal [Q] and
    an [R] with [Q·R = A(rowperm, colperm)], the factors fit their
    patterns, and [SX::solve] solved the triangular system (so [R], hence
    [A], is not singular).  Then after [reset] and [factorize(A)] the call
    [solve(b, 1, false)] leaves [x] with [A·x = b] in the buffer, and
    [solve(b, 1, true)] leaves [x] with [Aᵗ·x = b]; equality is exact in
    the commutative ring of scalars. *)
Theorem solve_solves_system C m0 sp (A b : list K) (tr : bool) n :
  size1 sp = n → size2 sp = n →
  is_perm n (rowperm (btf C sp)) → is_perm n (colperm (btf C sp)) →
  length b = n →
  qr_ok C sp A n → storage_ok C sp A n → solve_ok C sp A b n tr →
  let m := factorize (reset C m0 sp) A in
  let x := (solve m b 1 tr).1.2 in
  let Am := matrix C sp A in
  length x = n ∧
  ∀ i, i < n →
    mtimes n (if tr then T Am else Am) (column x) i 0 = nth i b 0%K.
Proof.
  intros H1 H2 Hrp Hcp Hb (HQR & HQQt & HQtQ) Hst Hsol m x Am.
  destruct (factorize_reset_spec C m0 sp A n H1 Hst)
    as (Hn & Hw & Hs & HsT & Hq & Hr).
  fold m in Hn, Hw, Hs, HsT, Hq, Hr.
  destruct Hst as (_ & _ & HsQ & HsR).
  set (solv := if tr then M.solveT m else M.solve m).
  assert (∀ ins, length (nth 0 (eval solv ins) []) = M.nrow m) as Hout.
  { intros ins. rewrite Hn. unfold solv. destruct tr.
    - rewrite HsT. simpl. rewrite length_column_nonzeros.
      by apply invert_length.
    - rewrite Hs. simpl. rewrite length_column_nonzeros.
      by apply invert_length. }
  destruct (solve_spec m b 1 tr) as (m' & Hsolve & _).
  { rewrite Hn. simpl. lia. }
  { by rewrite Hn. }
  { exact Hout. }
  assert (x = solution solv m b) as Hx.
  { unfold x. rewrite Hsolve. fold solv. simpl. rewrite app_nil_r.
    unfold segment. simpl. rewrite drop_0, take_ge by (rewrite Hn; lia). done. }
  split; [rewrite Hx; unfold solution; by rewrite Hout|].
  intros i Hi. rewrite <- column_nth.
  (* the stored factors factorize the permuted matrix *)
  assert (mat_eq n n (mtimes n (stored_Q C sp A) (stored_R C sp A))
            (getSub Am (rowperm (btf C sp)) (colperm (btf C sp)))) as HQR'.
  { intros i' j' Hi' Hj'. rewrite <- HQR by done.
    apply mtimes_ext; intros k Hk; [by apply HsQ | by apply HsR]. }
  unfold solve_ok in Hsol. destruct tr.
  - assert (mat_eq n n (mtimes n (T (stored_Q C sp A)) (stored_Q C sp A)) eye) as HQ'.
    { intros i' j' Hi' Hj'. rewrite <- HQtQ by done.
      apply mtimes_ext; intros k Hk; unfold T; by apply HsQ. }
    rewrite <- (permute_solve_unpermute_T n Am _ _ _ _ (column b) _ 0
                 Hrp Hcp HQR' HQ' Hsol i Hi).
    apply mtimes_ext; [done|]. intros k Hk.
    rewrite Hx. unfold solution, solv. rewrite HsT, Hq, Hr. simpl.
    rewrite (invert_length n) by done. rewrite H2.
    by rewrite column_column_nonzeros.
  - assert (mat_eq n n (mtimes n (stored_Q C sp A) (T (stored_Q C sp A))) eye) as HQ'.
    { intros i' j' Hi' Hj'. rewrite <- HQQt by done.
      apply mtimes_ext; intros k Hk; unfold T; by apply HsQ. }
    rewrite <- (permute_solve_unpermute n Am _ _ _ _ (column b) _ 0
                 Hrp Hcp HQR' HQ' Hsol i Hi).
    apply mtimes_ext; [done|]. intros k Hk.
    rewrite Hx. unfold solution, solv. rewrite Hs, Hq, Hr. simpl.
    rewrite (invert_length n) by done. rewrite H1, H2.
    by rewrite column_column_nonzeros.
Qed.

(** *** Repeated calls *)

Ltac lookup_cases l i :=
  apply list_eq; intros i;
  repeat (rewrite list_lookup_insert || rewrite lookup_fill_n);
  rewrite ?length_insert, ?length_fill_n, ?length_insert, ?length_fill_n;
  destruct (l !! i) eqn:E;
  [apply lookup_lt_Some in E | apply lookup_ge_None_1 in E];
  repeat case_decide; simpl; try done; try (exfalso; lia).

Lemma fill_n_again {A : Type} (n : nat) (v p : A) (l : list A) :
  <[0 := p]> (fill_n n v (<[0 := p]> (fill_n n v l))) = <[0 := p]> (fill_n n v l).
Proof. lookup_cases l i. Qed.

Lemma fill_n_again2 {A : Type} (n : nat) (v p p' : A) (l : list A) :
  <[1 := p']> (<[0 := p]> (fill_n n v (<[1 := p']> (<[0 := p]> (fill_n n v l)))))
  = <[1 := p']> (<[0 := p]> (fill_n n v l)).
Proof. lookup_cases l i. Qed.

(** X5. A factorization leaves no trace of the one before it: when the
    outputs of the QR Function have the fixed sizes [nnz_out] reports,
    [factorize(A1)] followed by [factorize(A2)] leaves the Memory exactly
    as [factorize(A2)] alone does. *)
Theorem factorize_forgets m (A1 A2 : list K) :
  (∀ A i, length (nth i (eval (M.factorize m) [A]) []) = nnz_out (M.factorize m) i) →
  factorize (factorize m A1) A2 = factorize m A2.
Proof.
  intros Hout. unfold factorize; simpl.
  rewrite fill_n_again, fill_n_again2.
  rewrite !list_inserts_again by (by rewrite !Hout). done.
Qed.

(** The sizes of a Memory that holds what the three Functions of pattern
    [sp] ask for: [reset] adds the temporary to [w] and nothing else. *)
Lemma reset_provided C m sp :
  M.provides m (QR_fact C sp) → M.provides m (QR_solv C sp) →
  M.provides m (QR_solv_T C sp) →
  length (M.arg (reset C m sp)) = length (M.arg m) ∧
  length (M.res (reset C m sp)) = length (M.res m) ∧
  length (M.iw (reset C m sp)) = length (M.iw m) ∧
  length (M.w (reset C m sp)) = length (M.w m) + size1 sp.
Proof.
  intros (? & ? & ? & ?) (? & ? & ? & ?) (? & ? & ? & ?).
  destruct (reset_spec C m sp) as (_ & _ & _ & _ & -> & -> & -> & -> & _).
  lia.
Qed.

Lemma reset_provides C m sp :
  let m' := reset C m sp in
  M.provides m' (QR_fact C sp) ∧ M.provides m' (QR_solv C sp) ∧
  M.provides m' (QR_solv_T C sp).
Proof.
  intros m'. unfold M.provides.
  destruct (reset_spec C m sp) as (_ & _ & _ & _ & Ha & Hr & Hi & Hw & _).
  fold m' in Ha, Hr, Hi, Hw. rewrite Ha, Hr, Hi, Hw. clear. repeat split; lia.
Qed.

Lemma reset_keeps_factors C m sp :
  length (M.q m) = nnz C (Q_sparsity C sp) →
  length (M.r m) = nnz C (R_sparsity C sp) →
  M.q (reset C m sp) = M.q m ∧ M.r (reset C m sp) = M.r m.
Proof.
  intros Hq Hr. unfold reset; simpl.
  rewrite <- Hq, <- Hr. by rewrite !resize_all.
Qed.

(** X6. [reset] never gives the temporary back: every further [reset] for
    the same pattern lengthens the floating scratch [w] by another
    [size1] entries, while the other three arrays, the three Functions and
    the stored factors stay as the first [reset] and later [factorize]
    calls left them. *)
Theorem reset_again_grows_w C m sp (k : nat) :
  let m1 := reset C m sp in
  let mk := Nat.iter k (λ m', reset C m' sp) m1 in
  length (M.w mk) = length (M.w m1) + k * size1 sp ∧
  length (M.arg mk) = length (M.arg m1) ∧
  length (M.res mk) = length (M.res m1) ∧
  length (M.iw mk) = length (M.iw m1) ∧
  M.q mk = M.q m1 ∧ M.r mk = M.r m1 ∧
  M.factorize mk = M.factorize m1 ∧ M.solve mk = M.solve m1 ∧
  M.solveT mk = M.solveT m1 ∧ M.sparsity mk = M.sparsity m1.
Proof.
  intros m1. cbn zeta.
  induction k as [|k IH]; [by simpl; rewrite Nat.add_0_r|].
  rewrite !Nat.iter_succ.
  set (mk := Nat.iter k (λ m', reset C m' sp) m1) in *.
  destruct IH as (Hw & Ha & Hr & Hi & Hq & Hrr & Hf & Hs & HsT & Hsp).
  destruct (reset_provides C m sp) as (P1 & P2 & P3). fold m1 in P1, P2, P3.
  assert (M.grows m1 mk) as Hg by (unfold M.grows; lia).
  destruct (reset_provided C mk sp) as (Ha' & Hr' & Hi' & Hw');
    [by eapply M.provides_grows .. |].
  destruct (reset_spec C m sp) as (Hsp1 & Hf1 & Hs1 & HsT1 & _ & _ & _ & _ & Hq1 & Hr1).
  fold m1 in Hsp1, Hf1, Hs1, HsT1, Hq1, Hr1.
  destruct (reset_spec C mk sp) as (Hsp2 & Hf2 & Hs2 & HsT2 & _).
  destruct (reset_keeps_factors C mk sp) as (Hq2 & Hr2);
    [by rewrite Hq | by rewrite Hrr |].
  rewrite Hw', Ha', Hr', Hi', Hq2, Hr2, Hsp2, Hf2, Hs2, HsT2.
  rewrite Hw, Ha, Hr, Hi, Hq, Hrr, Hsp1, Hf1, Hs1, HsT1.
  repeat split; try done. lia.
Qed.

(** *** Buffers of several right-hand sides *)

Lemma segment_app_l n (x1 x2 : list K) i :
  i * n + n ≤ length x1 → segment n (x1 ++ x2) i = segment n x1 i.
Proof.
  intros H. unfold segment. rewrite drop_app_le by lia.
  rewrite take_app_le; [done|]. rewrite length_drop. lia.
Qed.

Lemma segment_app_r n (x1 x2 : list K) c i :
  length x1 = c * n → segment n (x1 ++ x2) (c + i) = segment n x2 i.
Proof.
  intros H. unfold segment. rewrite drop_app_ge by lia.
  do 2 f_equal. lia.
Qed.

(** X7. [solve] treats a buffer of right-hand sides block by block: on the
    concatenation of two buffers, with the two counts added, it leaves the
    concatenation of what it leaves on each, and invokes the Function on
    the same inputs in the same order; with no right-hand side ([nrhs ≤ 0])
    the buffer is returned as it is and the Function is not invoked. *)
Theorem solve_app m (x1 x2 : list K) (n1 n2 : Z) (tr : bool) :
  let solv := if tr then M.solveT m else M.solve m in
  let n := M.nrow m in
  (0 ≤ n1)%Z → (0 ≤ n2)%Z →
  length x1 = Z.to_nat n1 * n → length x2 = Z.to_nat n2 * n →
  n ≤ length (M.w m) →
  (∀ ins, length (nth 0 (eval solv ins) []) = n) →
  (solve m (x1 ++ x2) (n1 + n2) tr).1.2 =
    (solve m x1 n1 tr).1.2 ++ (solve m x2 n2 tr).1.2 ∧
  (solve m (x1 ++ x2) (n1 + n2) tr).2 =
    (solve m x1 n1 tr).2 ++ (solve m x2 n2 tr).2 ∧
  (∀ x nrhs, (nrhs ≤ 0)%Z →
     (solve m x nrhs tr).1.2 = x ∧ (solve m x nrhs tr).2 = []).
Proof.
  intros solv n H1 H2 Hx1 Hx2 Hw Hout.
  assert ((λ i, segment n (x1 ++ x2) i) <$> seq 0 (Z.to_nat (n1 + n2)) =
    ((λ i, segment n x1 i) <$> seq 0 (Z.to_nat n1)) ++
    ((λ i, segment n x2 i) <$> seq 0 (Z.to_nat n2))) as Hsplit.
  { replace (Z.to_nat (n1 + n2)) with (Z.to_nat n1 + Z.to_nat n2) by lia.
    rewrite seq_0_add, fmap_app. f_equal.
    - apply list_fmap_ext. intros j i Hi. simpl.
      apply lookup_seq in Hi as [-> Hi]. simpl.
      rewrite segment_app_l; [done|]. rewrite Hx1. nia.
    - rewrite <- list_fmap_compose.
      apply list_fmap_ext. intros j i _. simpl.
      by rewrite (segment_app_r n x1 x2 (Z.to_nat n1)). }
  destruct (solve_spec m (x1 ++ x2) (n1 + n2) tr) as (m12 & E12 & _);
    [rewrite length_app, Hx1, Hx2; fold n; lia | done | done |].
  destruct (solve_spec m x1 n1 tr) as (m1' & E1 & _); [done..|].
  destruct (solve_spec m x2 n2 tr) as (m2' & E2 & _); [done..|].
  fold solv in E12, E1, E2. fold n in E12, E1, E2.
  rewrite E12, E1, E2. simpl.
  assert (∀ {B} (g : list K → B) y c,
    (λ i, g (segment n y i)) <$> seq 0 c =
    g <$> ((λ i, segment n y i) <$> seq 0 c)) as Hcomp
    by (intros; by rewrite <- list_fmap_compose).
  split; [|split].
  - rewrite <- concat_app. f_equal.
    rewrite !(Hcomp _ (solution solv m)). by rewrite Hsplit, fmap_app.
  - rewrite !(Hcomp _ (λ b, (name solv, [M.q m; M.r m; b]))).
    by rewrite Hsplit, fmap_app.
  - intros x nrhs Hn. unfold solve. by replace (Z.to_nat nrhs) with 0 by lia.
Qed.

(** X8. [solve] stays within the [nrhs] blocks it is asked for: on a
    buffer that is longer, the [nrhs * nrow] entries in front are replaced
    by the solutions, block by block, and the entries behind are left as
    they were. *)
Theorem solve_leaves_tail m (x : list K) (nrhs : Z) (tr : bool) :
  let solv := if tr then M.solveT m else M.solve m in
  let n := M.nrow m in
  let count := Z.to_nat nrhs in
  count * n ≤ length x →
  n ≤ length (M.w m) →
  (∀ ins, length (nth 0 (eval solv ins) []) = n) →
  let x' := (solve m x nrhs tr).1.2 in
  x' = concat ((λ i, solution solv m (segment n x i)) <$> seq 0 count) ++
       drop (count * n) x ∧
  length x' = length x ∧
  drop (count * n) x' = drop (count * n) x.
Proof.
  intros solv n count Hx Hw Hout x'.
  set (m0 := set_res (set_arg m (<[1 := ptr_r]> (<[0 := ptr_q]>
               (fill_n (n_in solv) nullptr (M.arg m)))))
               (fill_n (n_out solv) nullptr (M.res m))).
  destruct (solve_loop_spec solv count m0 x 0) as (m' & Hloop & _);
    [done | done | change (M.nrow m0) with n; lia |].
  assert (x' = concat ((λ i, solution solv m (segment n x i)) <$> seq 0 count) ++
               drop (count * n) x) as Hx'.
  { unfold x'. change (solve m x nrhs tr) with (solve_loop solv count m0 x 0).
    rewrite Hloop. done. }
  assert (length (concat ((λ i, solution solv m (segment n x i)) <$> seq 0 count))
          = count * n) as Hlen.
  { rewrite (length_concat_const n).
    - by rewrite length_fmap, length_seq.
    - apply Forall_fmap, Forall_forall. intros j _. apply Hout. }
  clearbody x'. subst x'. split; [done|]. split.
  - rewrite length_app, Hlen, length_drop. lia.
  - by rewrite drop_app_length'.
Qed.

(** *** Symbolic evaluation

    [casadi_assert] and the exception of [std::vector::at] come from
    outside the files at hand: the text thrown for a failed condition, given
    the condition as written, and the text of [std::out_of_range]. *)
Context (casadi_assert_text : string → string) (out_of_range_text : string).

(** The loop of [linsol_eval_sx], [r] having been advanced to offset [off]:
    [copy(a, a+v[2].nnz(), v[2]->begin())], [rr = solv(v).at(0)], the copy
    of [rr] to [r] and [r += rr.nnz()].  The pointer [a] is not advanced. *)
Fixpoint linsol_eval_sx_loop (solv : Function K) (count : nat)
    (v : list (list K)) (a r : list K) (off : nat) : result (list K) :=
  match count with
  | 0 => Ok r
  | S count' =>
      let v2 := nth 2 v [] in
      let v := <[2 := list_inserts 0 (take (length v2) a) v2]> v in
      match eval solv v with
      | [] => Error out_of_range_text
      | rr :: _ =>
          linsol_eval_sx_loop solv count' v a (list_inserts off rr r)
            (off + length rr)
      end
  end.

(** [SymbolicQr::linsol_eval_sx]: the three assertions on the pointers
    [arg[0]], [arg[1]] and [res[0]]; [A] takes its [nnz] nonzeros from
    [arg[1]]; the call of [m->factorize] on [A] gives [v]; a zero column of
    [size1] entries is pushed onto [v]; then the loop.  The result is the
    buffer [res[0]]; the Memory is not written. *)
Definition linsol_eval_sx C m (arg0 arg1 res0 : option (list K))
    (tr : bool) (nrhs : Z) : result (list K) :=
  match arg0, arg1, res0 with
  | None, _, _ => Error (casadi_assert_text "arg[0]!=0")
  | Some _, None, _ => Error (casadi_assert_text "arg[1]!=0")
  | Some _, Some _, None => Error (casadi_assert_text "res[0]!=0")
  | Some a, Some A1, Some r =>
      let sp := M.sparsity m in
      let A := list_inserts 0 (take (nnz C sp) A1) (replicate (nnz C sp) 0%K) in
      let v := eval (M.factorize m) [A] in
      let solv := if tr then M.solveT m else M.solve m in
      let v := v ++ [replicate (size1 sp) 0%K] in
      linsol_eval_sx_loop solv (Z.to_nat nrhs) v a r 0
  end.

Lemma linsol_eval_sx_loop_S (solv : Function K) count (Q R b a r : list K) off :
  linsol_eval_sx_loop solv (S count) [Q; R; b] a r off =
  match eval solv [Q; R; list_inserts 0 (take (length b) a) b] with
  | [] => Error out_of_range_text
  | rr :: _ =>
      linsol_eval_sx_loop solv count
        [Q; R; list_inserts 0 (take (length b) a) b] a
        (list_inserts off rr r) (off + length rr)
  end.
Proof. reflexivity. Qed.

(** A block written [count] times, one copy after the other. *)
Lemma list_inserts_blocks (rr r : list K) count off :
  off + S count * length rr ≤ length r →
  let r1 := list_inserts off rr r in
  take (off + length rr) r1 ++ concat (replicate count rr) ++
    drop (off + length rr + count * length rr) r1 =
  take off r ++ concat (replicate (S count) rr) ++
    drop (off + S count * length rr) r.
Proof.
  intros Hr r1. unfold r1. rewrite list_inserts_split by lia.
  rewrite (app_assoc (take off r) rr).
  rewrite take_app_length' by (rewrite length_app, length_take; lia).
  rewrite drop_app_ge by (rewrite length_app, length_take; lia).
  rewrite length_app, length_take, drop_drop.
  simpl. rewrite <- !app_assoc. do 3 f_equal.
  apply (f_equal (λ k, drop k r)). lia.
Qed.

Lemma linsol_eval_sx_loop_spec (solv : Function K) (Q R b rr : list K)
    (rest : list (list K)) (a : list K) :
  eval solv [Q; R; list_inserts 0 (take (length b) a) b] = rr :: rest →
  ∀ count r off,
    off + count * length rr ≤ length r →
    linsol_eval_sx_loop solv count [Q; R; b] a r off =
      Ok (take off r ++ concat (replicate count rr) ++
          drop (off + count * length rr) r).
Proof.
  intros Hrr.
  set (b' := list_inserts 0 (take (length b) a) b) in *.
  assert (list_inserts 0 (take (length b') a) b' = b') as Hb'.
  { unfold b'. rewrite length_inserts. by apply list_inserts_again. }
  assert (∀ count r off,
    off + count * length rr ≤ length r →
    linsol_eval_sx_loop solv count [Q; R; b'] a r off =
      Ok (take off r ++ concat (replicate count rr) ++
          drop (off + count * length rr) r)) as Hloop.
  { induction count as [|count IH]; intros r off Hr.
    - simpl. by rewrite Nat.add_0_r, take_drop.
    - rewrite linsol_eval_sx_loop_S, Hb', Hrr.
      rewrite IH by (rewrite length_inserts; lia).
      f_equal. by apply list_inserts_blocks. }
  intros count r off Hr.
  destruct count as [|count]; [by simpl; rewrite Nat.add_0_r, take_drop|].
  rewrite linsol_eval_sx_loop_S. fold b'. rewrite Hrr.
  rewrite (Hloop count) by (rewrite length_inserts; lia).
  f_equal. by apply list_inserts_blocks.
Qed.

(** [solve] with one right-hand side. *)
Lemma solve_single m (b : list K) (tr : bool) :
  let solv := if tr then M.solveT m else M.solve m in
  length b = M.nrow m → M.nrow m ≤ length (M.w m) →
  (∀ ins, length (nth 0 (eval solv ins) []) = M.nrow m) →
  (solve m b 1 tr).1.2 = solution solv m b.
Proof.
  intros solv Hb Hw Hout.
  destruct (solve_spec m b 1 tr) as (m' & Hsolve & _);
    [simpl; lia | done | done |].
  rewrite Hsolve. fold solv. simpl. rewrite app_nil_r.
  unfold segment. simpl. by rewrite drop_0, take_ge by lia.
Qed.

(** The Memory holds Functions of the shapes [reset] generates, with room
    for their results: [factorize] has two outputs, of the sizes of the
    stored factors, and the selected solve Function one output of [nrow]
    entries; [A] has the nonzeros of the pattern. *)
Definition shaped C m (A : list K) (tr : bool) : Prop :=
  let solv := if tr then M.solveT m else M.solve m in
  length A = nnz C (M.sparsity m) ∧
  (∃ Q R, eval (M.factorize m) [A] = [Q; R] ∧
          length Q = length (M.q m) ∧ length R = length (M.r m)) ∧
  (∀ ins, ∃ x, eval solv ins = [x] ∧ length x = M.nrow m) ∧
  M.nrow m ≤ length (M.w m).

(** What [linsol_eval_sx] leaves in [res[0]], in terms of the numeric
    methods. *)
Lemma linsol_eval_sx_spec C m (a A r : list K) (tr : bool) (nrhs : Z) :
  shaped C m A tr →
  M.nrow m ≤ length a →
  Z.to_nat nrhs * M.nrow m ≤ length r →
  linsol_eval_sx C m (Some a) (Some A) (Some r) tr nrhs =
    Ok (concat (replicate (Z.to_nat nrhs)
                  (solve (factorize m A) (take (M.nrow m) a) 1 tr).1.2) ++
        drop (Z.to_nat nrhs * M.nrow m) r).
Proof.
  intros (HA & (Q & R & Hf & HQ & HR) & Hsolv & Hw) Ha Hr.
  set (n := M.nrow m) in *.
  set (solv := if tr then M.solveT m else M.solve m) in *.
  set (b := take n a).
  assert (length b = n) as Hb by (unfold b; rewrite length_take; lia).
  destruct (Hsolv [Q; R; b]) as (x & Hx & Hlx).
  (* the numeric path *)
  destruct (factorize_spec m A)
    as (_ & _ & Hq' & Hr' & _ & Hs & HsT & Hsp & Hw' & _).
  assert (M.q (factorize m A) = Q) as HqQ
    by (rewrite Hq' by (rewrite Hf; exact HQ); by rewrite Hf).
  assert (M.r (factorize m A) = R) as HrR
    by (rewrite Hr' by (rewrite Hf; exact HR); by rewrite Hf).
  clear Hq' Hr'.
  set (m' := factorize m A) in *.
  assert (M.nrow m' = n) as Hn' by (unfold M.nrow; by rewrite Hsp).
  assert ((if tr then M.solveT m' else M.solve m') = solv) as Hsolv'.
  { unfold solv. by rewrite Hs, HsT. }
  rewrite (solve_single m' b tr).
  2: by rewrite Hn'.
  2: by rewrite Hn', Hw'.
  2: { rewrite Hsolv', Hn'. intros ins. by destruct (Hsolv ins) as (y & -> & Hy). }
  rewrite Hsolv'. unfold solution. rewrite HqQ, HrR, Hx. simpl.
  (* the symbolic path *)
  unfold linsol_eval_sx. fold solv.
  rewrite list_inserts_whole
    by (rewrite length_take, length_replicate; lia).
  rewrite take_ge by lia. rewrite Hf. simpl.
  change (size1 (M.sparsity m)) with n.
  set (z := replicate n (0%K : K)).
  assert (list_inserts 0 (take (length z) a) z = b) as Hcopy.
  { unfold z. rewrite length_replicate. apply list_inserts_whole.
    by rewrite length_replicate. }
  rewrite (linsol_eval_sx_loop_spec solv Q R z x [] a).
  - simpl. by rewrite Hlx.
  - by rewrite Hcopy.
  - simpl. by rewrite Hlx.
Qed.

(** X9. For one right-hand side the symbolic evaluation agrees with the
    numeric methods: on a Memory with Functions of the shapes [reset]
    generates, [linsol_eval_sx] with [nrhs = 1] leaves in [res[0]] what
    [factorize(A)] followed by [solve(b, 1, tr)] leaves in [b]. *)
Theorem linsol_eval_sx_agrees C m (b A r : list K) (tr : bool) :
  shaped C m A tr →
  length b = M.nrow m → length r = M.nrow m →
  linsol_eval_sx C m (Some b) (Some A) (Some r) tr 1 =
    Ok (solve (factorize m A) b 1 tr).1.2.
Proof.
  intros Hm Hb Hr.
  rewrite (linsol_eval_sx_spec C m b A r tr 1 Hm)
    by (change (Z.to_nat 1) with 1; lia).
  change (Z.to_nat 1) with 1. cbn [replicate concat].
  rewrite take_ge, drop_ge by lia. by rewrite !app_nil_r.
Qed.


(** X11. [reset] prepares the Memory for the symbolic evaluation: when the
    BTF permutations of the pattern are bijections on [0, n), [n] being its
    number of rows, and the factors of [A] fit their patterns, the Memory
    after [reset] has Functions of the shapes [linsol_eval_sx] relies on,
    the stored factors have the sizes of the outputs of [QR_fact], and [w]
    has room for the temporary. *)
Theorem reset_shaped C m0 sp (A : list K) (tr : bool) n :
  size1 sp = n →
  is_perm n (rowperm (btf C sp)) → is_perm n (colperm (btf C sp)) →
  length A = nnz C sp →
  length (nonzeros C (Q_sparsity C sp) (factors C sp A).1) = nnz C (Q_sparsity C sp) →
  length (nonzeros C (R_sparsity C sp) (factors C sp A).2) = nnz C (R_sparsity C sp) →
  shaped C (reset C m0 sp) A tr.
Proof.
  intros Hn Hrp Hcp HA HQ HR.
  destruct (reset_spec C m0 sp) as (Hsp & H1 & H2 & H3 & _ & _ & _ & Hw & Hq & Hr).
  unfold shaped. rewrite Hsp, H1, H2, H3, Hq, Hr.
  assert (M.nrow (reset C m0 sp) = n) as Hnrow
    by (unfold M.nrow; by rewrite Hsp).
  rewrite Hnrow. split; [done|]. split; [|split].
  - eexists _, _. split; [reflexivity|]. split; [exact HQ | exact HR].
  - intros ins. destruct tr; eexists; (split; [reflexivity|]);
      rewrite length_column_nonzeros; by apply invert_length.
  - rewrite Hw. lia.
Qed.

End Solver.

End SymbolicQr.

(** ** Concrete runs

    A dense instance of the core library over the integers: every pattern
    stores all its entries, column by column; the kernels are parameters.
    [trivial_qr] returns [Q = I] and [R] the matrix itself, a factorization
    with orthogonal [Q] of any matrix, with [R] triangular when the matrix
    is.  [unit_triangular_solve] solves a triangular system with ones on
    the diagonal by [n] rounds of substitution, which needs no division. *)

Definition dense_nonzeros {K : Scalar} (s : list Z) (A : Mat K) : list K :=
  concat ((λ j, (λ i, A i j) <$> seq 0 (size1 s)) <$> seq 0 (size2 s)).

Definition dense_matrix {K : Scalar} (s : list Z) (v : list K) : Mat K :=
  λ i j, nth (i + j * size1 s) v 0%K.

Definition dense_nnz (s : list Z) : nat := size1 s * size2 s.

(** Two stand-ins for [Sparsity::btf]: the identity permutations, and the
    permutations [(2, 0, 1)] of the rows and [(1, 2, 0)] of the columns of
    a [3 × 3] pattern. *)
Definition identity_btf (s : list Z) : Btf :=
  mkBtf (Z.of_nat <$> seq 0 (size1 s)) (Z.of_nat <$> seq 0 (size2 s)).

Definition cyclic_btf (s : list Z) : Btf := mkBtf [2; 0; 1]%Z [1; 2; 0]%Z.

Definition demo_work (name : string) (s : list Z) : Work :=
  if String.eqb name "QR_fact" then mkWork 1 2 0 5 else mkWork 3 1 0 7.

Definition dense_core {K : Scalar} (bt : list Z → Btf)
    (qr : nat → nat → Mat K → Mat K * Mat K)
    (slv : nat → Mat K → Mat K → Mat K) : Core K :=
  mkCore bt qr slv dense_nonzeros dense_matrix dense_nnz
    (λ s, s) (λ s, s) demo_work.

Definition trivial_qr {K : Scalar} (n1 n2 : nat) (A : Mat K) : Mat K * Mat K :=
  (eye, A).

Fixpoint substitute {K : Scalar} (rounds n : nat) (A b : Mat K) : Mat K :=
  match rounds with
  | 0 => b
  | S rounds' =>
      let x := substitute rounds' n A b in
      λ i j, (b i j -
              bigsum (seq 0 n)
                (λ k, if decide (k = i) then 0 else A i k * x k j))%K
  end.

Definition unit_triangular_solve {K : Scalar} (n : nat) (A b : Mat K)
    : Mat K :=
  substitute n n A b.

Definition demo : Core Zscalar :=
  dense_core cyclic_btf trivial_qr unit_triangular_solve.

Definition demo_identity : Core Zscalar :=
  dense_core identity_btf trivial_qr unit_triangular_solve.

Definition no_function : Function Zscalar :=
  mkFunction "" 0 0 (λ _, 0) 0 0 0 0 (λ _, []).

(** A Memory as [init_memory] leaves it: nothing allocated. *)
Definition fresh : SymbolicQrMemory.t Zscalar :=
  SymbolicQrMemory.mk [] [] [] [] [] no_function no_function no_function [] [].

(** The dense [3 × 3] and [1 × 1] patterns in compressed form. *)
Definition sp3 : list Z := [3; 3; 0; 3; 6; 9; 0; 1; 2; 0; 1; 2; 0; 1; 2]%Z.

Definition sp1 : list Z := [1; 1; 0; 1; 0]%Z.

(** The matrix with rows [(4, 0, 1)], [(1, 0, 0)] and [(3, 1, 2)], column
    by column; taking its rows in the order [(2, 0, 1)] and its columns in
    the order [(1, 2, 0)] gives the upper triangular matrix with rows
    [(1, 2, 3)], [(0, 1, 4)] and [(0, 0, 1)]. *)
Definition A3 : list Z := [4; 1; 3; 0; 0; 1; 1; 0; 2]%Z.

Ltac below3 i H :=
  destruct i as [|[|[|i]]]; [ | | | exfalso; clear - H; lia].

Lemma is_perm_201 : is_perm 3 [2; 0; 1]%Z.
Proof.
  unfold is_perm. simpl.
  etrans; [apply perm_swap|]. apply perm_skip, perm_swap.
Qed.

Lemma is_perm_120 : is_perm 3 [1; 2; 0]%Z.
Proof.
  unfold is_perm. simpl.
  etrans; [apply perm_skip, perm_swap|]. apply perm_swap.
Qed.

Lemma demo_qr_ok : SymbolicQr.qr_ok demo sp3 A3 3.
Proof.
  repeat split; intros i j Hi Hj; below3 i Hi; below3 j Hj; reflexivity.
Qed.

Lemma demo_storage_ok : SymbolicQr.storage_ok demo sp3 A3 3.
Proof.
  repeat split; intros i j Hi Hj; below3 i Hi; below3 j Hj; reflexivity.
Qed.

Lemma demo_solve_ok tr : SymbolicQr.solve_ok demo sp3 A3 [1; 2; 3]%Z 3 tr.
Proof. destruct tr; intros k Hk; below3 k Hk; reflexivity. Qed.

(** The specification's scenario, the [3 × 3] identity matrix and
    [b = (1, 2, 3)], and the matrix [A3] under the cyclic permutations:
    [factorize] then [solve] with one right-hand side gives the solution of
    [A·x = b], and of [Aᵗ·x = b] when transposed. *)
Example identity_solve_123 :
  (SymbolicQr.solve
     (SymbolicQr.factorize (SymbolicQr.reset demo_identity fresh sp3)
        [1; 0; 0; 0; 1; 0; 0; 0; 1]%Z)
     [1; 2; 3]%Z 1 false).1.2 = [1; 2; 3]%Z.
Proof. reflexivity. Qed.

Example demo_solve :
  (SymbolicQr.solve (SymbolicQr.factorize (SymbolicQr.reset demo fresh sp3) A3)
     [1; 2; 3]%Z 1 false).1.2 = [2; 11; -7]%Z ∧
  (SymbolicQr.solve (SymbolicQr.factorize (SymbolicQr.reset demo fresh sp3) A3)
     [1; 2; 3]%Z 1 true).1.2 = [-1; -1; 2]%Z.
Proof. split; reflexivity. Qed.

(** Witness of C1: the matrix [A3] with its two BTF permutations and the
    right-hand side [(1, 2, 3)]. *)
Lemma solve_solves_system_witness :
  let m := SymbolicQr.factorize (SymbolicQr.reset demo fresh sp3) A3 in
  let x := (SymbolicQr.solve m [1; 2; 3]%Z 1 false).1.2 in
  length x = 3 ∧
  ∀ i, i < 3 →
    mtimes 3 (matrix demo sp3 A3) (column x) i 0 = nth i [1; 2; 3]%Z 0%Z.
Proof.
  exact (SymbolicQr.solve_solves_system demo fresh sp3 A3 [1; 2; 3]%Z false 3
           eq_refl eq_refl is_perm_201 is_perm_120 eq_refl
           demo_qr_ok demo_storage_ok (demo_solve_ok false)).
Defined.

(** Counterexample to C1 as stated: for the [1 × 1] matrix [A = (0)] and
    [b = (1)] no choice of the kernels makes [solve] return an [x] with
    [A·x = b]. *)
Lemma solve_singular_counterexample :
  ¬ ∃ (qr' : nat → nat → Mat Zscalar → Mat Zscalar * Mat Zscalar)
      (slv' : nat → Mat Zscalar → Mat Zscalar → Mat Zscalar),
      let C := dense_core identity_btf qr' slv' in
      let m := SymbolicQr.factorize (SymbolicQr.reset C fresh sp1) [0%Z] in
      let x := (SymbolicQr.solve m [1%Z] 1 false).1.2 in
      mtimes 1 (matrix C sp1 [0%Z]) (column x) 0 0 = nth 0 [1%Z] 0%Z.
Proof. intros (qr' & slv' & H). vm_compute in H. discriminate H. Qed.

(** Witness of C2. *)
Lemma invert_perm_identity_witness :
  invert [2; 0; 1]%Z = [1; 2; 0]%Z ∧
  length (invert [2; 0; 1]%Z) = 3 ∧
  (∀ k, k < 3 → ix (invert [2; 0; 1]%Z) (ix [2; 0; 1]%Z k) = k) ∧
  (∀ j, j < 3 → ix [2; 0; 1]%Z (ix (invert [2; 0; 1]%Z) j) = j).
Proof.
  split; [reflexivity|]. exact (invert_perm_identity 3 [2; 0; 1]%Z is_perm_201).
Defined.

(** Witness of C3: two right-hand sides, [(1, 2, 3)] and [(4, 5, 6)]; the
    temporary holds each in turn when the Function is called on it. *)
Lemma solve_processes_each_rhs_witness :
  let m := SymbolicQr.factorize (SymbolicQr.reset demo fresh sp3) A3 in
  let x := [1; 2; 3; 4; 5; 6]%Z in
  ∃ m' calls,
    SymbolicQr.solve m x 2 false = (m', [2; 11; -7; 5; 23; -16]%Z, calls) ∧
    calls =
      [("QR_solv", [SymbolicQrMemory.q m; SymbolicQrMemory.r m; [1; 2; 3]%Z]);
       ("QR_solv", [SymbolicQrMemory.q m; SymbolicQrMemory.r m; [4; 5; 6]%Z])] ∧
    ∀ i, i < 2 →
      ∃ m1 x1 cs,
        SymbolicQr.solve m x (Z.of_nat (S i)) false = (m1, x1, cs) ∧
        take 3 (SymbolicQrMemory.w m1) = take 3 (drop (i * 3) x) ∧
        SymbolicQrMemory.arg m1 !! 0 = Some ptr_q ∧
        SymbolicQrMemory.arg m1 !! 1 = Some ptr_r ∧
        SymbolicQrMemory.arg m1 !! 2 = Some (ptr_w 0) ∧
        SymbolicQrMemory.res m1 !! 0 = Some (ptr_x (i * 3)) ∧
        cs !! i =
          Some ("QR_solv", [SymbolicQrMemory.q m; SymbolicQrMemory.r m;
                            take 3 (SymbolicQrMemory.w m1)]).
Proof.
  intros m x.
  destruct (SymbolicQr.solve_processes_each_rhs m x 2 false)
    as (m' & x' & calls & Hrun & Hcalls & Hx & _ & _ & _ & _ & _ & Hpass).
  - reflexivity.
  - vm_compute. lia.
  - intros ins. reflexivity.
  - exists m', calls. rewrite Hrun, Hcalls, Hx.
    split; [reflexivity|]. split; [reflexivity|].
    intros i Hi.
    destruct (Hpass i Hi)
      as (m0 & x0 & cs & m1 & x1 & c & H0 & _ & HS & _ & _ & Htake & _ & _ &
          Ha & Hr & Hc & _).
    exists m1, x1, (cs ++ [c]). split; [exact HS|]. split; [exact Htake|].
    destruct Ha as (A0 & A1 & A2); [vm_compute; lia|].
    split; [exact A0|]. split; [exact A1|]. split; [exact A2|].
    split; [apply Hr; vm_compute; lia|].
    assert (length cs = i) as <-.
    { apply (f_equal (λ p, length p.2)) in H0. simpl in H0. rewrite <- H0.
      destruct i as [|[|i]]; [reflexivity | reflexivity | lia]. }
    rewrite lookup_app_r, Nat.sub_diag by done. simpl. by rewrite Hc.
Defined.

(** Counterexample to C4 as stated: the three Functions ask for at most
    [7] floating scratch words, a right-hand side has [3] entries, and
    [reset] leaves [w] with [7 + 3] entries: there is room for one
    temporary, not for one per right-hand side of a call with two. *)
Lemma reset_one_temporary_counterexample :
  let m := SymbolicQr.reset demo fresh sp3 in
  Nat.max (Nat.max (sz_w (SymbolicQrMemory.factorize m))
                   (sz_w (SymbolicQrMemory.solve m)))
          (sz_w (SymbolicQrMemory.solveT m)) = 7 ∧
  SymbolicQrMemory.nrow m = 3 ∧
  length (SymbolicQrMemory.w m) = 7 + 3 ∧
  ¬ (7 + 2 * 3 ≤ length (SymbolicQrMemory.w m)).
Proof. repeat split; try reflexivity. vm_compute. lia. Qed.

(** Counterexample to C5 as stated: after [factorize] of the [1 × 1]
    matrix [(5)] the stored factor [R] is [(5)]; a second [factorize], of
    the singular matrix [(0)], leaves the singular factor [(0)] in its
    place. *)
Lemma factorize_singular_counterexample :
  let m1 := SymbolicQr.factorize (SymbolicQr.reset demo_identity fresh sp1) [5%Z] in
  let m2 := SymbolicQr.factorize m1 [0%Z] in
  SymbolicQrMemory.q m1 = [1%Z] ∧ SymbolicQrMemory.r m1 = [5%Z] ∧
  SymbolicQrMemory.r m2 = [0%Z] ∧
  SymbolicQrMemory.r m2 ≠ SymbolicQrMemory.r m1.
Proof. repeat split; try reflexivity. vm_compute. discriminate. Qed.

(** Two allocations in either order. *)
Lemma alloc_order_irrelevant_witness :
  let f := SymbolicQr.QR_fact demo sp3 in
  let g := SymbolicQr.QR_solv demo sp3 in
  foldl SymbolicQrMemory.alloc fresh [f; g] =
    foldl SymbolicQrMemory.alloc fresh [g; f] ∧
  Forall (λ h, SymbolicQrMemory.alloc (foldl SymbolicQrMemory.alloc fresh [f; g]) h
               = foldl SymbolicQrMemory.alloc fresh [f; g]) [f; g].
Proof.
  intros f g.
  exact (SymbolicQrMemory.alloc_order_irrelevant fresh [f; g] [g; f]
           (perm_swap g f [])).
Defined.

(** The row permutation [(2, 0, 1)] inverted twice. *)
Lemma invert_involutive_witness :
  invert [2; 0; 1]%Z = [1; 2; 0]%Z ∧ invert (invert [2; 0; 1]%Z) = [2; 0; 1]%Z.
Proof.
  split; [reflexivity|]. exact (invert_involutive 3 [2; 0; 1]%Z is_perm_201).
Defined.

(** The outputs of the demo QR Function have the sizes it reports. *)
Lemma demo_factor_sizes (A : list Z) (i : nat) :
  length (nth i (eval (SymbolicQrMemory.factorize
                         (SymbolicQr.reset demo fresh sp3)) [A]) []) =
  nnz_out (SymbolicQrMemory.factorize (SymbolicQr.reset demo fresh sp3)) i.
Proof. destruct i as [|[|i]]; [reflexivity | reflexivity | by destruct i]. Qed.

(** The identity matrix factorized after [A3]. *)
Lemma factorize_forgets_witness :
  let m := SymbolicQr.reset demo fresh sp3 in
  SymbolicQr.factorize (SymbolicQr.factorize m A3) [1; 0; 0; 0; 1; 0; 0; 0; 1]%Z =
  SymbolicQr.factorize m [1; 0; 0; 0; 1; 0; 0; 0; 1]%Z.
Proof.
  intros m.
  exact (SymbolicQr.factorize_forgets m A3 [1; 0; 0; 0; 1; 0; 0; 0; 1]%Z
           demo_factor_sizes).
Defined.

(** The right-hand sides [(1, 2, 3)] and [(4, 5, 6)], solved together and
    one by one. *)
Lemma solve_app_witness :
  let m := SymbolicQr.factorize (SymbolicQr.reset demo fresh sp3) A3 in
  (SymbolicQr.solve m [1; 2; 3; 4; 5; 6]%Z 2 false).1.2 =
    (SymbolicQr.solve m [1; 2; 3]%Z 1 false).1.2 ++
    (SymbolicQr.solve m [4; 5; 6]%Z 1 false).1.2 ∧
  (SymbolicQr.solve m [1; 2; 3]%Z 1 false).1.2 = [2; 11; -7]%Z ∧
  (SymbolicQr.solve m [4; 5; 6]%Z 1 false).1.2 = [5; 23; -16]%Z.
Proof.
  intros m.
  destruct (SymbolicQr.solve_app m [1; 2; 3]%Z [4; 5; 6]%Z 1 1 false)
    as (Hx & _).
  - lia.
  - lia.
  - reflexivity.
  - reflexivity.
  - vm_compute. lia.
  - intros ins. reflexivity.
  - split; [exact Hx|]. split; reflexivity.
Defined.

(** One right-hand side in a buffer of five entries: the last two are
    kept. *)
Lemma solve_leaves_tail_witness :
  let m := SymbolicQr.factorize (SymbolicQr.reset demo fresh sp3) A3 in
  (SymbolicQr.solve m [1; 2; 3; 9; 9]%Z 1 false).1.2 = [2; 11; -7; 9; 9]%Z ∧
  drop 3 (SymbolicQr.solve m [1; 2; 3; 9; 9]%Z 1 false).1.2 = [9; 9]%Z.
Proof.
  intros m.
  destruct (SymbolicQr.solve_leaves_tail m [1; 2; 3; 9; 9]%Z 1 false)
    as (_ & _ & Htail).
  - vm_compute. lia.
  - vm_compute. lia.
  - intros ins. reflexivity.
  - split; [reflexivity | exact Htail].
Defined.

(** The demo pattern and matrix meet the conditions of [reset_shaped]. *)
Lemma reset_shaped_witness :
  SymbolicQr.shaped demo (SymbolicQr.reset demo fresh sp3) A3 true.
Proof.
  exact (SymbolicQr.reset_shaped demo fresh sp3 A3 true 3
           eq_refl is_perm_201 is_perm_120 eq_refl eq_refl eq_refl).
Defined.

(** The demo Memory after [reset] has Functions of the shapes needed. *)
Lemma demo_shaped tr :
  SymbolicQr.shaped demo (SymbolicQr.reset demo fresh sp3) A3 tr.
Proof.
  split; [reflexivity|]. split.
  - eexists _, _. split; [reflexivity|]. split; reflexivity.
  - split; [|vm_compute; lia].
    intros ins. destruct tr; eexists; (split; [reflexivity|]); reflexivity.
Qed.

(** One right-hand side, symbolically and numerically. *)
Lemma linsol_eval_sx_agrees_witness :
  let m := SymbolicQr.reset demo fresh sp3 in
  SymbolicQr.linsol_eval_sx (λ cond, cond) "out_of_range" demo m
    (Some [1; 2; 3]%Z) (Some A3) (Some [0; 0; 0]%Z) false 1 =
    Ok (SymbolicQr.solve (SymbolicQr.factorize m A3) [1; 2; 3]%Z 1 false).1.2 ∧
  (SymbolicQr.solve (SymbolicQr.factorize m A3) [1; 2; 3]%Z 1 false).1.2 =
    [2; 11; -7]%Z.
Proof.
  intros m. split; [|reflexivity].
  exact (SymbolicQr.linsol_eval_sx_agrees (λ cond, cond) "out_of_range" demo m
           [1; 2; 3]%Z A3 [0; 0; 0]%Z false (demo_shaped false)
           eq_refl eq_refl).
Defined.


(** ** WorhpInterface *)

Module WorhpInterface.

(** The types of WORHP parameters the adapter tells apart; every other
    type falls to the [default] branch of its [switch]. *)
Inductive WorhpType : Type :=
  | WORHP_BOOL_T
  | WORHP_DOUBLE_T
  | WORHP_INT_T
  | WORHP_OTHER_T.

(** The parameter table of the WORHP library: [WorhpGetParamCount()],
    [WorhpGetParamName(ind)] and [WorhpGetParamType(ind)] for
    [1 <= ind <= count]. *)
Record ParamTable : Type := mkParamTable {
  WorhpGetParamCount : Z;
  WorhpGetParamName : Z → string;
  WorhpGetParamType : Z → WorhpType
}.

(** The members [init] touches, with the state [base] of the base class
    [Nlpsol]. *)
Record t (F B : Type) : Type := mk {
  base : B;
  bool_opts : gmap string bool;
  double_opts : gmap string F;
  int_opts : gmap string Z
}.

Arguments mk {F B}.
Arguments base {F B}.
Arguments bool_opts {F B}.
Arguments double_opts {F B}.
Arguments int_opts {F B}.

Definition no_such_option (key : string) : string :=
  "No such Worhp option: " +:+ key.

Definition unknown_type (key : string) : string :=
  "Cannot handle WORHP option " +:+ dq +:+ key +:+ dq +:+ ": Unknown type".

(** [WorhpInterface::options_]: the table of [Nlpsol] and the one option
    the class declares. *)
Definition options_ (Nlpsol_options : Options) : Options :=
  mkOptions [Nlpsol_options]
    [("worhp", (OT_DICT, "Options to be passed to WORHP"))].

Section Init.
Context {G F B : Type} (ops : GenericOps G F) (P : ParamTable).
Context (Nlpsol_init : B → list (string * G) → result B).
Context (setup_functions : B → result B).

(** The loop [for (auto&& op : opts) if (op.first=="worhp") worhp_opts =
    op.second;]. *)
Fixpoint read_options (opts : list (string * G))
    (worhp_opts : list (string * G)) : result (list (string * G)) :=
  match opts with
  | [] => Ok worhp_opts
  | (key, value) :: opts' =>
      if String.eqb key "worhp" then
        d ← to_dict ops value; read_options opts' d
      else read_options opts' worhp_opts
  end.

(** The linear search [for (ind=1; ind<=nopts; ++ind) if
    (op.first.compare(WorhpGetParamName(ind))==0) break;] entered at [ind]
    with [steps] indices left: the index it stops at. *)
Fixpoint search (key : string) (ind : Z) (steps : nat) : Z :=
  match steps with
  | 0 => ind
  | S steps' =>
      if String.eqb key (WorhpGetParamName P ind) then ind
      else search key (ind + 1) steps'
  end.

Definition find_param (key : string) : Z :=
  search key 1 (Z.to_nat (WorhpGetParamCount P)).

(** The loop [for (auto&& op : worhp_opts)] that sorts the options by the
    type of the WORHP parameter they name. *)
Fixpoint sort_options (worhp_opts : list (string * G)) (o : t F B)
    : result (t F B) :=
  match worhp_opts with
  | [] => Ok o
  | (key, value) :: rest =>
      let ind := find_param key in
      if decide (WorhpGetParamCount P < ind)%Z then Error (no_such_option key)
      else
        match WorhpGetParamType P ind with
        | WORHP_BOOL_T =>
            v ← to_bool ops value;
            sort_options rest
              (mk (base o) (<[key := v]> (bool_opts o)) (double_opts o) (int_opts o))
        | WORHP_DOUBLE_T =>
            v ← to_double ops value;
            sort_options rest
              (mk (base o) (bool_opts o) (<[key := v]> (double_opts o)) (int_opts o))
        | WORHP_INT_T =>
            v ← to_int ops value;
            sort_options rest
              (mk (base o) (bool_opts o) (double_opts o) (<[key := v]> (int_opts o)))
        | WORHP_OTHER_T => Error (unknown_type key)
        end
  end.

(** [WorhpInterface::init]: the base class initializer, the two loops, then
    the set-up of the NLP functions and of the work vector. *)
Definition init (o : t F B) (opts : list (string * G)) : result (t F B) :=
  b ← Nlpsol_init (base o) opts;
  let o := mk b (bool_opts o) (double_opts o) (int_opts o) in
  worhp_opts ← read_options opts [];
  o ← sort_options worhp_opts o;
  b ← setup_functions (base o);
  Ok (mk b (bool_opts o) (double_opts o) (int_opts o)).

(** No WORHP parameter is called [key]. *)
Definition no_param (key : string) : Prop :=
  ∀ ind, (1 ≤ ind ≤ WorhpGetParamCount P)%Z → WorhpGetParamName P ind ≠ key.

(** The first WORHP parameter called [key] has a type the adapter does not
    handle. *)
Definition unhandled_param (key : string) : Prop :=
  (find_param key ≤ WorhpGetParamCount P)%Z ∧
  WorhpGetParamType P (find_param key) = WORHP_OTHER_T.

Lemma search_spec key : ∀ steps ind,
  (ind ≤ search key ind steps ≤ ind + Z.of_nat steps)%Z ∧
  (∀ j, (ind ≤ j < search key ind steps)%Z → WorhpGetParamName P j ≠ key) ∧
  ((search key ind steps < ind + Z.of_nat steps)%Z →
     WorhpGetParamName P (search key ind steps) = key).
Proof.
  induction steps as [|steps IH]; intros ind; simpl.
  - split; [lia|]. split; intros; lia.
  - destruct (String.eqb_spec key (WorhpGetParamName P ind)) as [He|Hne].
    + split; [lia|]. split; [intros; lia | done].
    + destruct (IH (ind + 1)%Z) as (Hr & Hbelow & Hhit).
      split; [lia|]. split.
      * intros j Hj. destruct (decide (j = ind)) as [->|?]; [done|].
        apply Hbelow. lia.
      * intros Hlt. apply Hhit. lia.
Qed.

(** The search runs past the table exactly when no parameter has the
    name. *)
Lemma find_param_none key :
  no_param key ↔ (WorhpGetParamCount P < find_param key)%Z.
Proof.
  unfold find_param, no_param.
  destruct (search_spec key (Z.to_nat (WorhpGetParamCount P)) 1) as (Hr & Hbelow & Hhit).
  split.
  - intros Hno.
    destruct (decide (WorhpGetParamCount P <
                      search key 1 (Z.to_nat (WorhpGetParamCount P)))%Z) as [|Hge];
      [done|].
    exfalso. apply (Hno (search key 1 (Z.to_nat (WorhpGetParamCount P)))); [lia|].
    apply Hhit. lia.
  - intros Hgt ind Hind. apply Hbelow. lia.
Qed.

Lemma sort_options_rejects worhp_opts : ∀ o key,
  key ∈ worhp_opts.*1 → no_param key ∨ unhandled_param key →
  is_error (sort_options worhp_opts o).
Proof.
  induction worhp_opts as [|[k v] rest IH]; intros o key Hin Hbad; simpl in *.
  - by apply elem_of_nil in Hin.
  - destruct (decide (WorhpGetParamCount P < find_param k)%Z) as [|Hfound];
      [by eexists|].
    apply elem_of_cons in Hin as [<-|Hin].
    + destruct Hbad as [Hno|[_ Hty]].
      * apply find_param_none in Hno. lia.
      * rewrite Hty. by eexists.
    + destruct (WorhpGetParamType P (find_param k)).
      * destruct (to_bool ops v); simpl; [by eapply IH | by eexists].
      * destruct (to_double ops v); simpl; [by eapply IH | by eexists].
      * destruct (to_int ops v); simpl; [by eapply IH | by eexists].
      * by eexists.
Qed.

(** A dictionary without the key [worhp] leaves the WORHP options as they
    were. *)
Lemma read_worhp_passes_over opts worhp_opts :
  (∀ key, key ∈ opts.*1 → key ≠ "worhp") →
  read_options opts worhp_opts = Ok worhp_opts.
Proof.
  induction opts as [|[key value] opts IH]; intros H; [done|]. simpl.
  destruct (String.eqb_spec key "worhp") as [->|_].
  - by destruct (H "worhp"); [left|].
  - apply IH. intros key' Hin. apply H. by right.
Qed.

Lemma init_nlpsol_error o opts msg :
  Nlpsol_init (base o) opts = Error msg → init o opts = Error msg.
Proof. intros H. unfold init. by rewrite H. Qed.

Lemma init_rejects o opts worhp_opts key :
  read_options opts [] = Ok worhp_opts →
  key ∈ worhp_opts.*1 → no_param key ∨ unhandled_param key →
  is_error (init o opts).
Proof.
  intros Hread Hin Hbad. unfold init.
  destruct (Nlpsol_init (base o) opts) as [b|msg]; simpl; [|by eexists].
  rewrite Hread. simpl.
  destruct (sort_options_rejects worhp_opts
              (mk b (bool_opts o) (double_opts o) (int_opts o)) key Hin Hbad)
    as [msg ->].
  by eexists.
Qed.

(** [init] itself has no objection to a top-level key other than
    [worhp]. *)
Lemma init_worhp_passes_over o opts b b' :
  Nlpsol_init (base o) opts = Ok b →
  (∀ key, key ∈ opts.*1 → key ≠ "worhp") →
  setup_functions b = Ok b' →
  init o opts = Ok (mk b' (bool_opts o) (double_opts o) (int_opts o)).
Proof.
  intros Hb Hkeys Hs. unfold init. rewrite Hb. simpl.
  rewrite read_worhp_passes_over by done. simpl. by rewrite Hs.
Qed.

Lemma init_no_such_option o b value key v :
  Nlpsol_init (base o) [("worhp", value)] = Ok b →
  to_dict ops value = Ok [(key, v)] → no_param key →
  init o [("worhp", value)] = Error (no_such_option key).
Proof.
  intros Hb Hd Hno. unfold init. rewrite Hb. simpl. rewrite Hd. simpl.
  apply find_param_none in Hno. by rewrite decide_True.
Qed.

Lemma init_unknown_type o b value key v :
  Nlpsol_init (base o) [("worhp", value)] = Ok b →
  to_dict ops value = Ok [(key, v)] → unhandled_param key →
  init o [("worhp", value)] = Error (unknown_type key).
Proof.
  intros Hb Hd [Hfound Hty]. unfold init. rewrite Hb. simpl. rewrite Hd. simpl.
  rewrite decide_False by lia. by rewrite Hty.
Qed.

(** X12. The linear search stops at the first parameter of the name: the
    index found is at least [1]; when it lies within the table it is the
    least index whose WORHP name is the key; it lies beyond the table
    exactly when no parameter has the name; and with an empty table
    ([WorhpGetParamCount() ≤ 0]) the search stops at [1] at once, so every
    key is unknown. *)
Theorem find_param_least key :
  let ind := find_param key in
  let nopts := WorhpGetParamCount P in
  (1 ≤ ind)%Z ∧
  ((ind ≤ nopts)%Z →
     WorhpGetParamName P ind = key ∧
     ∀ j, (1 ≤ j < ind)%Z → WorhpGetParamName P j ≠ key) ∧
  ((nopts < ind)%Z ↔ no_param key) ∧
  ((nopts < ind)%Z → ind = (Z.max nopts 0 + 1)%Z).
Proof.
  intros ind nopts.
  destruct (search_spec key (Z.to_nat nopts) 1) as (Hr & Hbelow & Hhit).
  change (search key 1 (Z.to_nat nopts)) with ind in Hr, Hbelow, Hhit.
  clearbody ind. subst nopts.
  split; [lia|]. split; [|split].
  - intros Hin. split; [apply Hhit; lia | exact Hbelow].
  - split.
    + intros Hgt j Hj. apply Hbelow. lia.
    + intros Hno. destruct (decide (WorhpGetParamCount P < ind)%Z) as [|Hge]; [done|].
      exfalso. apply (Hno ind); [lia|]. apply Hhit. lia.
  - lia.
Qed.

(** The maps of an adapter that agree off the keys of a dictionary. *)
Lemma sort_options_frame worhp_opts : ∀ (o o' : t F B),
  sort_options worhp_opts o = Ok o' →
  base o' = base o ∧
  ∀ key, key ∉ worhp_opts.*1 →
    bool_opts o' !! key = bool_opts o !! key ∧
    double_opts o' !! key = double_opts o !! key ∧
    int_opts o' !! key = int_opts o !! key.
Proof.
  induction worhp_opts as [|[k v] rest IH]; intros o o' Hs; simpl in Hs.
  - by injection Hs as <-.
  - case_decide; [done|].
    destruct (WorhpGetParamType P (find_param k)); [| | |done].
    + destruct (to_bool ops v) as [x|]; simpl in Hs; [|done].
      destruct (IH _ _ Hs) as [Hb Hk]. split; [done|].
      intros key Hkey. apply not_elem_of_cons in Hkey as [Hne Hkey].
      destruct (Hk key Hkey) as (-> & -> & ->). simpl.
      by rewrite lookup_insert_ne.
    + destruct (to_double ops v) as [x|]; simpl in Hs; [|done].
      destruct (IH _ _ Hs) as [Hb Hk]. split; [done|].
      intros key Hkey. apply not_elem_of_cons in Hkey as [Hne Hkey].
      destruct (Hk key Hkey) as (-> & -> & ->). simpl.
      by rewrite lookup_insert_ne.
    + destruct (to_int ops v) as [x|]; simpl in Hs; [|done].
      destruct (IH _ _ Hs) as [Hb Hk]. split; [done|].
      intros key Hkey. apply not_elem_of_cons in Hkey as [Hne Hkey].
      destruct (Hk key Hkey) as (-> & -> & ->). simpl.
      by rewrite lookup_insert_ne.
Qed.

(** Where an option of the [worhp] dictionary ends up: in the map of the
    type of the first WORHP parameter of its name, converted to that type,
    the other two maps being left alone at its key. *)
Definition stored (o o' : t F B) (key : string) (value : G) : Prop :=
  match WorhpGetParamType P (find_param key) with
  | WORHP_BOOL_T =>
      ∃ v, to_bool ops value = Ok v ∧ bool_opts o' !! key = Some v ∧
           double_opts o' !! key = double_opts o !! key ∧
           int_opts o' !! key = int_opts o !! key
  | WORHP_DOUBLE_T =>
      ∃ v, to_double ops value = Ok v ∧ double_opts o' !! key = Some v ∧
           bool_opts o' !! key = bool_opts o !! key ∧
           int_opts o' !! key = int_opts o !! key
  | WORHP_INT_T =>
      ∃ v, to_int ops value = Ok v ∧ int_opts o' !! key = Some v ∧
           bool_opts o' !! key = bool_opts o !! key ∧
           double_opts o' !! key = double_opts o !! key
  | WORHP_OTHER_T => False
  end.

(** X13. When the sorting loop of [init] returns normally, every option of
    the [worhp] dictionary (a [std::map]: no key twice) names a WORHP
    parameter of type bool, double or int and is stored, converted, in the
    map of that type and in no other; the maps are unchanged at every key
    that is not in the dictionary, and the base class state is not
    touched. *)
Theorem sort_options_stores worhp_opts (o o' : t F B) :
  NoDup worhp_opts.*1 →
  sort_options worhp_opts o = Ok o' →
  base o' = base o ∧
  (∀ key value, (key, value) ∈ worhp_opts →
     (1 ≤ find_param key ≤ WorhpGetParamCount P)%Z ∧
     WorhpGetParamName P (find_param key) = key ∧
     stored o o' key value) ∧
  (∀ key, key ∉ worhp_opts.*1 →
     bool_opts o' !! key = bool_opts o !! key ∧
     double_opts o' !! key = double_opts o !! key ∧
     int_opts o' !! key = int_opts o !! key).
Proof.
  intros Hnd Hs.
  destruct (sort_options_frame worhp_opts o o' Hs) as [Hb Hframe].
  split; [done|]. split; [|done]. clear Hb Hframe.
  revert o Hnd Hs.
  induction worhp_opts as [|[k v] rest IH]; intros o Hnd Hs key value Hin.
  { by apply elem_of_nil in Hin. }
  apply NoDup_cons in Hnd as [Hk Hnd]. simpl in Hs.
  case_decide as Hfound; [done|].
  apply elem_of_cons in Hin as [Heq|Hin].
  - injection Heq as -> ->.
    destruct (search_spec k (Z.to_nat (WorhpGetParamCount P)) 1)
      as (Hr & _ & Hhit).
    change (search k 1 (Z.to_nat (WorhpGetParamCount P)))
      with (find_param k) in Hr, Hhit.
    split; [lia|]. split; [apply Hhit; lia|].
    unfold stored.
    destruct (WorhpGetParamType P (find_param k)); [| | |done].
    + destruct (to_bool ops v) as [x|]; simpl in Hs; [|done].
      destruct (sort_options_frame rest _ o' Hs) as [_ Hk'].
      destruct (Hk' k Hk) as (-> & -> & ->). simpl.
      exists x. by rewrite lookup_insert_eq.
    + destruct (to_double ops v) as [x|]; simpl in Hs; [|done].
      destruct (sort_options_frame rest _ o' Hs) as [_ Hk'].
      destruct (Hk' k Hk) as (-> & -> & ->). simpl.
      exists x. by rewrite lookup_insert_eq.
    + destruct (to_int ops v) as [x|]; simpl in Hs; [|done].
      destruct (sort_options_frame rest _ o' Hs) as [_ Hk'].
      destruct (Hk' k Hk) as (-> & -> & ->). simpl.
      exists x. by rewrite lookup_insert_eq.
  - assert (key ≠ k) as Hne.
    { intros ->. apply Hk. apply list_elem_of_fmap. by exists (k, value). }
    assert (∀ o1, sort_options rest o1 = Ok o' →
              bool_opts o1 !! key = bool_opts o !! key →
              double_opts o1 !! key = double_opts o !! key →
              int_opts o1 !! key = int_opts o !! key →
              (1 ≤ find_param key ≤ WorhpGetParamCount P)%Z ∧
              WorhpGetParamName P (find_param key) = key ∧
              stored o o' key value) as Hrest.
    { intros o1 Hs1 E1 E2 E3.
      destruct (IH o1 Hnd Hs1 key value Hin) as (Hr & Hn & Hst).
      split; [done|]. split; [done|].
      unfold stored in *. rewrite <- E1, <- E2, <- E3. exact Hst. }
    destruct (WorhpGetParamType P (find_param k)); [| | |done].
    + destruct (to_bool ops v) as [x|]; simpl in Hs; [|done].
      apply (Hrest _ Hs); simpl; [by rewrite lookup_insert_ne | done | done].
    + destruct (to_double ops v) as [x|]; simpl in Hs; [|done].
      apply (Hrest _ Hs); simpl; [done | by rewrite lookup_insert_ne | done].
    + destruct (to_int ops v) as [x|]; simpl in Hs; [|done].
      apply (Hrest _ Hs); simpl; [done | done | by rewrite lookup_insert_ne].
Qed.

(** The first loop on a dictionary that holds the key [worhp]: its value,
    converted to a dictionary. *)
Lemma read_options_worhp opts : ∀ worhp_opts value,
  NoDup opts.*1 → ("worhp", value) ∈ opts →
  read_options opts worhp_opts = to_dict ops value.
Proof.
  induction opts as [|[k v] opts IH]; intros worhp_opts value Hnd Hin.
  { by apply elem_of_nil in Hin. }
  simpl in Hnd. apply NoDup_cons in Hnd as [Hk Hnd].
  apply elem_of_cons in Hin as [Heq|Hin].
  - injection Heq as <- <-. simpl.
    destruct (to_dict ops value) as [d|msg]; simpl; [|done].
    apply read_worhp_passes_over. intros key Hkey ->. by apply Hk.
  - assert (k ≠ "worhp") as Hne.
    { intros ->. apply Hk. apply list_elem_of_fmap. by exists ("worhp", value). }
    simpl. destruct (String.eqb_spec k "worhp"); [done|]. by apply IH.
Qed.

(** X14. [init] on any dictionary (no key twice) that holds the key
    [worhp], the base class accepting it: the other top-level keys do not
    count, and the result is that of converting the value of [worhp] to a
    dictionary, sorting its options into the three maps and setting up the
    NLP functions, the first error among the three being the error of
    [init]. *)
Theorem init_sorts_worhp_dictionary (o : t F B) opts b value :
  NoDup opts.*1 → ("worhp", value) ∈ opts →
  Nlpsol_init (base o) opts = Ok b →
  init o opts =
    match to_dict ops value with
    | Error msg => Error msg
    | Ok worhp_opts =>
        match sort_options worhp_opts
                (mk b (bool_opts o) (double_opts o) (int_opts o)) with
        | Error msg => Error msg
        | Ok o1 =>
            match setup_functions (base o1) with
            | Error msg => Error msg
            | Ok b' => Ok (mk b' (bool_opts o1) (double_opts o1) (int_opts o1))
            end
        end
    end.
Proof.
  intros Hnd Hin Hb. unfold init. rewrite Hb. simpl.
  rewrite (read_options_worhp opts [] value Hnd Hin).
  destruct (to_dict ops value) as [d|msg]; simpl; [|done].
  destruct (sort_options d _) as [o1|msg]; simpl; [|done].
  by destruct (setup_functions (base o1)).
Qed.

(** Modelled from the spec: the initialization of a [WorhpInterface] with a
    dictionary, as the core library drives it: the validation of the keys
    against the option table, then [init]. *)
Definition construct (Nlpsol_options : Options)
    (o : t F B) (opts : list (string * G)) : result (t F B) :=
  _ ← check_options (options_ Nlpsol_options) opts;
  init o opts.

(** An option the sorting loop takes: its key names a WORHP parameter of
    type bool, double or int, and its value converts to that type. *)
Definition accepted (key : string) (value : G) : Prop :=
  (find_param key ≤ WorhpGetParamCount P)%Z ∧
  match WorhpGetParamType P (find_param key) with
  | WORHP_BOOL_T => ∃ v, to_bool ops value = Ok v
  | WORHP_DOUBLE_T => ∃ v, to_double ops value = Ok v
  | WORHP_INT_T => ∃ v, to_int ops value = Ok v
  | WORHP_OTHER_T => False
  end.

(** The sorting loop stops at the first option it does not take, on a key
    that names no parameter with the message for that key. *)
Lemma sort_options_no_such pre post key value : ∀ o,
  (∀ k v, (k, v) ∈ pre → accepted k v) → no_param key →
  sort_options (pre ++ (key, value) :: post) o = Error (no_such_option key).
Proof.
  induction pre as [|[k v] pre IH]; intros o Hpre Hno; simpl.
  - apply find_param_none in Hno. by rewrite decide_True.
  - destruct (Hpre k v) as [Hfound Hty]; [left|].
    rewrite decide_False by lia.
    assert (∀ k' v', (k', v') ∈ pre → accepted k' v') as Hpre'.
    { intros k' v' Hin. apply Hpre. by right. }
    destruct (WorhpGetParamType P (find_param k)); [| | |done];
      destruct Hty as [x ->]; simpl; by apply IH.
Qed.

(** On a key that names a parameter of another type, with the message for
    that key. *)
Lemma sort_options_unknown_type pre post key value : ∀ o,
  (∀ k v, (k, v) ∈ pre → accepted k v) → unhandled_param key →
  sort_options (pre ++ (key, value) :: post) o = Error (unknown_type key).
Proof.
  induction pre as [|[k v] pre IH]; intros o Hpre Hun; simpl.
  - destruct Hun as [Hfound Hty]. rewrite decide_False by lia. by rewrite Hty.
  - destruct (Hpre k v) as [Hfound Hty]; [left|].
    rewrite decide_False by lia.
    assert (∀ k' v', (k', v') ∈ pre → accepted k' v') as Hpre'.
    { intros k' v' Hin. apply Hpre. by right. }
    destruct (WorhpGetParamType P (find_param k)); [| | |done];
      destruct Hty as [x ->]; simpl; by apply IH.
Qed.

Lemma init_first_rejected o opts b value pre post key v :
  NoDup opts.*1 → ("worhp", value) ∈ opts →
  Nlpsol_init (base o) opts = Ok b →
  to_dict ops value = Ok (pre ++ (key, v) :: post) →
  (∀ k v', (k, v') ∈ pre → accepted k v') →
  (no_param key → init o opts = Error (no_such_option key)) ∧
  (unhandled_param key → init o opts = Error (unknown_type key)).
Proof.
  intros Hnd Hin Hb Hd Hpre. unfold init. rewrite Hb. simpl.
  rewrite (read_options_worhp opts [] value Hnd Hin), Hd. simpl. split.
  - intros Hno. by rewrite sort_options_no_such.
  - intros Hun. by rewrite sort_options_unknown_type.
Qed.

Lemma worhp_construct_init parent o opts :
  (∀ key, key ∈ opts.*1 → key ∈ recognized (options_ parent)) →
  construct parent o opts = init o opts.
Proof. intros H. unfold construct. by rewrite check_options_accepts. Qed.

Lemma worhp_construct_first_unknown parent o pre post key value :
  (∀ k, k ∈ pre.*1 → k ∈ recognized (options_ parent)) →
  key ∉ recognized (options_ parent) →
  construct parent o (pre ++ (key, value) :: post) =
    Error (unknown_option_error key).
Proof.
  intros Hpre Hkey. unfold construct.
  by rewrite check_options_first_unknown.
Qed.

Lemma worhp_construct_rejects parent o opts key :
  key ∈ opts.*1 → key ∉ recognized (options_ parent) →
  is_error (construct parent o opts).
Proof.
  intros Hin Hkey. unfold construct.
  destruct (check_options_rejects (options_ parent) opts key Hin Hkey)
    as [msg ->].
  by eexists.
Qed.

End Init.

(** C9. Initialization with a dictionary fails, with an error that names
    the key, on the first key that the option table of the class and of
    its base classes does not list, for [SymbolicQr] and for
    [WorhpInterface] alike; the keys [codegen], [compiler] and [worhp] are
    listed, and a dictionary of listed keys reaches [init].
    [SymbolicQr::init] fails when its base class initializer fails; it
    takes the key [codegen] with a value that converts to [bool] and fails
    with the conversion error on one that does not; it fails whenever the
    key [compiler] is present, with the message that the option has been
    removed.  [WorhpInterface::init] fails when its base class initializer
    fails and whenever a key of the [worhp] sub-dictionary names no WORHP
    parameter or names one whose type is none of bool, double and int;
    when the options before the first such key are taken, the message
    names that key, whatever the size of the sub-dictionary. *)
Theorem init_option_handling {G F B B' : Type}
    (ops : GenericOps G F) (P : ParamTable)
    (FunctionInternal_options Nlpsol_options : Options)
    (LinsolInternal_init : B → list (string * G) → result B)
    (compilerplugin_ jit_options_ : B → G)
    (Nlpsol_init : B' → list (string * G) → result B')
    (setup_functions : B' → result B') :
  let qr_table := SymbolicQr.options_ FunctionInternal_options in
  let worhp_table := options_ Nlpsol_options in
  let qr_init :=
    SymbolicQr.init ops LinsolInternal_init compilerplugin_ jit_options_ in
  let qr_construct :=
    SymbolicQr.construct ops LinsolInternal_init compilerplugin_ jit_options_
      FunctionInternal_options in
  let worhp_init := init ops P Nlpsol_init setup_functions in
  let worhp_construct :=
    construct ops P Nlpsol_init setup_functions Nlpsol_options in
  (∀ o opts key,
     key ∈ opts.*1 → key ∉ recognized qr_table →
     is_error (qr_construct o opts)) ∧
  (∀ o pre post key value,
     (∀ k, k ∈ pre.*1 → k ∈ recognized qr_table) →
     key ∉ recognized qr_table →
     qr_construct o (pre ++ (key, value) :: post) =
       Error (unknown_option_error key)) ∧
  (∀ o opts key,
     key ∈ opts.*1 → key ∉ recognized worhp_table →
     is_error (worhp_construct o opts)) ∧
  (∀ o pre post key value,
     (∀ k, k ∈ pre.*1 → k ∈ recognized worhp_table) →
     key ∉ recognized worhp_table →
     worhp_construct o (pre ++ (key, value) :: post) =
       Error (unknown_option_error key)) ∧
  ("codegen" ∈ recognized qr_table ∧ "compiler" ∈ recognized qr_table ∧
   "worhp" ∈ recognized worhp_table) ∧
  (∀ o opts,
     (∀ key, key ∈ opts.*1 → key ∈ recognized qr_table) →
     qr_construct o opts = qr_init o opts) ∧
  (∀ o opts,
     (∀ key, key ∈ opts.*1 → key ∈ recognized worhp_table) →
     worhp_construct o opts = worhp_init o opts) ∧
  (∀ o opts msg,
     LinsolInternal_init (SymbolicQr.base o) opts = Error msg →
     qr_init o opts = Error msg) ∧
  (∀ o opts b value,
     NoDup opts.*1 → "compiler" ∉ opts.*1 → ("codegen", value) ∈ opts →
     LinsolInternal_init (SymbolicQr.base o) opts = Ok b →
     qr_init o opts =
       match to_bool ops value with
       | Ok c =>
           Ok (SymbolicQr.codegen_options compilerplugin_ jit_options_ c
                 (SymbolicQr.mk b (SymbolicQr.fopts o)))
       | Error msg => Error msg
       end) ∧
  (∀ o opts, "compiler" ∈ opts.*1 → is_error (qr_init o opts)) ∧
  (∀ o opts b,
     LinsolInternal_init (SymbolicQr.base o) opts = Ok b →
     "compiler" ∈ opts.*1 →
     (∀ value, ("codegen", value) ∈ opts → ∃ c, to_bool ops value = Ok c) →
     qr_init o opts = Error SymbolicQr.compiler_removed) ∧
  (∀ o opts msg,
     Nlpsol_init (base o) opts = Error msg → worhp_init o opts = Error msg) ∧
  (∀ o opts worhp_opts key,
     read_options ops opts [] = Ok worhp_opts →
     key ∈ worhp_opts.*1 →
     no_param P key ∨ unhandled_param P key →
     is_error (worhp_init o opts)) ∧
  (∀ o opts b value pre post key v,
     NoDup opts.*1 → ("worhp", value) ∈ opts →
     Nlpsol_init (base o) opts = Ok b →
     to_dict ops value = Ok (pre ++ (key, v) :: post) →
     (∀ k v', (k, v') ∈ pre → accepted ops P k v') →
     (no_param P key → worhp_init o opts = Error (no_such_option key)) ∧
     (unhandled_param P key → worhp_init o opts = Error (unknown_type key))).
Proof.
  intros qr_table worhp_table qr_init qr_construct worhp_init worhp_construct.
  repeat apply conj.
  - intros o opts key. apply SymbolicQr.construct_rejects.
  - intros o pre post key value. apply SymbolicQr.construct_first_unknown.
  - intros o opts key. apply worhp_construct_rejects.
  - intros o pre post key value. apply worhp_construct_first_unknown.
  - simpl. set_solver.
  - simpl. set_solver.
  - simpl. set_solver.
  - intros o opts. apply SymbolicQr.construct_init.
  - intros o opts. apply worhp_construct_init.
  - intros o opts msg. apply SymbolicQr.init_linsol_error.
  - intros o opts b value. apply SymbolicQr.init_codegen.
  - intros o opts. apply SymbolicQr.init_compiler.
  - intros o opts b. apply SymbolicQr.init_compiler_removed.
  - intros o opts msg. apply init_nlpsol_error.
  - intros o opts worhp_opts key. apply init_rejects.
  - intros o opts b value pre post key v. apply init_first_rejected.
Qed.

(** *** The reverse-communication loop of [solve] *)

(** The actions WORHP asks of its caller. *)
Inductive UserAction : Type :=
  | callWorhp
  | iterOutput
  | evalF
  | evalG
  | evalDF
  | evalDG
  | evalHM
  | fidif.

(** The WORHP library and the NLP functions, as they act on the solver
    memory [Mem] (the four WORHP structures and the buffers around them):
    the status word and its three named values, the user-action flags, the
    library calls, and for each evaluation action the evaluation of the
    NLP function with the copying and scaling around it. *)
Record Library (Mem : Type) : Type := mkLibrary {
  status : Mem → Z;
  set_status : Mem → Z → Mem;
  TerminateSuccess : Z;
  TerminateError : Z;
  TerminatedByUser : Z;
  GetUserAction : Mem → UserAction → bool;
  DoneUserAction : Mem → UserAction → Mem;
  Worhp : Mem → Mem;
  IterationOutput : Mem → Mem;
  WorhpFidif : Mem → Mem;
  eval_F : Mem → Mem;
  eval_G : Mem → Mem;
  eval_DF : Mem → Mem;
  eval_DG : Mem → Mem;
  eval_HM : Mem → Mem;
  callback_prep : Mem → Mem
}.

Arguments status {Mem}.
Arguments set_status {Mem}.
Arguments TerminateSuccess {Mem}.
Arguments TerminateError {Mem}.
Arguments TerminatedByUser {Mem}.
Arguments GetUserAction {Mem}.
Arguments DoneUserAction {Mem}.
Arguments Worhp {Mem}.
Arguments IterationOutput {Mem}.
Arguments WorhpFidif {Mem}.
Arguments eval_F {Mem}.
Arguments eval_G {Mem}.
Arguments eval_DF {Mem}.
Arguments eval_DG {Mem}.
Arguments eval_HM {Mem}.
Arguments callback_prep {Mem}.

(** The state of the loop: the memory, the local [firstIteration], and,
    for the record, the values the callback returned so far. *)
Record Loop (Mem : Type) : Type := mkLoop {
  mem : Mem;
  firstIteration : bool;
  callback_returns : list Z
}.

Arguments mkLoop {Mem}.
Arguments mem {Mem}.
Arguments firstIteration {Mem}.
Arguments callback_returns {Mem}.

Section Solve.
Context {Mem : Type} (L : Library Mem).
Context (fcallback_ : option (Mem → Z)).

(** The block guarded by [if (!fcallback_.is_null())]: the inputs are
    set, the callback is evaluated, and [if (ret) status =
    TerminatedByUser]. *)
Definition run_callback (st : Loop Mem) : Loop Mem :=
  match fcallback_ with
  | None => st
  | Some callback =>
      let m := callback_prep L (mem st) in
      let ret := callback m in
      let m := if decide (ret ≠ 0)%Z
               then set_status L m (TerminatedByUser L) else m in
      mkLoop m (firstIteration st) (callback_returns st ++ [ret])
  end.

(** The block of the action [iterOutput]. *)
Definition iteration_output (st : Loop Mem) : Loop Mem :=
  let st :=
    if negb (firstIteration st) then
      run_callback (mkLoop (mem st) true (callback_returns st))
    else st in
  mkLoop (DoneUserAction L (IterationOutput L (mem st)) iterOutput)
    (firstIteration st) (callback_returns st).

(** An evaluation action: when raised, the work is done and the action
    marked done. *)
Definition on_action (a : UserAction) (work : Mem → Mem) (m : Mem) : Mem :=
  if GetUserAction L m a then DoneUserAction L (work m) a else m.

(** One pass through the body of the [while] loop. *)
Definition pass (st : Loop Mem) : Loop Mem :=
  let m := mem st in
  let m := if GetUserAction L m callWorhp then Worhp L m else m in
  let st := mkLoop m (firstIteration st) (callback_returns st) in
  let st := if GetUserAction L m iterOutput then iteration_output st else st in
  let m := mem st in
  let m := on_action evalF (eval_F L) m in
  let m := on_action evalG (eval_G L) m in
  let m := on_action evalDF (eval_DF L) m in
  let m := on_action evalDG (eval_DG L) m in
  let m := on_action evalHM (eval_HM L) m in
  let m := if GetUserAction L m fidif then WorhpFidif L m else m in
  mkLoop m (firstIteration st) (callback_returns st).

(** [status < TerminateSuccess && status > TerminateError] *)
Definition running (m : Mem) : bool :=
  bool_decide (status L m < TerminateSuccess L)%Z &&
  bool_decide (status L m > TerminateError L)%Z.

(** The [while] loop, cut off after [fuel] passes. *)
Fixpoint reverse_communication (fuel : nat) (st : Loop Mem) : Loop Mem :=
  match fuel with
  | 0 => st
  | S fuel' =>
      if running (mem st) then reverse_communication fuel' (pass st) else st
  end.

(** The loop as [solve] enters it: [bool firstIteration = true;]. *)
Definition solve_loop (fuel : nat) (m : Mem) : Loop Mem :=
  reverse_communication fuel (mkLoop m true []).

Lemma pass_first_iteration st :
  firstIteration st = true →
  firstIteration (pass st) = true ∧
  callback_returns (pass st) = callback_returns st.
Proof.
  intros H. unfold pass. simpl.
  destruct (GetUserAction L _ iterOutput); simpl; [|done].
  unfold iteration_output. simpl. by rewrite H.
Qed.

Lemma reverse_communication_first_iteration fuel : ∀ st,
  firstIteration st = true →
  firstIteration (reverse_communication fuel st) = true ∧
  callback_returns (reverse_communication fuel st) = callback_returns st.
Proof.
  induction fuel as [|fuel IH]; intros st H; simpl; [done|].
  destruct (running (mem st)); [|done].
  destruct (pass_first_iteration st H) as [H1 H2].
  destruct (IH (pass st) H1) as [H3 H4]. by rewrite H3, H4, H2.
Qed.

(** Had the flag been cleared, the pass that meets [iterOutput] would
    evaluate the callback, and a nonzero return would set the status
    before the iteration output. *)
Lemma iteration_output_calls_back st callback :
  fcallback_ = Some callback → firstIteration st = false →
  let m := callback_prep L (mem st) in
  callback_returns (iteration_output st) = callback_returns st ++ [callback m] ∧
  (callback m ≠ 0%Z →
   mem (iteration_output st) =
     DoneUserAction L (IterationOutput L (set_status L m (TerminatedByUser L)))
       iterOutput).
Proof.
  intros Hcb Hfirst m. unfold iteration_output, run_callback.
  rewrite Hfirst, Hcb. simpl. split; [done|].
  intros Hret. by rewrite decide_True.
Qed.

(** C8 fails on the code.  [firstIteration] is initialized to [true] and
    only ever assigned [true], and the callback sits behind
    [if (!firstIteration)]: in no run of the loop, whatever WORHP asks for
    and however long the run, is the callback evaluated, so no return
    value of it reaches the status. *)
Theorem callback_never_evaluated (fuel : nat) (m : Mem) :
  callback_returns (solve_loop fuel m) = [] ∧
  firstIteration (solve_loop fuel m) = true.
Proof.
  unfold solve_loop.
  destruct (reverse_communication_first_iteration fuel (mkLoop m true []))
    as [H1 H2]; done.
Qed.

End Solve.

(** *** The sparsity structure and the Hessian values passed to WORHP *)

(** A pattern in compressed column storage, as [colind()] and [row()] give
    it. *)
Record Sparsity : Type := mkSparsity {
  colind : list Z;
  row : list Z
}.

(** [v[i]] for an [int] index into an [int] array. *)
Definition int_at (v : list Z) (i : Z) : Z := nth (Z.to_nat i) v 0%Z.

(** The values [i] takes in [for (int i=lo; i<hi; ++i)]. *)
Definition range (lo hi : Z) : list Z :=
  (λ k, lo + Z.of_nat k)%Z <$> seq 0 (Z.to_nat (hi - lo)).

(** The passes of [for (el=colind[c]; el<colind[c+1]; ++el)] for a column
    [c], and of the two loops nested,
    [for (c=0; c<nx_; ++c) for (el=colind[c]; el<colind[c+1]; ++el)]: the
    column and the nonzero of each pass, in order. *)
Definition column_passes (sp : Sparsity) (c : Z) : list (Z * Z) :=
  (λ el, (c, el)) <$> range (int_at (colind sp) c) (int_at (colind sp) (c + 1)).

Definition nonzero_passes (sp : Sparsity) (nx : Z) : list (Z * Z) :=
  range 0 nx ≫= column_passes sp.

(** [X.row[nz] = r; X.col[nz] = c; nz++;] on the coordinate arrays of a
    WORHP matrix and the running count. *)
Definition append_entry (r c : Z) (s : list Z * list Z * nat)
    : list Z * list Z * nat :=
  (<[s.2 := r]> s.1.1, <[s.2 := c]> s.1.2, S s.2).

(** [set_work], the structure of [DF]: [DF.row[i] = i + 1]. *)
Definition DF_structure (NeedStructure : bool) (nx : Z) (DF_row : list Z)
    : list Z :=
  if NeedStructure then
    foldl (λ rows i, <[Z.to_nat i := (i + 1)%Z]> rows) DF_row (range 0 nx)
  else DF_row.

(** [set_work], the structure of [DG], for [m] constraints: every nonzero
    of the Jacobian pattern, with both indices made 1-based. *)
Definition DG_structure (m : Z) (NeedStructure : bool) (jacg_sp : Sparsity)
    (nx : Z) (DG_row DG_col : list Z) : list Z * list Z * nat :=
  if bool_decide (m > 0)%Z && NeedStructure then
    foldl (λ s p, append_entry (int_at (row jacg_sp) p.2 + 1) (p.1 + 1) s)
      (DG_row, DG_col, 0) (nonzero_passes jacg_sp nx)
  else (DG_row, DG_col, 0).

(** [set_work], the structure of [HM]: the nonzeros of the Hessian pattern
    strictly below the diagonal, then the whole diagonal. *)
Definition HM_structure (NeedStructure : bool) (hesslag_sp : Sparsity)
    (nx : Z) (HM_row HM_col : list Z) : list Z * list Z * nat :=
  if NeedStructure then
    let s :=
      foldl (λ s p,
               if decide (int_at (row hesslag_sp) p.2 > p.1)%Z
               then append_entry (int_at (row hesslag_sp) p.2 + 1) (p.1 + 1) s
               else s)
        (HM_row, HM_col, 0) (nonzero_passes hesslag_sp nx) in
    foldl (λ s r, append_entry (r + 1) (r + 1) s) s (range 0 nx)
  else (HM_row, HM_col, 0).

Section Values.
Context {K : Scalar}.

(** [solve], the action [evalHM] after the Hessian has been evaluated into
    [HM.val]: one pass of the loop that removes the diagonal, in the state
    [(HM.val, dval, ind)], for the column [c] and the nonzero [el]:
    [if (row[el]==c) dval[c] = HM.val[el]; else HM.val[ind++] =
    HM.val[el];]. *)
Definition remove_diagonal_pass (hesslag_sp : Sparsity)
    (s : list K * list K * nat) (p : Z * Z) : list K * list K * nat :=
  let '(c, el) := p in
  let x := nth (Z.to_nat el) s.1.1 0%K in
  if decide (int_at (row hesslag_sp) el = c)
  then (s.1.1, <[Z.to_nat c := x]> s.1.2, s.2)
  else (<[s.2 := x]> s.1.1, s.1.2, S s.2).

(** The loop: the diagonal entries go to [dval], the others are compacted
    in place. *)
Definition remove_diagonal (hesslag_sp : Sparsity) (nx : Z)
    (s : list K * list K * nat) : list K * list K * nat :=
  foldl (remove_diagonal_pass hesslag_sp) s (nonzero_passes hesslag_sp nx).

(** [casadi_fill] and [casadi_copy] are routines of the CasADi runtime,
    defined outside the files at hand: [casadi_fill x n alpha] is the array
    [x] after [casadi_fill(x, n, alpha)] and [casadi_copy x n y] is the
    array [y] after [casadi_copy(x, n, y)]. *)
Record Runtime : Type := mkRuntime {
  casadi_fill : list K → Z → K → list K;
  casadi_copy : list K → Z → list K → list K
}.

(** The two routines do what their names say: the first sets the first [n]
    entries, the second copies the first [n] entries of [x] to the front
    of [y]. *)
Definition runtime_ok (R : Runtime) : Prop :=
  (∀ x n alpha, casadi_fill R x n alpha = fill_n (Z.to_nat n) alpha x) ∧
  (∀ x n y, casadi_copy R x n y = list_inserts 0 (take (Z.to_nat n) x) y).

(** The whole of it, [dval] being the work vector [w]:
    [casadi_fill(dval, nx_, 0.)], the loop, and
    [casadi_copy(dval, nx_, HM.val+ind)], which writes from the entry
    [ind] of [HM.val] on.  The result is [HM.val] and [w]. *)
Definition evalHM_values (R : Runtime) (hesslag_sp : Sparsity) (nx : Z)
    (HM_val w : list K) : list K * list K :=
  let dval := casadi_fill R w nx 0%K in
  let s := remove_diagonal hesslag_sp nx (HM_val, dval, 0) in
  (take s.2 s.1.1 ++ casadi_copy R s.1.2 nx (drop s.2 s.1.1), s.1.2).

End Values.

Arguments Runtime K : clear implicits.
Arguments mkRuntime {K}.


(** The invariant of a pattern with [nx] columns: the column offsets start
    at [0], do not decrease, and end at the number of nonzeros. *)
Definition compressed (sp : Sparsity) (nx : Z) : Prop :=
  (0 ≤ nx)%Z ∧ int_at (colind sp) 0 = 0%Z ∧
  (∀ c, (0 ≤ c < nx)%Z → (int_at (colind sp) c ≤ int_at (colind sp) (c + 1))%Z) ∧
  int_at (colind sp) nx = Z.of_nat (length (row sp)).

(** ... and no row index twice in a column. *)
Definition unique_rows (sp : Sparsity) (nx : Z) : Prop :=
  ∀ c el el', (0 ≤ c < nx)%Z →
    (int_at (colind sp) c ≤ el < int_at (colind sp) (c + 1))%Z →
    (int_at (colind sp) c ≤ el' < int_at (colind sp) (c + 1))%Z →
    int_at (row sp) el = int_at (row sp) el' → el = el'.

(** No nonzero above the diagonal. *)
Definition lower_triangular (sp : Sparsity) (nx : Z) : Prop :=
  ∀ p, p ∈ nonzero_passes sp nx → (p.1 ≤ int_at (row sp) p.2)%Z.

Section Ranges.

Lemma length_range lo hi : length (range lo hi) = Z.to_nat (hi - lo).
Proof. unfold range. by rewrite length_fmap, length_seq. Qed.

Lemma elem_of_range lo hi x : x ∈ range lo hi ↔ (lo ≤ x < hi)%Z.
Proof.
  unfold range. rewrite list_elem_of_fmap. split.
  - intros (k & -> & Hk). apply elem_of_seq in Hk. lia.
  - intros Hx. exists (Z.to_nat (x - lo)). split; [lia|].
    apply elem_of_seq. lia.
Qed.

Lemma lookup_range lo hi k :
  k < Z.to_nat (hi - lo) → range lo hi !! k = Some (lo + Z.of_nat k)%Z.
Proof.
  intros Hk. unfold range. by rewrite list_lookup_fmap, lookup_seq_lt.
Qed.

Lemma range_app lo mid hi :
  (lo ≤ mid ≤ hi)%Z → range lo hi = range lo mid ++ range mid hi.
Proof.
  intros H. unfold range.
  replace (Z.to_nat (hi - lo)) with (Z.to_nat (mid - lo) + Z.to_nat (hi - mid)) by lia.
  rewrite seq_0_add, fmap_app. f_equal.
  rewrite <- list_fmap_compose.
  apply list_fmap_ext. intros _ k _. simpl. lia.
Qed.

Lemma range_empty lo hi : (hi ≤ lo)%Z → range lo hi = [].
Proof. intros H. unfold range. by replace (Z.to_nat (hi - lo)) with 0 by lia. Qed.

Lemma range_singleton lo : range lo (lo + 1) = [lo].
Proof.
  unfold range. replace (Z.to_nat (lo + 1 - lo)) with 1 by lia.
  simpl. f_equal. lia.
Qed.

Lemma range_snoc lo hi : (lo ≤ hi)%Z → range lo (hi + 1) = range lo hi ++ [hi].
Proof.
  intros H. rewrite (range_app lo hi (hi + 1)) by lia. by rewrite range_singleton.
Qed.

Lemma range_cons lo hi : (lo < hi)%Z → range lo hi = lo :: range (lo + 1) hi.
Proof.
  intros H. rewrite (range_app lo (lo + 1) hi) by lia. by rewrite range_singleton.
Qed.

Lemma nonzero_passes_snoc sp c :
  (0 ≤ c)%Z →
  nonzero_passes sp (c + 1) = nonzero_passes sp c ++ column_passes sp c.
Proof.
  intros H. unfold nonzero_passes. rewrite range_snoc by done.
  rewrite bind_app. simpl. by rewrite app_nil_r.
Qed.

Lemma elem_of_nonzero_passes sp nx p :
  p ∈ nonzero_passes sp nx ↔
  (0 ≤ p.1 < nx)%Z ∧
  (int_at (colind sp) p.1 ≤ p.2 < int_at (colind sp) (p.1 + 1))%Z.
Proof.
  unfold nonzero_passes, column_passes. rewrite list_elem_of_bind. split.
  - intros (c & Hp & Hc). apply elem_of_range in Hc.
    apply list_elem_of_fmap in Hp as (el & -> & Hel).
    apply elem_of_range in Hel. done.
  - intros [Hc Hel]. exists p.1. split; [|by apply elem_of_range].
    apply list_elem_of_fmap. exists p.2. split; [by destruct p|].
    by apply elem_of_range.
Qed.

(** The passes of a compressed pattern visit the nonzeros in storage
    order, each once. *)
Lemma nonzero_passes_els sp nx :
  compressed sp nx → ∀ c, (0 ≤ c ≤ nx)%Z →
  (nonzero_passes sp c).*2 = range 0 (int_at (colind sp) c) ∧
  (0 ≤ int_at (colind sp) c)%Z.
Proof.
  intros (Hnx & H0 & Hmono & Hend) c Hc.
  rewrite <- (Z2Nat.id c) by lia.
  assert (Z.to_nat c ≤ Z.to_nat nx) as Hk by lia.
  induction (Z.to_nat c) as [|k IH].
  - change (Z.of_nat 0) with 0%Z. rewrite H0. done.
  - destruct IH as [IH Hpos]; [lia|].
    replace (Z.of_nat (S k)) with (Z.of_nat k + 1)%Z by lia.
    assert (int_at (colind sp) (Z.of_nat k) ≤ int_at (colind sp) (Z.of_nat k + 1))%Z
      as Hle by (apply Hmono; lia).
    split; [|lia].
    rewrite nonzero_passes_snoc, fmap_app, IH by lia.
    rewrite (range_app 0 (int_at (colind sp) (Z.of_nat k))
               (int_at (colind sp) (Z.of_nat k + 1))) by lia.
    f_equal. unfold column_passes. rewrite <- list_fmap_compose.
    by rewrite list_fmap_id.
Qed.

Lemma nonzero_passes_all sp nx :
  compressed sp nx →
  (nonzero_passes sp nx).*2 = range 0 (Z.of_nat (length (row sp))) ∧
  length (nonzero_passes sp nx) = length (row sp).
Proof.
  intros Hc. destruct (nonzero_passes_els sp nx Hc nx) as [Hels _].
  { destruct Hc as (? & _). lia. }
  destruct Hc as (_ & _ & _ & Hend). rewrite Hend in Hels.
  split; [done|].
  rewrite <- (length_fmap snd), Hels, length_range. lia.
Qed.

End Ranges.

Section Structure.

Lemma foldl_filter {A S : Type} (P : A → Prop) `{!∀ x, Decision (P x)}
    (g : S → A → S) (l : list A) : ∀ s,
  foldl (λ s x, if decide (P x) then g s x else s) s l = foldl g s (filter P l).
Proof.
  induction l as [|x l IH]; intros s; [done|]. simpl.
  rewrite filter_cons. case_decide; simpl; apply IH.
Qed.

(** Entries appended one after the other fill a block of the two
    arrays. *)
Lemma foldl_append_entry {A : Type} (fr fc : A → Z) (l : list A) : ∀ s,
  foldl (λ s x, append_entry (fr x) (fc x) s) s l =
  (list_inserts s.2 (fr <$> l) s.1.1, list_inserts s.2 (fc <$> l) s.1.2,
   s.2 + length l).
Proof.
  induction l as [|x l IH]; intros [[rows cols] nz]; simpl.
  - by rewrite Nat.add_0_r.
  - rewrite IH. unfold append_entry. simpl.
    rewrite !list_insert_inserts_lt by lia.
    do 2 f_equal. lia.
Qed.

Lemma int_at_of_nat (v : list Z) (k : nat) (x : Z) :
  v !! k = Some x → int_at v (Z.of_nat k) = x.
Proof.
  intros H. unfold int_at. rewrite Nat2Z.id.
  by apply nth_lookup_Some with (d := 0%Z) in H.
Qed.

Lemma foldl_insert_range {A : Type} (f : Z → A) (n : nat) : ∀ lo (arr : list A),
  (0 ≤ lo)%Z →
  foldl (λ arr i, <[Z.to_nat i := f i]> arr) arr (range lo (lo + Z.of_nat n)) =
  list_inserts (Z.to_nat lo) (f <$> range lo (lo + Z.of_nat n)) arr.
Proof.
  induction n as [|n IH]; intros lo arr Hlo.
  - by rewrite range_empty by lia.
  - rewrite range_cons by lia.
    replace (lo + Z.of_nat (S n))%Z with (lo + 1 + Z.of_nat n)%Z by lia.
    cbn [foldl fmap list_fmap]. rewrite IH by lia.
    replace (Z.to_nat (lo + 1)) with (S (Z.to_nat lo)) by lia.
    apply list_inserts_front.
Qed.

Lemma DF_structure_spec (nx : Z) (DF_row : list Z) :
  length DF_row = Z.to_nat nx →
  DF_structure true nx DF_row = (λ i, i + 1)%Z <$> range 0 nx.
Proof.
  intros Hlen. unfold DF_structure.
  destruct (decide (0 ≤ nx)%Z) as [Hnx|Hnx].
  - replace nx with (0 + Z.of_nat (Z.to_nat nx))%Z at 1 2 by lia.
    rewrite (foldl_insert_range (λ i, i + 1)%Z) by lia.
    apply list_inserts_whole.
    rewrite length_fmap, length_range. lia.
  - rewrite range_empty by lia. simpl.
    apply length_zero_iff_nil. lia.
Qed.

(** The nonzeros a compressed pattern stores, read through the passes. *)
Lemma passes_rows sp nx (f : Z → Z) :
  compressed sp nx →
  (λ p, f (int_at (row sp) p.2)) <$> nonzero_passes sp nx = f <$> row sp.
Proof.
  intros Hc. destruct (nonzero_passes_all sp nx Hc) as [Hels Hlen].
  trans ((λ el, f (int_at (row sp) el)) <$> (nonzero_passes sp nx).*2);
    [by rewrite <- list_fmap_compose|].
  rewrite Hels. unfold range.
  rewrite Z.sub_0_r, Nat2Z.id, <- list_fmap_compose.
  apply list_eq. intros k. rewrite !list_lookup_fmap.
  destruct (row sp !! k) as [x|] eqn:E.
  - rewrite lookup_seq_lt by (by eapply lookup_lt_Some). simpl.
    by rewrite Z.add_0_l, (int_at_of_nat _ _ _ E).
  - rewrite lookup_seq_ge; [done|]. by apply lookup_ge_None_1.
Qed.

(** X15. The structure of [DF] and [DG] handed to WORHP.  [DF.row] is
    [1, ..., nx].  For a compressed Jacobian pattern, and arrays of the
    [nnz] entries [set_work] asks for, [DG] lists every nonzero of the
    pattern once, in storage order, with 1-based indices: entry [k] has the
    row index of nonzero [k], plus one, and the column whose range of
    offsets holds [k], plus one; the count ends at [nnz]. *)
Theorem DG_structure_lists_pattern (m nx : Z) (jacg_sp : Sparsity)
    (DF_row DG_row DG_col : list Z) :
  let nnz := length (row jacg_sp) in
  let s := DG_structure m true jacg_sp nx DG_row DG_col in
  compressed jacg_sp nx → (0 < m)%Z →
  length DF_row = Z.to_nat nx →
  length DG_row = nnz → length DG_col = nnz →
  DF_structure true nx DF_row = (λ i, i + 1)%Z <$> range 0 nx ∧
  s.2 = nnz ∧
  s.1.1 = (λ r, r + 1)%Z <$> row jacg_sp ∧
  length s.1.2 = nnz ∧
  ∀ k, k < nnz →
    ∃ c, s.1.2 !! k = Some (c + 1)%Z ∧ (0 ≤ c < nx)%Z ∧
         (int_at (colind jacg_sp) c ≤ Z.of_nat k
            < int_at (colind jacg_sp) (c + 1))%Z.
Proof.
  intros nnz s Hc Hm HDF Hrow Hcol.
  split; [by apply DF_structure_spec|].
  destruct (nonzero_passes_all jacg_sp nx Hc) as [Hels Hlen].
  assert (s = (((λ r, r + 1)%Z <$> row jacg_sp),
               ((λ p, p.1 + 1)%Z <$> nonzero_passes jacg_sp nx), nnz)) as ->.
  { unfold s, DG_structure. rewrite bool_decide_true by lia. simpl.
    rewrite foldl_append_entry. simpl.
    rewrite (passes_rows jacg_sp nx (λ r, r + 1)%Z Hc).
    rewrite !list_inserts_whole by (rewrite length_fmap; lia).
    by rewrite Hlen. }
  simpl. split; [done|]. split; [done|].
  split; [by rewrite length_fmap|].
  intros k Hk.
  destruct (lookup_lt_is_Some_2 (nonzero_passes jacg_sp nx) k) as [p Hp]; [lia|].
  exists p.1. rewrite list_lookup_fmap, Hp. split; [done|].
  assert (p.2 = Z.of_nat k) as <-.
  { assert ((nonzero_passes jacg_sp nx).*2 !! k = Some p.2) as E
      by (by rewrite list_lookup_fmap, Hp).
    rewrite Hels, lookup_range in E by lia. injection E as <-. lia. }
  apply elem_of_nonzero_passes. by eapply list_elem_of_lookup_2.
Qed.

(** The nonzeros strictly below the diagonal, in the order of the passes. *)
Definition lower_passes (sp : Sparsity) (nx : Z) : list (Z * Z) :=
  filter (λ p, (int_at (row sp) p.2 > p.1)%Z) (nonzero_passes sp nx).

Lemma HM_structure_eq (sp : Sparsity) (nx : Z) (HM_row HM_col : list Z) :
  let low := lower_passes sp nx in
  length HM_row = length low + Z.to_nat nx →
  length HM_col = length low + Z.to_nat nx →
  HM_structure true sp nx HM_row HM_col =
    (((λ p, int_at (row sp) p.2 + 1)%Z <$> low) ++ ((λ r, r + 1)%Z <$> range 0 nx),
     ((λ p, p.1 + 1)%Z <$> low) ++ ((λ r, r + 1)%Z <$> range 0 nx),
     length low + Z.to_nat nx).
Proof.
  intros low Hrow Hcol. unfold HM_structure.
  rewrite (foldl_filter (λ p, (int_at (row sp) p.2 > p.1)%Z)
             (λ s p, append_entry (int_at (row sp) p.2 + 1) (p.1 + 1) s)).
  fold (lower_passes sp nx). fold low.
  rewrite !foldl_append_entry. simpl.
  assert (length (range 0 nx) = Z.to_nat nx) as Hr
    by (rewrite length_range; lia).
  rewrite Hr. f_equal. f_equal.
  - rewrite (list_inserts_split 0) by (rewrite length_fmap; lia).
    rewrite list_inserts_split
      by (rewrite !length_app, !length_fmap, length_drop, Hr; simpl; lia).
    simpl. rewrite take_app_length' by (by rewrite length_fmap).
    f_equal. rewrite drop_ge, app_nil_r; [done|].
    rewrite !length_app, !length_fmap, length_drop, Hr. simpl. lia.
  - rewrite (list_inserts_split 0) by (rewrite length_fmap; lia).
    rewrite list_inserts_split
      by (rewrite !length_app, !length_fmap, length_drop, Hr; simpl; lia).
    simpl. rewrite take_app_length' by (by rewrite length_fmap).
    f_equal. rewrite drop_ge, app_nil_r; [done|].
    rewrite !length_app, !length_fmap, length_drop, Hr. simpl. lia.
Qed.

(** X16. The structure of [HM] handed to WORHP, for arrays of the
    [nx + nnz_lower] entries [set_work] asks for: first the nonzeros of the
    Hessian pattern strictly below the diagonal, in storage order, then
    the [nx] diagonal positions, whether the pattern has them or not; the
    count ends at [nx] plus the number of strictly lower nonzeros.  Every
    entry is 1-based and on or below the diagonal, its column is one of the
    [nx] columns, and it is on the diagonal exactly when it belongs to the
    final [nx]. *)
Theorem HM_structure_lower_then_diagonal (hesslag_sp : Sparsity) (nx : Z)
    (HM_row HM_col : list Z) :
  let low := lower_passes hesslag_sp nx in
  let s := HM_structure true hesslag_sp nx HM_row HM_col in
  length HM_row = length low + Z.to_nat nx →
  length HM_col = length low + Z.to_nat nx →
  s.2 = length low + Z.to_nat nx ∧
  s.1.1 = ((λ p, int_at (row hesslag_sp) p.2 + 1)%Z <$> low) ++
          ((λ r, r + 1)%Z <$> range 0 nx) ∧
  s.1.2 = ((λ p, p.1 + 1)%Z <$> low) ++ ((λ r, r + 1)%Z <$> range 0 nx) ∧
  (∀ k r c, s.1.1 !! k = Some r → s.1.2 !! k = Some c →
     (1 ≤ c ≤ r)%Z ∧ (c ≤ nx)%Z ∧ (r = c ↔ length low ≤ k)) ∧
  (∀ i, (0 ≤ i < nx)%Z →
     s.1.1 !! (length low + Z.to_nat i) = Some (i + 1)%Z ∧
     s.1.2 !! (length low + Z.to_nat i) = Some (i + 1)%Z).
Proof.
  intros low s Hrow Hcol.
  unfold s. rewrite HM_structure_eq by done. fold low. simpl.
  split; [done|]. split; [done|]. split; [done|]. split.
  - intros k r c Hr Hc.
    destruct (decide (k < length low)) as [Hk|Hk].
    + rewrite lookup_app_l in Hr by (by rewrite length_fmap).
      rewrite lookup_app_l in Hc by (by rewrite length_fmap).
      rewrite list_lookup_fmap in Hr, Hc.
      destruct (low !! k) as [p|] eqn:Hp; [|done].
      injection Hr as <-. injection Hc as <-.
      apply list_elem_of_lookup_2, list_elem_of_filter in Hp as [Hlow Hp].
      apply elem_of_nonzero_passes in Hp. lia.
    + rewrite lookup_app_r in Hr by (rewrite length_fmap; lia).
      rewrite lookup_app_r in Hc by (rewrite length_fmap; lia).
      rewrite length_fmap in Hr, Hc.
      rewrite list_lookup_fmap in Hr, Hc.
      destruct (range 0 nx !! (k - length low)) as [i|] eqn:Hi; [|done].
      injection Hr as <-. injection Hc as <-.
      apply list_elem_of_lookup_2, elem_of_range in Hi. lia.
  - intros i Hi.
    rewrite !lookup_app_r by (rewrite length_fmap; lia).
    rewrite !length_fmap.
    replace (length low + Z.to_nat i - length low) with (Z.to_nat i) by lia.
    rewrite !list_lookup_fmap, lookup_range by lia.
    simpl. split; f_equal; lia.
Qed.

End Structure.

Section Compaction.
Context {K : Scalar}.

(** Filters that agree on the members of a list. *)
Lemma filter_ext_in {A : Type} (P Q : A → Prop)
    `{!∀ x, Decision (P x)} `{!∀ x, Decision (Q x)} (l : list A) :
  (∀ x, x ∈ l → P x ↔ Q x) → filter P l = filter Q l.
Proof.
  induction l as [|x l IH]; intros Hext; [done|].
  rewrite !filter_cons.
  destruct (decide (P x)) as [HP|HP], (decide (Q x)) as [HQ|HQ].
  - f_equal. apply IH. intros y Hy. apply Hext. by right.
  - exfalso. apply HQ, (Hext x); [left | done].
  - exfalso. apply HP, (Hext x); [left | done].
  - apply IH. intros y Hy. apply Hext. by right.
Qed.

Lemma filter_none {A : Type} (P : A → Prop) `{!∀ x, Decision (P x)}
    (l : list A) :
  (∀ x, x ∈ l → ¬ P x) → filter P l = [].
Proof.
  induction l as [|x l IH]; intros Hno; [done|].
  rewrite filter_cons_False by (apply Hno; left).
  apply IH. intros y Hy. apply Hno. by right.
Qed.

(** The loop of [evalHM] on passes that visit consecutive nonzeros from
    [e] on, entered with [ind ≤ e]: every value read is still the one [g]
    the array held at first, the values off the diagonal fill the block at
    [ind], and the diagonal values are written to [dval]. *)
Lemma remove_diagonal_fold (sp : Sparsity) (g : Z → K) (l : list (Z * Z)) :
  ∀ (val dval : list K) (ind e : nat),
  l.*2 = range (Z.of_nat e) (Z.of_nat e + Z.of_nat (length l)) →
  ind ≤ e →
  (∀ el, (Z.of_nat e ≤ el)%Z → nth (Z.to_nat el) val 0%K = g el) →
  foldl (remove_diagonal_pass sp)
    (val, dval, ind) l =
  (list_inserts ind
     ((λ p, g p.2) <$> filter (λ p, int_at (row sp) p.2 ≠ p.1) l) val,
   foldl (λ d p, <[Z.to_nat p.1 := g p.2]> d) dval
     (filter (λ p, int_at (row sp) p.2 = p.1) l),
   ind + length (filter (λ p, int_at (row sp) p.2 ≠ p.1) l)).
Proof.
  induction l as [|p l IH]; intros val dval ind e Hels Hind Hg.
  { simpl. by rewrite Nat.add_0_r. }
  destruct p as [c el].
  rewrite range_cons in Hels by (simpl; lia).
  rewrite fmap_cons in Hels. injection Hels as Hp Hels. simpl in Hp. subst el.
  assert (l.*2 = range (Z.of_nat (S e)) (Z.of_nat (S e) + Z.of_nat (length l)))
    as Hels'.
  { rewrite Hels. f_equal; simpl; lia. }
  clear Hels. cbn [foldl]. rewrite !filter_cons. unfold remove_diagonal_pass at 2.
  cbn [fst snd]. rewrite (Hg (Z.of_nat e)) by lia.
  destruct (decide (int_at (row sp) (Z.of_nat e) = c)) as [Hd|Hd].
  - rewrite decide_False by (intros H; by apply H).
    rewrite (IH val _ ind (S e)); [done | done | lia |].
    intros el Hel. apply Hg. lia.
  - rewrite decide_True by done.
    rewrite (IH (<[ind := g (Z.of_nat e)]> val) dval (S ind) (S e)); [| done | lia |].
    + cbn [fmap list_fmap length]. rewrite list_inserts_front.
      f_equal. lia.
    + intros el Hel. rewrite <- (Hg el) by lia.
      rewrite !nth_lookup. by rewrite list_lookup_insert_ne by lia.
Qed.

Lemma length_foldl_insert {A : Type} (g : Z → K) (h : A → nat) (f : A → K)
    (l : list A) : ∀ d : list K,
  length (foldl (λ d p, <[h p := f p]> d) d l) = length d.
Proof.
  induction l as [|p l IH]; intros d; [done|]. simpl.
  by rewrite IH, length_insert.
Qed.

(** Of several writes to one index the last one stays. *)
Lemma foldl_insert_last {A : Type} (h : A → nat) (f : A → K) (l : list A) :
  ∀ (d : list K) (i : nat),
  foldl (λ d p, <[h p := f p]> d) d l !! i =
  match last (filter (λ p, h p = i) l) with
  | Some p => (λ _, f p) <$> d !! i
  | None => d !! i
  end.
Proof.
  induction l as [|p l IH] using rev_ind; intros d i; [done|].
  rewrite foldl_app, filter_app, last_app. simpl.
  rewrite filter_cons, filter_nil.
  destruct (decide (h p = i)) as [<-|Hne]; simpl.
  - destruct (decide (h p < length d)) as [Hlt|Hge].
    + rewrite list_lookup_insert_eq
        by (by rewrite (length_foldl_insert (λ _, 0%K))).
      by destruct (lookup_lt_is_Some_2 d (h p) Hlt) as [x ->].
    + rewrite !lookup_ge_None_2; [done | lia |].
      rewrite length_insert, (length_foldl_insert (λ _, 0%K)). lia.
  - rewrite list_lookup_insert_ne by done. apply IH.
Qed.

(** The nonzeros off the diagonal, in the order of the passes. *)
Definition off_diagonal_passes (sp : Sparsity) (nx : Z) : list (Z * Z) :=
  filter (λ p, int_at (row sp) p.2 ≠ p.1) (nonzero_passes sp nx).

(** The value the pattern stores on the diagonal of column [c]: that of the
    last nonzero of the column whose row is [c], zero when there is
    none. *)
Definition diagonal_value (sp : Sparsity) (nx : Z) (val : list K) (c : Z) : K :=
  match last (filter (λ p, p.1 = c ∧ int_at (row sp) p.2 = c)
                (nonzero_passes sp nx)) with
  | Some p => nth (Z.to_nat p.2) val 0%K
  | None => 0%K
  end.

Lemma remove_diagonal_spec (sp : Sparsity) (nx : Z) (val dval : list K) :
  compressed sp nx →
  remove_diagonal sp nx (val, dval, 0) =
  (list_inserts 0
     ((λ p, nth (Z.to_nat p.2) val 0%K) <$> off_diagonal_passes sp nx) val,
   foldl (λ d p, <[Z.to_nat p.1 := nth (Z.to_nat p.2) val 0%K]> d) dval
     (filter (λ p, int_at (row sp) p.2 = p.1) (nonzero_passes sp nx)),
   length (off_diagonal_passes sp nx)).
Proof.
  intros Hc. destruct (nonzero_passes_all sp nx Hc) as [Hels Hlen].
  unfold remove_diagonal.
  rewrite (remove_diagonal_fold sp (λ el, nth (Z.to_nat el) val 0%K) _ val dval 0 0);
    [done | | done | done].
  rewrite Hels, Hlen. done.
Qed.

Lemma diagonal_values (sp : Sparsity) (nx : Z) (val w : list K) :
  Z.to_nat nx ≤ length w →
  foldl (λ d p, <[Z.to_nat p.1 := nth (Z.to_nat p.2) val 0%K]> d)
    (fill_n (Z.to_nat nx) 0%K w)
    (filter (λ p, int_at (row sp) p.2 = p.1) (nonzero_passes sp nx)) =
  (diagonal_value sp nx val <$> range 0 nx) ++ drop (Z.to_nat nx) w.
Proof.
  intros Hw. apply list_eq. intros i.
  rewrite (foldl_insert_last (λ p, Z.to_nat p.1)).
  rewrite list_filter_filter.
  destruct (decide (i < Z.to_nat nx)) as [Hi|Hi].
  - rewrite lookup_app_l by (rewrite length_fmap, length_range; lia).
    rewrite list_lookup_fmap, lookup_range by lia. simpl.
    rewrite lookup_fill_n, decide_True by done.
    destruct (lookup_lt_is_Some_2 w i) as [x Hx]; [lia|]. rewrite Hx. simpl.
    unfold diagonal_value.
    rewrite (filter_ext_in _ (λ p, p.1 = Z.of_nat i ∧ int_at (row sp) p.2 = Z.of_nat i)).
    + by destruct (last _).
    + intros p Hp. apply elem_of_nonzero_passes in Hp as [Hp _].
      split; intros [H1 H2]; split; (lia || congruence).
  - rewrite lookup_app_r by (rewrite length_fmap, length_range; lia).
    rewrite length_fmap, length_range, lookup_drop.
    rewrite lookup_fill_n, decide_False by done.
    rewrite filter_none.
    + simpl. f_equal. lia.
    + intros p Hp [H1 H2]. apply elem_of_nonzero_passes in Hp as [Hp _]. lia.
Qed.

Lemma evalHM_moves_diagonal_values (R : Runtime K) (hesslag_sp : Sparsity)
    (nx : Z) (HM_val w : list K) :
  let off := off_diagonal_passes hesslag_sp nx in
  runtime_ok R →
  compressed hesslag_sp nx →
  length (row hesslag_sp) ≤ length HM_val →
  length off + Z.to_nat nx ≤ length HM_val →
  Z.to_nat nx ≤ length w →
  evalHM_values R hesslag_sp nx HM_val w =
    (((λ p, nth (Z.to_nat p.2) HM_val 0%K) <$> off) ++
     (diagonal_value hesslag_sp nx HM_val <$> range 0 nx) ++
     drop (length off + Z.to_nat nx) HM_val,
     (diagonal_value hesslag_sp nx HM_val <$> range 0 nx) ++
     drop (Z.to_nat nx) w).
Proof.
  intros off [Hfill Hcopy] Hc Hnnz Hval Hw. unfold evalHM_values.
  rewrite Hfill, Hcopy, remove_diagonal_spec by done. fold off. cbn [fst snd].
  rewrite diagonal_values by done.
  assert (length (diagonal_value hesslag_sp nx HM_val <$> range 0 nx)
          = Z.to_nat nx) as Hd by (rewrite length_fmap, length_range; lia).
  rewrite take_app_length' by done.
  f_equal.
  rewrite (list_inserts_split 0) by (rewrite length_fmap; lia).
  simpl. rewrite take_app_length' by (by rewrite length_fmap).
  rewrite drop_app_length' by (by rewrite length_fmap).
  f_equal.
  rewrite list_inserts_split by (rewrite length_drop, Hd, length_fmap; simpl; lia).
  simpl. f_equal.
  rewrite Hd, drop_drop, length_fmap. f_equal.
Qed.

(** X17. The diagonal is taken out of the Hessian values in place, for a
    compressed pattern and arrays that hold what is written: after the
    action [evalHM], [HM.val] holds the values of the nonzeros off the
    diagonal, in storage order, followed by the [nx] diagonal values, zero
    where the pattern has no diagonal nonzero; what lies behind is as it
    was, and the array keeps its length.  No value is overwritten before
    it is read: the value written for a nonzero is the one [HM.val] held
    for it at first.  The work vector is left holding the diagonal
    values.  The two runtime routines are taken to meet [runtime_ok]. *)
Theorem evalHM_moves_diagonal_last (R : Runtime K) (hesslag_sp : Sparsity)
    (nx : Z) (HM_val w : list K) :
  let off := off_diagonal_passes hesslag_sp nx in
  let s := evalHM_values R hesslag_sp nx HM_val w in
  runtime_ok R →
  compressed hesslag_sp nx →
  length (row hesslag_sp) ≤ length HM_val →
  length off + Z.to_nat nx ≤ length HM_val →
  Z.to_nat nx ≤ length w →
  s = (((λ p, nth (Z.to_nat p.2) HM_val 0%K) <$> off) ++
       (diagonal_value hesslag_sp nx HM_val <$> range 0 nx) ++
       drop (length off + Z.to_nat nx) HM_val,
       (diagonal_value hesslag_sp nx HM_val <$> range 0 nx) ++
       drop (Z.to_nat nx) w) ∧
  length s.1 = length HM_val ∧ length s.2 = length w ∧
  (∀ k p, off !! k = Some p → s.1 !! k = Some (nth (Z.to_nat p.2) HM_val 0%K)) ∧
  (∀ c, (0 ≤ c < nx)%Z →
     s.1 !! (length off + Z.to_nat c) = Some (diagonal_value hesslag_sp nx HM_val c) ∧
     s.2 !! Z.to_nat c = Some (diagonal_value hesslag_sp nx HM_val c)).
Proof.
  intros off s HR Hc Hnnz Hval Hw. unfold s.
  rewrite evalHM_moves_diagonal_values by done. fold off. cbn [fst snd].
  assert (length (diagonal_value hesslag_sp nx HM_val <$> range 0 nx)
          = Z.to_nat nx) as Hd by (rewrite length_fmap, length_range; lia).
  split; [done|]. split; [|split; [|split]].
  - rewrite !length_app, Hd, length_fmap, length_drop. lia.
  - rewrite length_app, Hd, length_drop. lia.
  - intros k p Hp.
    rewrite lookup_app_l by (rewrite length_fmap; by eapply lookup_lt_Some).
    by rewrite list_lookup_fmap, Hp.
  - intros c Hcol.
    assert (range 0 nx !! Z.to_nat c = Some c) as Hr.
    { rewrite lookup_range by lia. f_equal. lia. }
    split.
    + rewrite lookup_app_r by (rewrite length_fmap; lia).
      rewrite length_fmap.
      replace (length off + Z.to_nat c - length off) with (Z.to_nat c) by lia.
      rewrite lookup_app_l by lia. by rewrite list_lookup_fmap, Hr.
    + rewrite lookup_app_l by lia. by rewrite list_lookup_fmap, Hr.
Qed.

End Compaction.

Section Agreement.
Context {K : Scalar}.

(** The entry at row [r] and column [c] of the matrix stored with pattern
    [sp] and nonzeros [val]: the value of the first nonzero of column [c]
    whose row is [r], zero when the pattern has no such nonzero. *)
Definition entry (sp : Sparsity) (val : list K) (r c : Z) : K :=
  match list_find (λ el, int_at (row sp) el = r)
          (range (int_at (colind sp) c) (int_at (colind sp) (c + 1))) with
  | Some (_, el) => nth (Z.to_nat el) val 0%K
  | None => 0%K
  end.

Lemma entry_of_pass (sp : Sparsity) (nx : Z) (val : list K) (p : Z * Z) :
  unique_rows sp nx → p ∈ nonzero_passes sp nx →
  entry sp val (int_at (row sp) p.2) p.1 = nth (Z.to_nat p.2) val 0%K.
Proof.
  intros Hu Hp. apply elem_of_nonzero_passes in Hp as [Hc Hel].
  unfold entry.
  destruct (list_find_elem_of (λ el, int_at (row sp) el = int_at (row sp) p.2)
              (range (int_at (colind sp) p.1) (int_at (colind sp) (p.1 + 1)))
              p.2) as [[i el'] Hfind]; [by apply elem_of_range | done |].
  rewrite Hfind. apply list_find_Some in Hfind as (Hi & Hrow & _).
  apply list_elem_of_lookup_2, elem_of_range in Hi.
  by rewrite (Hu p.1 el' p.2 Hc Hi Hel Hrow).
Qed.

Lemma entry_diagonal (sp : Sparsity) (nx : Z) (val : list K) (c : Z) :
  unique_rows sp nx → (0 ≤ c < nx)%Z →
  diagonal_value sp nx val c = entry sp val c c.
Proof.
  intros Hu Hc. unfold diagonal_value.
  destruct (last _) as [p|] eqn:Hlast.
  - apply last_Some_elem_of, list_elem_of_filter in Hlast as [[H1 H2] Hp].
    rewrite <- (entry_of_pass sp nx val p Hu Hp). by rewrite H1, H2.
  - apply last_None in Hlast. unfold entry.
    destruct (list_find _ _) as [[i el]|] eqn:Hfind; [|done].
    exfalso. apply list_find_Some in Hfind as (Hi & Hrow & _).
    apply list_elem_of_lookup_2, elem_of_range in Hi.
    assert ((c, el) ∈ filter (λ p, p.1 = c ∧ int_at (row sp) p.2 = c)
              (nonzero_passes sp nx)) as Hin.
    { apply list_elem_of_filter. split; [done|].
      by apply elem_of_nonzero_passes. }
    rewrite Hlast in Hin. by apply elem_of_nil in Hin.
Qed.

(** X18. The values agree with the structure.  For a compressed Hessian
    pattern with no nonzero above the diagonal and no row twice in a
    column, and arrays of [nx + nnz_lower] entries, the count of
    [set_work] and the length of [HM.val] agree, and every entry [k] of
    the three arrays is a position on or below the diagonal, 1-based,
    together with the value the evaluated Hessian has at that position,
    which is zero at a diagonal position the pattern does not store.  The
    two runtime routines are taken to meet [runtime_ok]. *)
Theorem HM_values_match_structure (R : Runtime K) (hesslag_sp : Sparsity)
    (nx : Z) (HM_row HM_col : list Z) (HM_val w : list K) :
  let n := length (lower_passes hesslag_sp nx) + Z.to_nat nx in
  let s := HM_structure true hesslag_sp nx HM_row HM_col in
  let val := (evalHM_values R hesslag_sp nx HM_val w).1 in
  runtime_ok R →
  compressed hesslag_sp nx → unique_rows hesslag_sp nx →
  lower_triangular hesslag_sp nx →
  length HM_row = n → length HM_col = n → length HM_val = n →
  length (row hesslag_sp) ≤ n → Z.to_nat nx ≤ length w →
  s.2 = n ∧ length val = n ∧
  ∀ k, k < n →
    ∃ r c, s.1.1 !! k = Some (r + 1)%Z ∧ s.1.2 !! k = Some (c + 1)%Z ∧
           (0 ≤ c ≤ r)%Z ∧ (c < nx)%Z ∧
           val !! k = Some (entry hesslag_sp HM_val r c).
Proof.
  intros n s val HR Hc Hu Hlow Hrow Hcol Hval Hnnz Hw.
  assert (off_diagonal_passes hesslag_sp nx = lower_passes hesslag_sp nx) as Hoff.
  { apply filter_ext_in. intros p Hp. specialize (Hlow p Hp). lia. }
  unfold s, val.
  rewrite HM_structure_eq by done.
  rewrite evalHM_moves_diagonal_values;
    [| done | done | lia | rewrite Hoff; lia | done].
  rewrite Hoff. cbn [fst snd]. fold n.
  set (low := lower_passes hesslag_sp nx) in *.
  split; [done|]. split.
  { rewrite !length_app, !length_fmap, length_range, length_drop. lia. }
  intros k Hk.
  destruct (decide (k < length low)) as [Hkl|Hkl].
  - destruct (lookup_lt_is_Some_2 low k Hkl) as [p Hp].
    exists (int_at (row hesslag_sp) p.2), p.1.
    rewrite !lookup_app_l by (by rewrite length_fmap).
    rewrite !list_lookup_fmap, Hp. simpl.
    apply list_elem_of_lookup_2, list_elem_of_filter in Hp as [Hgt Hp].
    pose proof (proj1 (elem_of_nonzero_passes _ _ _) Hp) as [Hp1 _].
    split; [done|]. split; [done|]. split; [lia|]. split; [lia|].
    by rewrite (entry_of_pass hesslag_sp nx HM_val p Hu Hp).
  - exists (Z.of_nat (k - length low)), (Z.of_nat (k - length low)).
    rewrite !lookup_app_r by (rewrite length_fmap; lia).
    rewrite !length_fmap.
    assert (k - length low < Z.to_nat (nx - 0)) as Hj by lia.
    rewrite lookup_app_l by (rewrite length_fmap, length_range; lia).
    rewrite !list_lookup_fmap, !lookup_range by done. simpl.
    split; [done|]. split; [done|]. split; [lia|]. split; [lia|].
    by rewrite entry_diagonal by (done || lia).
Qed.

End Agreement.

(** *** The inputs of [solve] *)

Section Bounds.
Context {K : Scalar}.

(** [==] on [double], the value [numeric_limits<double>::infinity()], the
    text [casadi_assert_message] throws for a message, and the text the
    stream operator gives an [int] and a [double]: all come from outside the
    files at hand.  [-inf] is [opp inf]. *)
Context (equal : K → K → bool) (inf : K).
Context (casadi_assert_message_text : string → string).
Context (show_int : Z → string) (show_double : K → string).

Definition lbx_is_ubx (i : Z) (v : K) : string :=
  "WorhpInterface::evaluate: Worhp cannot handle the case when "
  +:+ "LBX == UBX."
  +:+ "You have that case at non-zero " +:+ show_int i
  +:+ " , which has value " +:+ show_double v
  +:+ ". Reformulate your problem by using a parameter "
  +:+ "for the corresponding variable.".

Definition lbg_ubg_infinite (i : Z) : string :=
  "WorhpInterface::evaluate: Worhp cannot handle the case when both "
  +:+ "LBG and UBG are infinite."
  +:+ "You have that case at non-zero " +:+ show_int i +:+ "."
  +:+ "Reformulate your problem eliminating the corresponding constraint.".

(** [x[i]] for an [int] index into a [double] array. *)
Definition double_at (x : list K) (i : Z) : K := nth (Z.to_nat i) x 0%K.

(** The loop [for (int i=0; i<nx_; ++i) casadi_assert_message(lbx[i] !=
    ubx[i], ...)] over the indices still to visit. *)
Fixpoint check_x (lbx ubx : list K) (indices : list Z) : result unit :=
  match indices with
  | [] => Ok tt
  | i :: rest =>
      if equal (double_at lbx i) (double_at ubx i)
      then Error (casadi_assert_message_text (lbx_is_ubx i (double_at ubx i)))
      else check_x lbx ubx rest
  end.

(** The loop [for (int i=0; i<ng_; ++i) casadi_assert_message(!(lbg[i] ==
    -inf && ubg[i] == inf), ...)]. *)
Fixpoint check_g (lbg ubg : list K) (indices : list Z) : result unit :=
  match indices with
  | [] => Ok tt
  | i :: rest =>
      if equal (double_at lbg i) (opp inf) && equal (double_at ubg i) inf
      then Error (casadi_assert_message_text (lbg_ubg_infinite i))
      else check_g lbg ubg rest
  end.

(** The two checks of [solve], each made when both of its pointers are
    non-null: [if (m->lbx && m->ubx) ...; if (m->lbg && m->ubg) ...]. *)
Definition check_bounds (nx ng : Z) (lbx ubx lbg ubg : option (list K))
    : result unit :=
  _ ← match lbx, ubx with
      | Some l, Some u => check_x l u (range 0 nx)
      | _, _ => Ok tt
      end;
  match lbg, ubg with
  | Some l, Some u => check_g l u (range 0 ng)
  | _, _ => Ok tt
  end.

(** [for (int i=0; i<n; ++i) if (x[i]==bad) x[i] = good;] *)
Definition replace_bound (n : Z) (bad good : K) (x : list K) : list K :=
  foldl (λ x i, if equal (double_at x i) bad then <[Z.to_nat i := good]> x else x)
    x (range 0 n).

(** The four loops that replace infinite bounds by [worhp_p.Infty], on
    [XL], [XU], [GL] and [GU]. *)
Definition replace_infinite (nx ng : Z) (Infty : K)
    (XL XU GL GU : list K) : list K * list K * list K * list K :=
  (replace_bound nx (opp inf) (opp Infty) XL,
   replace_bound nx inf Infty XU,
   replace_bound ng (opp inf) (opp Infty) GL,
   replace_bound ng inf Infty GU).

Lemma check_x_spec (lbx ubx : list K) (indices : list Z) :
  (check_x lbx ubx indices = Ok tt ↔
   ∀ i, i ∈ indices → equal (double_at lbx i) (double_at ubx i) = false) ∧
  (∀ pre i post,
     indices = pre ++ i :: post →
     (∀ j, j ∈ pre → equal (double_at lbx j) (double_at ubx j) = false) →
     equal (double_at lbx i) (double_at ubx i) = true →
     check_x lbx ubx indices =
       Error (casadi_assert_message_text (lbx_is_ubx i (double_at ubx i)))).
Proof.
  induction indices as [|i0 rest [IH1 IH2]]; simpl.
  - split.
    + split; [intros _ i Hi; by apply elem_of_nil in Hi | done].
    + intros [|] ? ?; discriminate.
  - destruct (equal (double_at lbx i0) (double_at ubx i0)) eqn:E.
    + split.
      * split; [done|]. intros H. specialize (H i0 (list_elem_of_here _ _)).
        congruence.
      * intros [|j pre] i post Heq Hpre Hi; injection Heq as <- ->; [done|].
        specialize (Hpre i0 (list_elem_of_here _ _)). congruence.
    + split.
      * rewrite IH1. split.
        -- intros H i Hi. apply elem_of_cons in Hi as [->|Hi]; [done | by apply H].
        -- intros H i Hi. apply H. by right.
      * intros [|j pre] i post Heq Hpre Hi; injection Heq as <- ->;
          [congruence|].
        apply (IH2 pre i post); [done | | done].
        intros j Hj. apply Hpre. by right.
Qed.

Lemma check_g_spec (lbg ubg : list K) (indices : list Z) :
  check_g lbg ubg indices = Ok tt ↔
  ∀ i, i ∈ indices →
    ¬ (equal (double_at lbg i) (opp inf) = true ∧
       equal (double_at ubg i) inf = true).
Proof.
  induction indices as [|i0 rest IH]; simpl.
  - split; [intros _ i Hi; by apply elem_of_nil in Hi | done].
  - destruct (equal (double_at lbg i0) (opp inf) && equal (double_at ubg i0) inf) eqn:E.
    + apply andb_true_iff in E. split; [done|].
      intros H. destruct (H i0 (list_elem_of_here _ _) E).
    + rewrite IH. apply andb_false_iff in E. split.
      * intros H i Hi. apply elem_of_cons in Hi as [->|Hi]; [|by apply H].
        intros [H1 H2]. destruct E; congruence.
      * intros H i Hi. apply H. by right.
Qed.

(** X19. What [solve] refuses.  With all four bound pointers set, the checks
    pass exactly when no variable has [lbx[i] == ubx[i]] and no constraint
    has [lbg[i] == -inf] together with [ubg[i] == inf]; a variable with
    equal bounds is reported by the message for the least such index,
    whatever the constraint bounds are; and a check whose lower or upper
    pointer is null is not made. *)
Theorem check_bounds_refuses (nx ng : Z) (lbx ubx lbg ubg : list K) :
  (check_bounds nx ng (Some lbx) (Some ubx) (Some lbg) (Some ubg) = Ok tt ↔
   (∀ i, (0 ≤ i < nx)%Z → equal (double_at lbx i) (double_at ubx i) = false) ∧
   (∀ i, (0 ≤ i < ng)%Z →
      ¬ (equal (double_at lbg i) (opp inf) = true ∧
         equal (double_at ubg i) inf = true))) ∧
  (∀ i og og', (0 ≤ i < nx)%Z →
     (∀ j, (0 ≤ j < i)%Z → equal (double_at lbx j) (double_at ubx j) = false) →
     equal (double_at lbx i) (double_at ubx i) = true →
     check_bounds nx ng (Some lbx) (Some ubx) og og' =
       Error (casadi_assert_message_text (lbx_is_ubx i (double_at ubx i)))) ∧
  (∀ ox, check_bounds nx ng None ox None (Some ubg) = Ok tt ∧
         check_bounds nx ng ox None (Some lbg) None = Ok tt).
Proof.
  split; [|split].
  - unfold check_bounds.
    destruct (check_x_spec lbx ubx (range 0 nx)) as [Hx _].
    destruct (check_x lbx ubx (range 0 nx)) as [[]|msg] eqn:Ex; simpl.
    + rewrite check_g_spec. split.
      * intros Hg. split.
        -- intros i Hi. apply Hx; [done | by apply elem_of_range].
        -- intros i Hi. apply Hg. by apply elem_of_range.
      * intros [_ Hg] i Hi. apply Hg. by apply elem_of_range in Hi.
    + split; [done|]. intros [H _]. apply Hx.
      intros i Hi. apply H. by apply elem_of_range in Hi.
  - intros i og og' Hi Hpre Heq. unfold check_bounds.
    destruct (check_x_spec lbx ubx (range 0 nx)) as [_ Hfirst].
    rewrite (Hfirst (range 0 i) i (range (i + 1) nx)); [done | | | done].
    + rewrite (range_app 0 i nx) by lia. f_equal. apply range_cons. lia.
    + intros j Hj. apply Hpre. by apply elem_of_range in Hj.
  - intros ox. by destruct ox.
Qed.

Lemma replace_bound_lookup (bad good : K) (x : list K) (n j : nat) :
  replace_bound (Z.of_nat n) bad good x !! j =
  if decide (j < n) then (λ v, if equal v bad then good else v) <$> x !! j
  else x !! j.
Proof.
  unfold replace_bound. revert j. induction n as [|n IH]; intros j; [done|].
  replace (Z.of_nat (S n)) with (Z.of_nat n + 1)%Z by lia.
  rewrite range_snoc, foldl_app by lia. cbn [foldl].
  set (r := foldl _ x (range 0 (Z.of_nat n))) in *.
  assert (r !! n = x !! n) as Hn by (rewrite IH; by rewrite decide_False by lia).
  unfold double_at. rewrite Nat2Z.id, nth_lookup, Hn.
  destruct (x !! n) as [v|] eqn:Hv; simpl.
  - assert (n < length r) as Hlen by (by eapply lookup_lt_Some).
    destruct (decide (j = n)) as [->|Hj].
    + rewrite decide_True, Hv by lia. simpl.
      destruct (equal v bad); [by rewrite list_lookup_insert_eq | done].
    + assert ((if equal v bad then <[n := good]> r else r) !! j = r !! j) as ->.
      { destruct (equal v bad); [|done]. by rewrite list_lookup_insert_ne. }
      rewrite IH. repeat case_decide; (done || lia).
  - assert (length r ≤ n) as Hlen by (by apply lookup_ge_None_1).
    assert ((if equal 0%K bad then <[n := good]> r else r) = r) as ->.
    { destruct (equal _ bad); [|done]. apply list_insert_ge. lia. }
    rewrite IH. destruct (decide (j = n)) as [->|Hj].
    + rewrite decide_False, decide_True, Hv by lia. done.
    + repeat case_decide; (done || lia).
Qed.

(** X20. The bounds that stand for "none" are replaced entry by entry.  On
    arrays of [nx], respectively [ng], entries, every lower bound that
    compares equal to [-inf] becomes [-Infty], every upper bound that
    compares equal to [inf] becomes [Infty], and every other bound is
    kept, so the arrays keep their lengths.  The loops test a lower bound
    against [-inf] only and an upper bound against [inf] only: a lower
    bound [inf] and an upper bound [-inf] are among the bounds that are
    kept.  When [Infty] itself does not compare equal to infinity, no lower
    bound that compares equal to [-inf] and no upper bound that compares
    equal to [inf] is left. *)
Theorem replace_infinite_bounds (nx ng : Z) (Infty : K) (XL XU GL GU : list K) :
  let fix_lower := λ v, if equal v (opp inf) then opp Infty else v in
  let fix_upper := λ v, if equal v inf then Infty else v in
  length XL = Z.to_nat nx → length XU = Z.to_nat nx →
  length GL = Z.to_nat ng → length GU = Z.to_nat ng →
  replace_infinite nx ng Infty XL XU GL GU =
    (fix_lower <$> XL, fix_upper <$> XU, fix_lower <$> GL, fix_upper <$> GU) ∧
  (equal (opp Infty) (opp inf) = false →
   ∀ v, v ∈ fix_lower <$> XL ++ GL → equal v (opp inf) = false) ∧
  (equal Infty inf = false →
   ∀ v, v ∈ fix_upper <$> XU ++ GU → equal v inf = false) ∧
  (∀ i v, (XL ++ GL) !! i = Some v → equal v (opp inf) = false →
     (fix_lower <$> XL ++ GL) !! i = Some v) ∧
  (∀ i v, (XU ++ GU) !! i = Some v → equal v inf = false →
     (fix_upper <$> XU ++ GU) !! i = Some v) ∧
  (equal inf (opp inf) = false →
   ∀ i, (XL ++ GL) !! i = Some inf →
     (fix_lower <$> XL ++ GL) !! i = Some inf) ∧
  (equal (opp inf) inf = false →
   ∀ i, (XU ++ GU) !! i = Some (opp inf) →
     (fix_upper <$> XU ++ GU) !! i = Some (opp inf)).
Proof.
  intros fix_lower fix_upper HXL HXU HGL HGU.
  assert (∀ n bad good (x : list K), length x = Z.to_nat n →
    replace_bound n bad good x = (λ v, if equal v bad then good else v) <$> x)
    as Hmap.
  { intros n bad good x Hx. apply list_eq. intros j.
    destruct (decide (0 ≤ n)%Z) as [Hn|Hn].
    - rewrite <- (Z2Nat.id n) at 1 by lia.
      rewrite replace_bound_lookup, list_lookup_fmap.
      case_decide; [done|].
      rewrite (lookup_ge_None_2 x j) by lia. done.
    - unfold replace_bound. rewrite range_empty by lia. simpl.
      assert (x = []) as -> by (apply length_zero_iff_nil; lia). done. }
  assert (∀ i v, (XL ++ GL) !! i = Some v → equal v (opp inf) = false →
            (fix_lower <$> XL ++ GL) !! i = Some v) as Hlow.
  { intros i v Hi Hv. rewrite list_lookup_fmap, Hi. simpl.
    unfold fix_lower. by rewrite Hv. }
  assert (∀ i v, (XU ++ GU) !! i = Some v → equal v inf = false →
            (fix_upper <$> XU ++ GU) !! i = Some v) as Hup.
  { intros i v Hi Hv. rewrite list_lookup_fmap, Hi. simpl.
    unfold fix_upper. by rewrite Hv. }
  split; [|split; [|split; [|split; [|split; [|split]]]]].
  - unfold replace_infinite. by rewrite !Hmap.
  - intros HI v Hv. apply list_elem_of_fmap in Hv as (u & -> & _).
    unfold fix_lower. by destruct (equal u (opp inf)) eqn:E.
  - intros HI v Hv. apply list_elem_of_fmap in Hv as (u & -> & _).
    unfold fix_upper. by destruct (equal u inf) eqn:E.
  - exact Hlow.
  - exact Hup.
  - intros Hne i Hi. by apply Hlow.
  - intros Hne i Hi. by apply Hup.
Qed.

End Bounds.

(** *** Return codes *)

(** The statuses [return_codes] names, in the order of its [case] labels.
    Their integer values are defined by the WORHP headers. *)
Module Status.

Inductive t : Type :=
  | TerminateSuccess
  | OptimalSolution
  | SearchDirectionZero
  | SearchDirectionSmall
  | StationaryPointFound
  | AcceptablePrevious
  | FritzJohn
  | NotDiffable
  | Unbounded
  | FeasibleSolution
  | LowPassFilterOptimal
  | LowPassFilterAcceptable
  | TerminateError
  | InitError
  | DataError
  | MaxCalls
  | MaxIter
  | MinimumStepsize
  | QPerror
  | ProblemInfeasible
  | GroupsComposition
  | TooBig
  | Timeout
  | FDError
  | LocalInfeas
  | LicenseError
  | TerminatedByUser
  | FunctionErrorF
  | FunctionErrorG
  | FunctionErrorDF
  | FunctionErrorDG
  | FunctionErrorHM.

Definition all : list t :=
  [TerminateSuccess; OptimalSolution; SearchDirectionZero;
   SearchDirectionSmall; StationaryPointFound; AcceptablePrevious;
   FritzJohn; NotDiffable; Unbounded; FeasibleSolution;
   LowPassFilterOptimal; LowPassFilterAcceptable; TerminateError;
   InitError; DataError; MaxCalls; MaxIter; MinimumStepsize; QPerror;
   ProblemInfeasible; GroupsComposition; TooBig; Timeout; FDError;
   LocalInfeas; LicenseError; TerminatedByUser; FunctionErrorF;
   FunctionErrorG; FunctionErrorDF; FunctionErrorDG; FunctionErrorHM].

Definition name (s : t) : string :=
  match s with
  | TerminateSuccess => "TerminateSuccess"
  | OptimalSolution => "OptimalSolution"
  | SearchDirectionZero => "SearchDirectionZero"
  | SearchDirectionSmall => "SearchDirectionSmall"
  | StationaryPointFound => "StationaryPointFound"
  | AcceptablePrevious => "AcceptablePrevious"
  | FritzJohn => "FritzJohn"
  | NotDiffable => "NotDiffable"
  | Unbounded => "Unbounded"
  | FeasibleSolution => "FeasibleSolution"
  | LowPassFilterOptimal => "LowPassFilterOptimal"
  | LowPassFilterAcceptable => "LowPassFilterAcceptable"
  | TerminateError => "TerminateError"
  | InitError => "InitError"
  | DataError => "DataError"
  | MaxCalls => "MaxCalls"
  | MaxIter => "MaxIter"
  | MinimumStepsize => "MinimumStepsize"
  | QPerror => "QPerror"
  | ProblemInfeasible => "ProblemInfeasible"
  | GroupsComposition => "GroupsComposition"
  | TooBig => "TooBig"
  | Timeout => "Timeout"
  | FDError => "FDError"
  | LocalInfeas => "LocalInfeas"
  | LicenseError => "LicenseError"
  | TerminatedByUser => "TerminatedByUser"
  | FunctionErrorF => "FunctionErrorF"
  | FunctionErrorG => "FunctionErrorG"
  | FunctionErrorDF => "FunctionErrorDF"
  | FunctionErrorDG => "FunctionErrorDG"
  | FunctionErrorHM => "FunctionErrorHM"
  end.

End Status.

Definition unknown_return_code : string := "Unknown WORHP return code".

(** [WorhpInterface::return_codes]: the [switch] over the statuses, with
    [code] giving each status its integer value, and the text returned
    behind the [switch]. *)
Definition return_codes (code : Status.t → Z) (flag : Z) : string :=
  match list_find (λ s, code s = flag) Status.all with
  | Some (_, s) => Status.name s
  | None => unknown_return_code
  end.

Section ReturnCodes.

Lemma status_all (s : Status.t) : s ∈ Status.all.
Proof. destruct s; unfold Status.all; set_solver. Qed.

Lemma status_name_inj (s s' : Status.t) : Status.name s = Status.name s' → s = s'.
Proof. destruct s, s'; (reflexivity || discriminate). Qed.

(** X21. The text of a return code identifies the status.  The integer
    values of the statuses being distinct, as the labels of a [switch]
    are, [return_codes] gives the value of each status the name of that
    status and every other integer the text for an unknown code; no two
    statuses share a name and none is named like the unknown code, so two
    known codes with the same text are the same code. *)
Theorem return_codes_identify (code : Status.t → Z) :
  (∀ s s', code s = code s' → s = s') →
  (∀ s, return_codes code (code s) = Status.name s) ∧
  (∀ flag, (∀ s, code s ≠ flag) → return_codes code flag = unknown_return_code) ∧
  (∀ s, Status.name s ≠ unknown_return_code) ∧
  (∀ s s', return_codes code (code s) = return_codes code (code s') → s = s') ∧
  (∀ flag, return_codes code flag = unknown_return_code ↔ ∀ s, code s ≠ flag).
Proof.
  intros Hinj.
  assert (∀ s, return_codes code (code s) = Status.name s) as Hname.
  { intros s. unfold return_codes.
    destruct (list_find_elem_of (λ s', code s' = code s) Status.all s
                (status_all s) eq_refl) as [[i s'] Hfind].
    rewrite Hfind. apply list_find_Some in Hfind as (_ & Hs' & _).
    by rewrite (Hinj s' s Hs'). }
  assert (∀ flag, (∀ s, code s ≠ flag) →
            return_codes code flag = unknown_return_code) as Hunknown.
  { intros flag Hno. unfold return_codes.
    destruct (list_find _ _) as [[i s]|] eqn:Hfind; [|done].
    apply list_find_Some in Hfind as (_ & Hs & _). by destruct (Hno s). }
  assert (∀ s, Status.name s ≠ unknown_return_code) as Hknown
    by (intros s; destruct s; discriminate).
  split; [done|]. split; [done|]. split; [done|]. split.
  - intros s s'. rewrite !Hname. apply status_name_inj.
  - intros flag. split; [|apply Hunknown].
    intros Hflag s <-. rewrite Hname in Hflag. by apply (Hknown s).
Qed.

End ReturnCodes.

End WorhpInterface.

(** A run of the loop against a toy library: the memory is the status
    word, WORHP asks for iteration output in every pass and for nothing
    else, and the callback returns [1].  The loop as [solve] enters it runs
    on, the callback never evaluated; entered with the flag cleared it
    would evaluate the callback in the first pass and stop with
    [TerminatedByUser]. *)
Definition toy_library : WorhpInterface.Library Z :=
  WorhpInterface.mkLibrary Z
    (λ m, m) (λ _ s, s) 1000%Z (-1000)%Z (-1024)%Z
    (λ _ a, match a with WorhpInterface.iterOutput => true | _ => false end)
    (λ m _, m) (λ m, m) (λ m, m) (λ m, m)
    (λ m, m) (λ m, m) (λ m, m) (λ m, m) (λ m, m) (λ m, m).

Example toy_run :
  WorhpInterface.solve_loop toy_library (Some (λ _, 1%Z)) 5 0%Z =
    WorhpInterface.mkLoop 0%Z true [] ∧
  WorhpInterface.reverse_communication toy_library (Some (λ _, 1%Z)) 5
    (WorhpInterface.mkLoop 0%Z false []) =
    WorhpInterface.mkLoop (-1024)%Z true [1%Z].
Proof. split; reflexivity. Qed.

(** [init] against toy conversions and a toy parameter table: values are
    integers, a dictionary value is the list of the keys [MaxIter] and
    [Bogus] when positive, and WORHP has the parameters [MaxIter] (int),
    [TolOpti] (double) and [UserHM] (of another type). *)
Definition toy_ops : GenericOps Z Z :=
  mkGenericOps Z Z
    (λ v, Ok (bool_decide (v ≠ 0)%Z)) (λ v, Ok v) (λ v, Ok v)
    (λ v, if decide (0 < v)%Z then Ok [("MaxIter", v); ("Bogus", v)]
          else Error "not a dictionary").

Definition toy_table : WorhpInterface.ParamTable :=
  WorhpInterface.mkParamTable 3
    (λ ind, if decide (ind = 1)%Z then "MaxIter"
            else if decide (ind = 2)%Z then "TolOpti" else "UserHM")
    (λ ind, if decide (ind = 1)%Z then WorhpInterface.WORHP_INT_T
            else if decide (ind = 2)%Z then WorhpInterface.WORHP_DOUBLE_T
            else WorhpInterface.WORHP_OTHER_T).

(** The option table of the toy base classes, with the one key [verbose];
    the base class initializer of the toy linear solver keeps in its state
    the value of [verbose] when the dictionary has it. *)
Definition toy_base_options : Options :=
  mkOptions [] [("verbose", (OT_BOOL, "Verbose evaluation"))].

Definition toy_base_init (b : Z) (opts : list (string * Z)) : result Z :=
  Ok (default b ((λ e, e.2.2) <$> list_find (λ e, e.1 = "verbose") opts)).

Example toy_init :
  WorhpInterface.init toy_ops toy_table (λ b _, Ok b) (λ b, Ok b)
    (WorhpInterface.mk tt ∅ ∅ ∅) [("worhp", 7%Z)] =
    Error "No such Worhp option: Bogus" ∧
  SymbolicQr.init toy_ops toy_base_init (λ b, b + 1)%Z (λ b, b + 2)%Z
    (SymbolicQr.mk 0%Z ∅) [("codegen", 1%Z); ("compiler", 0%Z)] =
    Error SymbolicQr.compiler_removed ∧
  SymbolicQr.init toy_ops toy_base_init (λ b, b + 1)%Z (λ b, b + 2)%Z
    (SymbolicQr.mk 0%Z ∅) [("codegen", 1%Z); ("verbose", 40%Z)] =
    Ok (SymbolicQr.mk 40%Z
          (<["jit_options" := 42%Z]> (<["compiler" := 41%Z]> ∅))).
Proof. repeat split; reflexivity. Qed.

(** The toy initializations on the key [foo], which no table lists, alone
    and after a key that is listed; and on listed keys. *)
Example toy_construct :
  SymbolicQr.construct toy_ops toy_base_init (λ b, b + 1)%Z (λ b, b + 2)%Z
    toy_base_options (SymbolicQr.mk 0%Z ∅) [("foo", 1%Z)] =
    Error "UnknownOptionError: foo" ∧
  SymbolicQr.construct toy_ops toy_base_init (λ b, b + 1)%Z (λ b, b + 2)%Z
    toy_base_options (SymbolicQr.mk 0%Z ∅) [("codegen", 1%Z); ("foo", 1%Z)] =
    Error "UnknownOptionError: foo" ∧
  SymbolicQr.construct toy_ops toy_base_init (λ b, b + 1)%Z (λ b, b + 2)%Z
    toy_base_options (SymbolicQr.mk 0%Z ∅) [("codegen", 0%Z); ("verbose", 40%Z)] =
    Ok (SymbolicQr.mk 40%Z ∅) ∧
  WorhpInterface.construct toy_ops toy_table (λ b _, Ok b) (λ b, Ok b)
    toy_base_options (WorhpInterface.mk tt ∅ ∅ ∅) [("foo", 1%Z)] =
    Error "UnknownOptionError: foo" ∧
  WorhpInterface.construct toy_ops toy_table (λ b _, Ok b) (λ b, Ok b)
    toy_base_options (WorhpInterface.mk tt ∅ ∅ ∅) [("worhp", 7%Z)] =
    Error "No such Worhp option: Bogus".
Proof. repeat split; reflexivity. Qed.

(** The options [MaxIter] and [TolOpti] sorted against the toy table: the
    first goes to the integers, the second to the doubles. *)
Lemma sort_options_stores_witness :
  let o := WorhpInterface.mk (F := Z) tt ∅ ∅ ∅ in
  let o' := WorhpInterface.mk (F := Z) tt ∅ (<["TolOpti" := 3%Z]> ∅)
              (<["MaxIter" := 7%Z]> ∅) in
  WorhpInterface.sort_options toy_ops toy_table
    [("MaxIter", 7%Z); ("TolOpti", 3%Z)] o = Ok o' ∧
  WorhpInterface.stored toy_ops toy_table o o' "MaxIter" 7%Z ∧
  WorhpInterface.stored toy_ops toy_table o o' "TolOpti" 3%Z.
Proof.
  intros o o'.
  assert (WorhpInterface.sort_options toy_ops toy_table
            [("MaxIter", 7%Z); ("TolOpti", 3%Z)] o = Ok o') as Hs
    by reflexivity.
  destruct (WorhpInterface.sort_options_stores toy_ops toy_table
              [("MaxIter", 7%Z); ("TolOpti", 3%Z)] o o') as (_ & Hst & _).
  - apply NoDup_cons. split; [|apply NoDup_singleton].
    intros H. apply list_elem_of_singleton in H. discriminate H.
  - exact Hs.
  - split; [exact Hs|]. split.
    + apply Hst. left.
    + apply Hst. right. left.
Defined.

(** The toy [init] on a dictionary with the key [verbose] next to
    [codegen]: the base class initializer reads [verbose], and [fopts_]
    receives the two members as it left them. *)
Lemma init_reads_codegen_witness :
  ∃ o', SymbolicQr.init toy_ops toy_base_init (λ b, b + 1)%Z (λ b, b + 2)%Z
          (SymbolicQr.mk 0%Z ∅) [("codegen", 1%Z); ("verbose", 40%Z)] = Ok o' ∧
        SymbolicQr.base o' = 40%Z ∧
        SymbolicQr.fopts o' !! "compiler" = Some 41%Z ∧
        SymbolicQr.fopts o' !! "jit_options" = Some 42%Z ∧
        ∀ key, key ≠ "compiler" → key ≠ "jit_options" →
          SymbolicQr.fopts o' !! key = (∅ : gmap string Z) !! key.
Proof.
  apply (SymbolicQr.init_reads_codegen toy_ops toy_base_init
           (λ b, b + 1)%Z (λ b, b + 2)%Z
           (SymbolicQr.mk 0%Z ∅) [("codegen", 1%Z); ("verbose", 40%Z)] 40%Z 1%Z).
  - apply NoDup_cons. split; [|apply NoDup_singleton].
    intros H. apply list_elem_of_singleton in H. discriminate H.
  - intros H. apply elem_of_cons in H as [H|H]; [discriminate H|].
    apply list_elem_of_singleton in H. discriminate H.
  - left.
  - reflexivity.
Defined.

Lemma init_sorts_worhp_dictionary_witness :
  WorhpInterface.init toy_ops toy_table (λ b _, Ok b) (λ b, Ok b)
    (WorhpInterface.mk tt ∅ ∅ ∅) [("foo", 1%Z); ("worhp", 7%Z)] =
    Error "No such Worhp option: Bogus".
Proof.
  apply (WorhpInterface.init_sorts_worhp_dictionary toy_ops toy_table
           (λ b _, Ok b) (λ b, Ok b) (WorhpInterface.mk tt ∅ ∅ ∅)
           [("foo", 1%Z); ("worhp", 7%Z)] tt 7%Z).
  - apply NoDup_cons. split; [|apply NoDup_singleton].
    intros H. apply list_elem_of_singleton in H. discriminate H.
  - right. left.
  - reflexivity.
Defined.

(** A Jacobian pattern with two rows and three columns, nonzeros at
    [(0, 0)], [(0, 2)] and [(1, 2)], and a Hessian pattern with three
    columns, nonzeros at [(0, 0)], [(2, 0)] and [(1, 1)]: lower triangular,
    without the last diagonal entry. *)
Definition toy_jacobian : WorhpInterface.Sparsity :=
  WorhpInterface.mkSparsity [0; 1; 1; 3]%Z [0; 0; 1]%Z.

Definition toy_hessian : WorhpInterface.Sparsity :=
  WorhpInterface.mkSparsity [0; 2; 3; 3]%Z [0; 2; 1]%Z.

Ltac column3 c H :=
  assert (c = 0 ∨ c = 1 ∨ c = 2)%Z as [ -> | [ -> | -> ] ] by (clear - H; lia).

Lemma toy_jacobian_compressed : WorhpInterface.compressed toy_jacobian 3.
Proof.
  split; [lia|]. split; [reflexivity|]. split; [|reflexivity].
  intros c Hc. column3 c Hc; vm_compute; discriminate.
Qed.

Lemma toy_hessian_compressed : WorhpInterface.compressed toy_hessian 3.
Proof.
  split; [lia|]. split; [reflexivity|]. split; [|reflexivity].
  intros c Hc. column3 c Hc; vm_compute; discriminate.
Qed.

Lemma toy_hessian_unique_rows : WorhpInterface.unique_rows toy_hessian 3.
Proof.
  intros c el el' Hc. column3 c Hc; unfold WorhpInterface.int_at; simpl;
    intros Hel Hel' Hrow; try lia.
  assert (el = 0 ∨ el = 1)%Z as [ -> | -> ] by lia;
    assert (el' = 0 ∨ el' = 1)%Z as [ -> | -> ] by lia;
    try done; vm_compute in Hrow; discriminate Hrow.
Qed.

Lemma toy_hessian_lower_triangular :
  WorhpInterface.lower_triangular toy_hessian 3.
Proof.
  intros p Hp. vm_compute in Hp.
  repeat (apply elem_of_cons in Hp as [->|Hp]; [vm_compute; discriminate|]).
  by apply elem_of_nil in Hp.
Qed.

(** The structure of [DF] and [DG] for the toy Jacobian. *)
Lemma DG_structure_lists_pattern_witness :
  let s := WorhpInterface.DG_structure 2 true toy_jacobian 3
             [0; 0; 0]%Z [0; 0; 0]%Z in
  WorhpInterface.DF_structure true 3 [0; 0; 0]%Z = [1; 2; 3]%Z ∧
  s = ([1; 1; 2]%Z, [1; 3; 3]%Z, 3) ∧
  s.1.1 = (λ r, r + 1)%Z <$> WorhpInterface.row toy_jacobian.
Proof.
  intros s.
  destruct (WorhpInterface.DG_structure_lists_pattern 2 3 toy_jacobian
              [0; 0; 0]%Z [0; 0; 0]%Z [0; 0; 0]%Z toy_jacobian_compressed)
    as (HDF & _ & Hrow & _); [lia | reflexivity | reflexivity | reflexivity |].
  split; [exact HDF|]. split; [reflexivity | exact Hrow].
Defined.

(** The structure of [HM] for the toy Hessian: the entry [(3, 1)] below the
    diagonal, then the three diagonal positions. *)
Lemma HM_structure_lower_then_diagonal_witness :
  let s := WorhpInterface.HM_structure true toy_hessian 3
             [0; 0; 0; 0]%Z [0; 0; 0; 0]%Z in
  s = ([3; 1; 2; 3]%Z, [1; 1; 2; 3]%Z, 4) ∧
  s.2 = length (WorhpInterface.lower_passes toy_hessian 3) + Z.to_nat 3.
Proof.
  intros s. split; [reflexivity|].
  destruct (WorhpInterface.HM_structure_lower_then_diagonal toy_hessian 3
              [0; 0; 0; 0]%Z [0; 0; 0; 0]%Z) as (Hn & _);
    [reflexivity | reflexivity | exact Hn].
Defined.

(** The two runtime routines over the integers. *)
Definition toy_runtime : WorhpInterface.Runtime Zscalar :=
  WorhpInterface.mkRuntime
    (λ x n alpha, fill_n (Z.to_nat n) alpha x)
    (λ x n y, list_inserts 0 (take (Z.to_nat n) x) y).

Lemma toy_runtime_ok : WorhpInterface.runtime_ok toy_runtime.
Proof. split; reflexivity. Qed.

(** The Hessian values [(10, 20, 30)] of the toy pattern: [20] lies below
    the diagonal, [10] and [30] on it, and the third diagonal value is
    zero. *)
Lemma evalHM_moves_diagonal_last_witness :
  let s := WorhpInterface.evalHM_values toy_runtime toy_hessian 3
             [10; 20; 30; 99]%Z [7; 7; 7; 7]%Z in
  s = ([20; 10; 30; 0]%Z, [10; 30; 0; 7]%Z) ∧
  length s.1 = 4 ∧ length s.2 = 4.
Proof.
  intros s. split; [reflexivity|].
  destruct (WorhpInterface.evalHM_moves_diagonal_last toy_runtime
              toy_hessian 3 [10; 20; 30; 99]%Z [7; 7; 7; 7]%Z
              toy_runtime_ok toy_hessian_compressed) as (_ & H1 & H2 & _).
  - vm_compute. lia.
  - vm_compute. lia.
  - vm_compute. lia.
  - split; [exact H1 | exact H2].
Defined.

(** The toy Hessian, structure and values side by side. *)
Lemma HM_values_match_structure_witness :
  let s := WorhpInterface.HM_structure true toy_hessian 3
             [0; 0; 0; 0]%Z [0; 0; 0; 0]%Z in
  let val := (WorhpInterface.evalHM_values toy_runtime toy_hessian 3
                [10; 20; 30; 99]%Z [7; 7; 7; 7]%Z).1 in
  s.2 = 4 ∧ length val = 4 ∧
  ∀ k, k < 4 →
    ∃ r c, s.1.1 !! k = Some (r + 1)%Z ∧ s.1.2 !! k = Some (c + 1)%Z ∧
           (0 ≤ c ≤ r)%Z ∧ (c < 3)%Z ∧
           val !! k = Some (WorhpInterface.entry (K := Zscalar) toy_hessian
                              [10; 20; 30; 99]%Z r c).
Proof.
  exact (WorhpInterface.HM_values_match_structure toy_runtime toy_hessian 3
           [0; 0; 0; 0]%Z [0; 0; 0; 0]%Z [10; 20; 30; 99]%Z [7; 7; 7; 7]%Z
           toy_runtime_ok toy_hessian_compressed toy_hessian_unique_rows
           toy_hessian_lower_triangular eq_refl eq_refl eq_refl
           (le_S _ _ (le_n _)) (le_S _ _ (le_n _))).
Defined.

(** Bounds over the integers, with [1000000] for infinity and [1000] for
    [worhp_p.Infty]: the free lower bound of the second variable and the
    free upper bound of the first constraint are replaced; the lower bound
    [inf] and the upper bound [-inf] of the third variable are kept. *)
Lemma replace_infinite_bounds_witness :
  WorhpInterface.replace_infinite (K := Zscalar) Z.eqb 1000000%Z 3 1 1000%Z
    [0; -1000000; 1000000]%Z [5; 7; -1000000]%Z [-3]%Z [1000000]%Z =
    ([0; -1000; 1000000]%Z, [5; 7; -1000000]%Z, [-3]%Z, [1000]%Z) ∧
  (∀ v, v ∈ [0; -1000; 1000000]%Z ++ [-3]%Z → Z.eqb v (-1000000) = false) ∧
  (∀ v, v ∈ [5; 7; -1000000]%Z ++ [1000]%Z → Z.eqb v 1000000 = false) ∧
  ([0; -1000; 1000000]%Z ++ [-3]%Z) !! 2 = Some 1000000%Z ∧
  ([5; 7; -1000000]%Z ++ [1000]%Z) !! 2 = Some (-1000000)%Z.
Proof.
  destruct (WorhpInterface.replace_infinite_bounds (K := Zscalar) Z.eqb
              1000000%Z 3 1 1000%Z [0; -1000000; 1000000]%Z
              [5; 7; -1000000]%Z [-3]%Z [1000000]%Z
              eq_refl eq_refl eq_refl eq_refl)
    as (Hmap & Hlow & Hup & _ & _ & Hinf & Hninf).
  split; [exact Hmap|]. split; [exact (Hlow eq_refl)|].
  split; [exact (Hup eq_refl)|].
  split; [exact (Hinf eq_refl 2 eq_refl) | exact (Hninf eq_refl 2 eq_refl)].
Defined.

(** Integer values for the statuses, all distinct. *)
Definition toy_code (s : WorhpInterface.Status.t) : Z :=
  match s with
  | WorhpInterface.Status.TerminateSuccess => 100
  | WorhpInterface.Status.OptimalSolution => 101
  | WorhpInterface.Status.SearchDirectionZero => 102
  | WorhpInterface.Status.SearchDirectionSmall => 103
  | WorhpInterface.Status.StationaryPointFound => 104
  | WorhpInterface.Status.AcceptablePrevious => 105
  | WorhpInterface.Status.FritzJohn => 106
  | WorhpInterface.Status.NotDiffable => 107
  | WorhpInterface.Status.Unbounded => 108
  | WorhpInterface.Status.FeasibleSolution => 109
  | WorhpInterface.Status.LowPassFilterOptimal => 110
  | WorhpInterface.Status.LowPassFilterAcceptable => 111
  | WorhpInterface.Status.TerminateError => -1
  | WorhpInterface.Status.InitError => -2
  | WorhpInterface.Status.DataError => -3
  | WorhpInterface.Status.MaxCalls => -4
  | WorhpInterface.Status.MaxIter => -5
  | WorhpInterface.Status.MinimumStepsize => -6
  | WorhpInterface.Status.QPerror => -7
  | WorhpInterface.Status.ProblemInfeasible => -8
  | WorhpInterface.Status.GroupsComposition => -9
  | WorhpInterface.Status.TooBig => -10
  | WorhpInterface.Status.Timeout => -11
  | WorhpInterface.Status.FDError => -12
  | WorhpInterface.Status.LocalInfeas => -13
  | WorhpInterface.Status.LicenseError => -14
  | WorhpInterface.Status.TerminatedByUser => -15
  | WorhpInterface.Status.FunctionErrorF => -16
  | WorhpInterface.Status.FunctionErrorG => -17
  | WorhpInterface.Status.FunctionErrorDF => -18
  | WorhpInterface.Status.FunctionErrorDG => -19
  | WorhpInterface.Status.FunctionErrorHM => -20
  end%Z.

Lemma toy_code_inj s s' : toy_code s = toy_code s' → s = s'.
Proof. destruct s, s'; (reflexivity || discriminate). Qed.

(** The names of two codes and the text for an integer that is no code. *)
Lemma return_codes_identify_witness :
  WorhpInterface.return_codes toy_code 101 = "OptimalSolution" ∧
  WorhpInterface.return_codes toy_code (-5) = "MaxIter" ∧
  WorhpInterface.return_codes toy_code 7 = "Unknown WORHP return code" ∧
  ∀ s, WorhpInterface.return_codes toy_code (toy_code s) =
       WorhpInterface.Status.name s.
Proof.
  split; [reflexivity|]. split; [reflexivity|]. split; [reflexivity|].
  exact (proj1 (WorhpInterface.return_codes_identify toy_code toy_code_inj)).
Defined.

(** ** Structural nodes

    [repmat.hpp] and [rank1.hpp] declare the nodes; the bodies of their
    [evalGen] templates are in files that are not at hand and are modelled
    from the specification.  The templates are instantiated with the
    element type of the buffers: the arithmetic is a parameter of the
    model, [exact K] for the exact arithmetic of a commutative ring and
    [binary64] for that of [double]. *)

(** The element type of an [evalGen] instance, with its zero, sum and
    product. *)
Record Arith : Type := mkArith {
  elt :> Type;
  azero : elt;
  aadd : elt → elt → elt;
  amul : elt → elt → elt
}.

(** Exact arithmetic: a commutative ring. *)
Definition exact (K : Scalar) : Arith := mkArith K 0%K add mul.

(** [double]: the binary64 numbers with their rounded sum and product. *)
Definition binary64 : Arith :=
  mkArith PrimFloat.float PrimFloat.zero PrimFloat.add PrimFloat.mul.

Module Binary64.
Import PrimFloat.

(** The binary64 number nearest to [0.1], and [6]. *)
Definition tenth : float := 0x1.999999999999ap-4%float.
Definition six : float := 6%float.

(** [0.1] added six times, starting from zero, and six times [0.1]:
    neighbours. *)
Definition six_tenths_added : float := 0x1.3333333333333p-1%float.
Definition six_tenths : float := 0x1.3333333333334p-1%float.

End Binary64.

(** [n] as a scalar: [1 + ... + 1]. *)
Fixpoint scalar_of_nat {K : Scalar} (n : nat) : K :=
  match n with
  | 0 => 0%K
  | S n' => (1 + scalar_of_nat n')%K
  end.

Module Repmat.

Section Eval.
Context {T : Type}.

(** Modelled from the spec: [HorzRepmat::evalGen], whose definition is not
    among the files: "copy X's nonzero buffer n times contiguously".  The
    [i]-th copy goes to offset [i * nnz] of the output buffer [res]; the
    member [n_], a number of tiles, is a [nat]. *)
Definition HorzRepmat_evalGen (n : nat) (arg res : list T) : list T :=
  foldl (λ res i, list_inserts (i * length arg) arg res) res (seq 0 n).

(** Modelled from the spec: [HorzRepsum::evalGen], whose definition is not
    among the files: the input holds [n] horizontal blocks of [nnz]
    nonzeros, reduced "by element-wise accumulation (sum, by default, but
    must accept an arbitrary associative/commutative binary reduction
    function as a parameter) across the n blocks into one block".  The
    output block starts from [zero], and the blocks are accumulated into it
    one after the other, the first block first. *)
Definition HorzRepsum_evalGen (zero : T) (reduction : T → T → T)
    (n nnz : nat) (arg : list T) : list T :=
  foldl (λ res i, zip_with reduction (take nnz (drop (i * nnz) arg)) res)
    (replicate nnz zero) (seq 0 n).

Lemma concat_replicate_comm (x : list T) k :
  concat (replicate k x) ++ x = x ++ concat (replicate k x).
Proof.
  induction k as [|k IH]; simpl; [by rewrite app_nil_r|].
  by rewrite <- app_assoc, IH.
Qed.

Lemma HorzRepmat_prefix (x res : list T) : ∀ k,
  k * length x ≤ length res →
  foldl (λ res i, list_inserts (i * length x) x res) res (seq 0 k) =
  concat (replicate k x) ++ drop (k * length x) res.
Proof.
  induction k as [|k IH]; intros Hk; [done|].
  rewrite seq_S, foldl_app, IH by lia. simpl.
  assert (length (concat (replicate k x)) = k * length x) as Hlen.
  { rewrite (length_concat_const (length x)); [by rewrite length_replicate|].
    by apply Forall_replicate. }
  rewrite <- Hlen at 1.
  rewrite <- (Nat.add_0_r (length (concat (replicate k x)))) at 1.
  rewrite list_inserts_app_r.
  rewrite list_inserts_split by (rewrite length_drop; simpl; lia).
  rewrite take_0, drop_drop. simpl.
  rewrite app_assoc, concat_replicate_comm. do 2 f_equal. lia.
Qed.

(** [HorzRepmat] fills its output with [n] copies of the input. *)
Lemma HorzRepmat_copies n (x res : list T) :
  length res = n * length x →
  HorzRepmat_evalGen n x res = concat (replicate n x).
Proof.
  intros H. unfold HorzRepmat_evalGen. rewrite HorzRepmat_prefix by lia.
  rewrite drop_ge by lia. apply app_nil_r.
Qed.

Lemma zip_with_fmap_r (f : T → T → T) (g : T → T) (x : list T) :
  zip_with f x (g <$> x) = (λ v, f v (g v)) <$> x.
Proof. induction x as [|v x IH]; [done|]. csimpl. by rewrite IH. Qed.

(** After [k] blocks every entry of the output is the [k]-fold
    accumulation of the entry of [x], from [zero]. *)
Lemma HorzRepsum_prefix (zero : T) (reduction : T → T → T) (n : nat)
    (x : list T) : ∀ k,
  k ≤ n →
  foldl (λ res i, zip_with reduction (take (length x)
                    (drop (i * length x) (concat (replicate n x)))) res)
    (replicate (length x) zero) (seq 0 k) =
  (λ v, Nat.iter k (reduction v) zero) <$> x.
Proof.
  induction k as [|k IH]; intros Hk.
  - simpl. induction x as [|v x IHx]; [done|]. csimpl. by rewrite IHx.
  - rewrite seq_S, foldl_app, IH by lia. simpl.
    rewrite (segment_concat (length x) (replicate n x) k x).
    + by rewrite zip_with_fmap_r.
    + by apply Forall_replicate.
    + apply lookup_replicate_2. lia.
Qed.

Lemma HorzRepsum_of_copies (zero : T) (reduction : T → T → T) n
    (x res : list T) :
  length res = n * length x →
  HorzRepsum_evalGen zero reduction n (length x) (HorzRepmat_evalGen n x res) =
    (λ v, Nat.iter n (reduction v) zero) <$> x.
Proof.
  intros H. rewrite HorzRepmat_copies by done.
  unfold HorzRepsum_evalGen. by apply HorzRepsum_prefix.
Qed.

End Eval.

(** Modelled from the spec: the numeric and symbolic evaluation of
    [HorzRepsum], whose definitions are not among the files: [evalGen] on
    the element type, from its zero, with its sum as the reduction ("sum,
    by default"). *)
Definition HorzRepsum_eval (T : Arith) (n nnz : nat) (arg : list T) : list T :=
  HorzRepsum_evalGen (azero T) (aadd T) n nnz arg.

Section Exact.
Context {K : Scalar}.
Add Ring Kring_repmat : (ring_laws K).

(** In a commutative ring the [n]-fold sum of [v] from zero is [n·v]. *)
Lemma iter_add_exact (v : K) n :
  Nat.iter n (add v) 0%K = (scalar_of_nat n * v)%K.
Proof.
  induction n as [|n IH]; simpl; [ring|]. rewrite IH. ring.
Qed.

End Exact.

(** C6 (as amended). Tiled replication followed by tiled reduction with
    the same [n]: [HorzRepmat] writes [n] contiguous copies of the nonzeros
    of [X], and [HorzRepsum] accumulates the [n] blocks into one, so that
    every entry of the result is the [n]-fold accumulation of the entry of
    [X] from zero, whatever the element type and the reduction are; with
    the sum of a commutative ring as reduction that is [n·X], entry by
    entry. *)
Theorem repsum_repmat (T : Arith) (reduction : T → T → T) (K : Scalar)
    (n : nat) (x res : list T) (y res' : list K) :
  length res = n * length x →
  length res' = n * length y →
  HorzRepmat_evalGen n x res = concat (replicate n x) ∧
  HorzRepsum_evalGen (azero T) reduction n (length x)
      (HorzRepmat_evalGen n x res) =
    (λ v, Nat.iter n (reduction v) (azero T)) <$> x ∧
  HorzRepsum_eval T n (length x) (HorzRepmat_evalGen n x res) =
    (λ v, Nat.iter n (aadd T v) (azero T)) <$> x ∧
  HorzRepsum_eval (exact K) n (length y) (HorzRepmat_evalGen n y res') =
    (λ v, scalar_of_nat n * v)%K <$> y.
Proof.
  intros H H'. split; [by apply HorzRepmat_copies|].
  split; [by apply HorzRepsum_of_copies|].
  split; [by apply HorzRepsum_of_copies|].
  unfold HorzRepsum_eval.
  rewrite (HorzRepsum_of_copies (T := K)) by done.
  apply list_fmap_ext. intros i v _. apply iter_add_exact.
Qed.

End Repmat.

Module Rank1.


(** The pattern of [A] in compressed column storage: the number of
    columns, the offset [colind[cc]] of each column in the buffer of the
    nonzeros, closed by the number of nonzeros, and the row [row[el]] of
    each nonzero. *)
Record Pattern : Type := mkPattern {
  ncol : nat;
  colind : list nat;
  row : list nat
}.

(** The offsets do not decrease and stay within a buffer of [nnz]
    nonzeros. *)
Definition compressed (sp : Pattern) (nnz : nat) : Prop :=
  (∀ cc, cc < ncol sp → nth cc (colind sp) 0 ≤ nth (S cc) (colind sp) 0) ∧
  nth (ncol sp) (colind sp) 0 ≤ nnz.



Section Eval.
Context (T : Arith).

(** Modelled from the spec: the update "A + α·x·yᵗ" of a nonzero [a] in
    row [rr] and column [cc], [a + alpha * x[rr] * y[cc]]. *)
Definition update (alpha : T) (x y : list T) (rr cc : nat) (a : T) : T :=
  aadd T a (amul T (amul T alpha (nth rr x (azero T))) (nth cc y (azero T))).

(** Modelled from the spec: [Rank1::evalGen], whose definition is not among
    the files: the node computes "A + α·x·yᵗ" on the entries that are
    "structurally tracked", those of the pattern of [A], and "may compute
    in place when a safe in-place flag indicates the destination buffer may
    alias A's buffer".  [A] is the buffer of the nonzeros of the pattern
    [sp], column after column; [res] is [None] when the output buffer is
    that of [A], and otherwise the output buffer, into which [A] is copied
    first; then every nonzero is updated, column after column. *)
Definition evalGen (sp : Pattern) (A : list T) (alpha : T)
    (x y : list T) (res : option (list T)) : list T :=
  let res0 := match res with
              | None => A
              | Some r => list_inserts 0 A r
              end in
  foldl (λ r cc,
           foldl (λ r el, alter (update alpha x y (nth el (row sp) 0) cc) el r)
             r (seq (nth cc (colind sp) 0)
                    (nth (S cc) (colind sp) 0 - nth cc (colind sp) 0)))
    res0 (seq 0 (ncol sp)).

(** The entry in row [rr] and column [cc] of the matrix with the pattern
    [sp] and the nonzeros [buf]: the nonzero of the column in that row, or
    zero when the pattern has none. *)
Definition entry (sp : Pattern) (buf : list T) (rr cc : nat) : T :=
  match list_find (λ el, nth el (row sp) 0 = rr)
          (seq (nth cc (colind sp) 0)
               (nth (S cc) (colind sp) 0 - nth cc (colind sp) 0)) with
  | Some (_, el) => nth el buf (azero T)
  | None => azero T
  end.

(** One column: the nonzeros [a .. a + k - 1] are updated, each once. *)
Lemma column_loop (g : nat → T → T) : ∀ k a (r : list T),
  let r' := foldl (λ r el, alter (g el) el r) r (seq a k) in
  length r' = length r ∧
  ∀ j, r' !! j = if decide (a ≤ j < a + k) then g j <$> r !! j else r !! j.
Proof.
  induction k as [|k IH]; intros a r; cbv zeta.
  - split; [done|]. intros j. cbn [seq foldl]. case_decide; [lia | done].
  - rewrite seq_S, foldl_app. simpl.
    destruct (IH a r) as [Hlen Hget]. split; [by rewrite length_alter|].
    intros j. destruct (decide (j = a + k)) as [->|Hne].
    + rewrite list_lookup_alter_eq, Hget.
      by rewrite decide_False, decide_True by lia.
    + rewrite list_lookup_alter_ne, Hget by done.
      destruct (decide (a ≤ j < a + k)).
      * by rewrite decide_True by lia.
      * by rewrite decide_False by lia.
Qed.



(** The output buffer before the update. *)
Lemma output_buffer (A : list T) res :
  (∀ r, res = Some r → length r = length A) →
  match res with None => A | Some r => list_inserts 0 A r end = A.
Proof.
  intros Hres. destruct res as [r|]; [|done].
  apply list_inserts_whole. by rewrite (Hres r).
Qed.


Lemma evalGen_length sp (A : list T) alpha x y res :
  (∀ r, res = Some r → length r = length A) →
  length (evalGen sp A alpha x y res) = length A.
Proof.
  intros Hres. unfold evalGen. rewrite output_buffer by done.
  generalize (seq 0 (ncol sp)). intros cols. revert A Hres.
  induction cols as [|cc cols IH] using rev_ind; intros A Hres; [done|].
  rewrite foldl_app. simpl.
  match goal with |- context [foldl ?f ?r0 (seq ?a ?k)] =>
    destruct (column_loop (λ el, update alpha x y (nth el (row sp) 0) cc) k a r0)
      as [-> _]
  end.
  by apply IH.
Qed.


End Eval.


Section Exact.
Context {K : Scalar}.
Add Ring Kring_rank1 : (ring_laws K).


End Exact.

End Rank1.

(** The specification's scenario: tiling a [2 × 2] matrix of ones three
    times gives a [2 × 6] matrix of ones. *)
Example repmat_ones :
  Repmat.HorzRepmat_evalGen 3 [1; 1; 1; 1]%Z (replicate 12 0%Z) =
  replicate 12 1%Z.
Proof. reflexivity. Qed.

(** Witness of C6: six tiles of [0.1] in binary64 reduce to [0.1] added six
    times, and six tiles of [(1, 2)] over the integers to six times it. *)
Lemma repsum_repmat_witness :
  Repmat.HorzRepsum_eval binary64 6 1
    (Repmat.HorzRepmat_evalGen 6 [Binary64.tenth] (replicate 6 PrimFloat.zero)) =
    [Binary64.six_tenths_added] ∧
  Repmat.HorzRepsum_eval (exact Zscalar) 6 2
    (Repmat.HorzRepmat_evalGen 6 [1; 2]%Z (replicate 12 0%Z)) = [6; 12]%Z.
Proof.
  destruct (Repmat.repsum_repmat binary64 PrimFloat.add Zscalar 6
              [Binary64.tenth] (replicate 6 PrimFloat.zero)
              [1; 2]%Z (replicate 12 0%Z))
    as (_ & _ & H3 & H4); [reflexivity | reflexivity |].
  split; [exact H3 | exact H4].
Defined.

(** Counterexample to C6 as stated: in binary64 six tiles of [0.1] reduce
    to [0.1] added six times, which is not six times [0.1]. *)
Lemma repsum_repmat_binary64_counterexample :
  let x := [Binary64.tenth] in
  let r := Repmat.HorzRepsum_eval binary64 6 1
             (Repmat.HorzRepmat_evalGen 6 x (replicate 6 PrimFloat.zero)) in
  r = [Binary64.six_tenths_added] ∧
  (λ v, PrimFloat.mul Binary64.six v) <$> x = [Binary64.six_tenths] ∧
  r ≠ (λ v, PrimFloat.mul Binary64.six v) <$> x.
Proof.
  split; [reflexivity|]. split; [reflexivity|].
  intros H.
  apply (f_equal (λ l, match l with
                       | [v] => PrimFloat.eqb v Binary64.six_tenths
                       | _ => false
                       end)) in H.
  vm_compute in H. discriminate H.
Qed.




